(** * Discord crypto price bot: quote cache, scheduler loops and voice-channel
      reconciliation

    A shallow embedding of [src/discord_price/quote.py] and
    [src/discord_price/updaters.py], and the properties of the specification
    checked against it.

    Conventions of the embedding.
    - Python [str] is [string] (the UTF-8 bytes of the text; byte-wise
      lexicographic order coincides with Python's code-point order).
    - Python [float] values (prices, market caps, clock readings) are exact
      rationals [Q], and arithmetic on them is exact.
    - A Python [dict] is an association list in insertion order with unique
      keys ([Py.dict_set] overwrites in place, as [d[k] = v] does); the order
      matters to the stable sort of the eviction and to the delete loop.
    - [sorted] is a stable sort; it is embedded as a stable insertion sort. *)

From Stdlib Require Import List String Ascii Bool Arith ZArith QArith Qround Lia.
From Stdlib Require Import Permutation Sorted ListSet OrderedTypeEx.
Import ListNotations.

Set Implicit Arguments.
Set Warnings "-register-all".
Close Scope Q_scope.
Open Scope string_scope.
Open Scope list_scope.

(* ================================================================= *)
(** ** Python built-ins used by the sources *)

Module Py.

Section Sorting.
Variable A : Type.
(** [before y x] holds when [y] has to be placed strictly before [x]. *)
Variable before : A -> A -> bool.

Fixpoint insert (x : A) (l : list A) : list A :=
  match l with
  | [] => [x]
  | y :: l' => if before y x then y :: insert x l' else x :: y :: l'
  end.

(** [sorted]: elements that compare equal keep their input order. *)
Fixpoint sorted (l : list A) : list A :=
  match l with
  | [] => []
  | x :: l' => insert x (sorted l')
  end.
End Sorting.

(** Strict order on floats. *)
Definition Qltb (x y : Q) : bool := negb (Qle_bool y x).

Section Dict.
Variable V : Type.

Definition dict := list (string * V).

Fixpoint dict_get (k : string) (d : dict) : option V :=
  match d with
  | [] => None
  | (k', v) :: d' => if String.eqb k k' then Some v else dict_get k d'
  end.

(** [d[k] = v] *)
Fixpoint dict_set (k : string) (v : V) (d : dict) : dict :=
  match d with
  | [] => [(k, v)]
  | (k', v') :: d' =>
      if String.eqb k k' then (k, v) :: d' else (k', v') :: dict_set k v d'
  end.

(** [del d[k]] *)
Definition dict_del (k : string) (d : dict) : dict :=
  filter (fun kv => negb (String.eqb k (fst kv))) d.
End Dict.

(** [s.split(' ')[0]]: the text before the first space (the whole text when
    there is none; [split] never returns an empty list). *)
Fixpoint first_token (s : string) : string :=
  match s with
  | EmptyString => EmptyString
  | String c s' => if Ascii.eqb c " "%char then EmptyString
                   else String c (first_token s')
  end.

Fixpoint no_space (s : string) : bool :=
  match s with
  | EmptyString => true
  | String c s' => negb (Ascii.eqb c " "%char) && no_space s'
  end.

(** The order [sorted] uses on [str]. *)
Definition str_le (a b : string) : Prop := String.leb a b = true.

(** [sep.join(l)] *)
Definition join (sep : string) (l : list string) : string := String.concat sep l.

End Py.

(* ================================================================= *)
(** ** quote.py: quotes, response parsing and the quote cache *)

Module Quote.

(** A decoded JSON document, as [response.json()] returns it.  An object is
    the list of its members (keys unique). *)
Inductive json : Type :=
| JNull
| JBool (b : bool)
| JNum (q : Q)
| JStr (s : string)
| JArr (l : list json)
| JObj (o : list (string * json)).

(** [@dataclass CryptoQuote], typed as the class annotates its fields. *)
Record CryptoQuote : Type := {
  symbol : string;
  name : string;
  slug : string;
  price_usd : Q;
  percent_change_1h : Q;
  percent_change_24h : Q;
  percent_change_7d : Q;
  market_cap : Q;
  volume_24h : Q;
  last_updated : string
}.

(** The exceptions that travel through quote.py.  The last four are the
    [Exception(...)] values the module raises itself. *)
Inductive exn : Type :=
| AttributeError
| TypeError
| ValueError
| ParseFailed
| RateLimitExceeded
| ApiRequestFailed (status : Z)
| NetworkError.

Inductive result (A : Type) : Type :=
| Ok (a : A)
| Raised (e : exn).
Arguments Ok {A} a.
Arguments Raised {A} e.

Definition bind {A B : Type} (r : result A) (k : A -> result B) : result B :=
  match r with
  | Ok a => k a
  | Raised e => Raised e
  end.

Notation "x <- r ;; k" := (bind r (fun x => k))
  (at level 61, r at next level, right associativity).

Fixpoint mapM {A B : Type} (f : A -> result B) (l : list A) : result (list B) :=
  match l with
  | [] => Ok []
  | a :: l' => b <- f a ;; bs <- mapM f l' ;; Ok (b :: bs)
  end.

Definition is_ok {A : Type} (r : result A) : bool :=
  match r with Ok _ => true | Raised _ => false end.

(** [d.get(k, default)] on a dict. *)
Definition get (k : string) (default : json) (o : list (string * json)) : json :=
  match Py.dict_get k o with
  | Some v => v
  | None => default
  end.

(** Calling [.get] or [.items] on a value that is not a dict raises
    [AttributeError]. *)
Definition as_dict (j : json) : result (list (string * json)) :=
  match j with
  | JObj o => Ok o
  | _ => Raised AttributeError
  end.

(** A member stored without conversion in a [str] field.  (A value of another
    JSON type, which the source would store as it is, has no image in the
    typed record; it is represented by the empty text.) *)
Definition text_of (j : json) : string :=
  match j with
  | JStr s => s
  | _ => EmptyString
  end.

Section Parsing.
(** Python's [float(str)]: [None] when the text is not a number. *)
Variable str_to_float : string -> option Q.

(** [float(x)] *)
Definition float (j : json) : result Q :=
  match j with
  | JNum q => Ok q
  | JBool b => Ok (if b then 1 else 0)%Q
  | JStr s => match str_to_float s with
              | Some q => Ok q
              | None => Raised ValueError
              end
  | _ => Raised TypeError
  end.

(** The body of the [for] loop of [_parse_api_response]. *)
Definition parse_entry (info_j : json) : result CryptoQuote :=
  info <- as_dict info_j ;;
  quote_obj <- as_dict (get "quote" (JObj []) info) ;;
  let quote_data_j := get "USD" (JObj []) quote_obj in
  quote_data <- as_dict quote_data_j ;;
  price <- float (get "price" (JNum 0) quote_data) ;;
  pc1h <- float (get "percent_change_1h" (JNum 0) quote_data) ;;
  pc24h <- float (get "percent_change_24h" (JNum 0) quote_data) ;;
  pc7d <- float (get "percent_change_7d" (JNum 0) quote_data) ;;
  mcap <- float (get "market_cap" (JNum 0) quote_data) ;;
  vol <- float (get "volume_24h" (JNum 0) quote_data) ;;
  Ok {| symbol := text_of (get "symbol" (JStr "") info);
        name := text_of (get "name" (JStr "") info);
        slug := text_of (get "slug" (JStr "") info);
        price_usd := price;
        percent_change_1h := pc1h;
        percent_change_24h := pc24h;
        percent_change_7d := pc7d;
        market_cap := mcap;
        volume_24h := vol;
        last_updated := text_of (get "last_updated" (JStr "") quote_data) |}.

(** [except (KeyError, ValueError, TypeError)]: these are re-raised as the
    module's own parse failure; any other exception passes through. *)
Definition _parse_api_response (data : json) : result (list CryptoQuote) :=
  match (top <- as_dict data ;;
         entries <- as_dict (get "data" (JObj []) top) ;;
         mapM parse_entry (map snd entries)) with
  | Ok quotes => Ok quotes
  | Raised TypeError => Raised ParseFailed
  | Raised ValueError => Raised ParseFailed
  | Raised e => Raised e
  end.
End Parsing.

(** *** The cache *)

Record CacheEntry : Type := {
  data : list CryptoQuote;
  timestamp : Q
}.

(** What the upstream answers to one GET. *)
Inductive response : Type :=
| Status200 (body : json)
| Status429
| StatusOther (status : Z)
| ClientError.

(** Effects visible outside the cache. *)
Inductive event : Type :=
| EvSleep (seconds : Q)
| EvGet (symbols : list string).

(** A [PriceQuoteCache] instance together with the part of the environment it
    reads and writes: the wall clock behind [time.time()] and the record of
    sleeps and requests. *)
Record PriceQuoteCache : Type := {
  cache_ttl : Q;
  max_cache_size : Z;
  cache : Py.dict CacheEntry;
  last_request_time : Q;
  min_request_interval : Q;
  clock : Q;
  trace : list event
}.

(** [PriceQuoteCache(api_key, cache_ttl, max_cache_size)] created at time
    [now]. *)
Definition init (ttl : Q) (max_size : Z) (now : Q) : PriceQuoteCache :=
  {| cache_ttl := ttl; max_cache_size := max_size; cache := [];
     last_request_time := 0; min_request_interval := 1;
     clock := now; trace := [] |}.

Definition set_cache (c : Py.dict CacheEntry) (st : PriceQuoteCache) :=
  {| cache_ttl := cache_ttl st; max_cache_size := max_cache_size st;
     cache := c; last_request_time := last_request_time st;
     min_request_interval := min_request_interval st;
     clock := clock st; trace := trace st |}.

Definition set_last_request_time (t : Q) (st : PriceQuoteCache) :=
  {| cache_ttl := cache_ttl st; max_cache_size := max_cache_size st;
     cache := cache st; last_request_time := t;
     min_request_interval := min_request_interval st;
     clock := clock st; trace := trace st |}.

(** [await asyncio.sleep(d)] *)
Definition sleep (d : Q) (st : PriceQuoteCache) :=
  {| cache_ttl := cache_ttl st; max_cache_size := max_cache_size st;
     cache := cache st; last_request_time := last_request_time st;
     min_request_interval := min_request_interval st;
     clock := Qred (clock st + d); trace := trace st ++ [EvSleep d] |}.

Definition log_get (symbols : list string) (st : PriceQuoteCache) :=
  {| cache_ttl := cache_ttl st; max_cache_size := max_cache_size st;
     cache := cache st; last_request_time := last_request_time st;
     min_request_interval := min_request_interval st;
     clock := clock st; trace := trace st ++ [EvGet symbols] |}.

Definition requests_sent (tr : list event) : nat :=
  List.length (filter (fun e => match e with EvGet _ => true | _ => false end) tr).

Definition _generate_cache_key (symbols : list string) : string :=
  Py.join "," (Py.sorted String.ltb symbols).

Definition _is_cache_valid (st : PriceQuoteCache) (cache_entry : CacheEntry)
    (current_time : Q) : bool :=
  Py.Qltb (current_time - timestamp cache_entry) (cache_ttl st).

Definition _cleanup_cache (st : PriceQuoteCache) : PriceQuoteCache :=
  let current_time := clock st in
  let expired_keys :=
    map fst (filter (fun kv => negb (_is_cache_valid st (snd kv) current_time))
                    (cache st)) in
  let c1 := fold_left (fun c k => Py.dict_del k c) expired_keys (cache st) in
  let c2 :=
    if (max_cache_size st <? Z.of_nat (List.length c1))%Z then
      let sorted_items :=
        Py.sorted (fun x y => Py.Qltb (timestamp (snd x)) (timestamp (snd y))) c1 in
      let excess := Z.to_nat (Z.of_nat (List.length c1) - max_cache_size st) in
      fold_left (fun c kv => Py.dict_del (fst kv) c) (firstn excess sorted_items) c1
    else c1 in
  set_cache c2 st.

Definition _rate_limit (st : PriceQuoteCache) : PriceQuoteCache :=
  let current_time := clock st in
  let time_since_last := (current_time - last_request_time st)%Q in
  let st1 := if Py.Qltb time_since_last (min_request_interval st)
             then sleep (min_request_interval st - time_since_last) st
             else st in
  set_last_request_time (clock st1) st1.

Section Fetching.
Variable str_to_float : string -> option Q.
(** The upstream: its answer to the [n]-th request (counting from 0) for the
    given symbols. *)
Variable upstream : nat -> list string -> response.

Definition _fetch_from_api (symbols : list string) (st : PriceQuoteCache)
    : result (list CryptoQuote) * PriceQuoteCache :=
  let st1 := _rate_limit st in
  let resp := upstream (requests_sent (trace st1)) symbols in
  let st2 := log_get symbols st1 in
  match resp with
  | Status200 body => (_parse_api_response str_to_float body, st2)
  | Status429 => (Raised RateLimitExceeded, sleep 60 st2)
  | StatusOther status => (Raised (ApiRequestFailed status), st2)
  | ClientError => (Raised NetworkError, st2)
  end.

(** [fetch] catches every exception of the upstream call, so it returns a
    plain list. *)
Definition fetch (symbols : list string) (current_time : Q)
    (st : PriceQuoteCache) : list CryptoQuote * PriceQuoteCache :=
  match symbols with
  | [] => ([], st)
  | _ =>
    let st1 := _cleanup_cache st in
    let cache_key := _generate_cache_key symbols in
    match Py.dict_get cache_key (cache st1) with
    | Some e =>
        if _is_cache_valid st1 e current_time then (data e, st1)
        else
          match _fetch_from_api symbols st1 with
          | (Ok quotes, st2) =>
              (quotes,
               set_cache (Py.dict_set cache_key
                            {| data := quotes; timestamp := current_time |}
                            (cache st2)) st2)
          | (Raised _, st2) =>
              match Py.dict_get cache_key (cache st2) with
              | Some stale => (data stale, st2)
              | None => ([], st2)
              end
          end
    | None =>
        match _fetch_from_api symbols st1 with
        | (Ok quotes, st2) =>
            (quotes,
             set_cache (Py.dict_set cache_key
                          {| data := quotes; timestamp := current_time |}
                          (cache st2)) st2)
        | (Raised _, st2) =>
            match Py.dict_get cache_key (cache st2) with
            | Some stale => (data stale, st2)
            | None => ([], st2)
            end
        end
    end
  end.

Definition fetch_no_cache (symbols : list string) (st : PriceQuoteCache)
    : result (list CryptoQuote) * PriceQuoteCache :=
  match symbols with
  | [] => (Ok [], st)
  | _ => _fetch_from_api symbols st
  end.
End Fetching.

End Quote.

(* ================================================================= *)
(** ** The collaborator owning the voice channels *)

(** Modelled from the spec: the external resource operations (the Discord
    client library and service, which are not part of this repository).  A
    container (category) holds its resources in order; the ordinal position
    of a resource is its index, dense [0..N-1]; create, rename, reposition
    and delete are atomic, succeed, and take effect at once, so that the
    [name] and [position] the reconciler reads off a channel object are the
    current ones. *)
Module Discord.

(** Modelled from the spec: an external resource, a handle and its display
    label. *)
Record channel : Type := {
  ch_id : nat;
  ch_name : string
}.

(** The requests a reconciliation issues, in issue order. *)
Inductive op : Type :=
| OpCreate (name : string) (position : option nat)
| OpRename (id : nat) (name : string)
| OpReposition (id : nat) (position : nat)
| OpDelete (id : nat).

Record category : Type := {
  voice_channels : list channel;
  next_id : nat;
  issued : list op
}.

Definition has_id (id : nat) (ch : channel) : bool := Nat.eqb (ch_id ch) id.

Definition find_channel (id : nat) (chs : list channel) : option channel :=
  find (has_id id) chs.

Fixpoint position_of (id : nat) (chs : list channel) : option nat :=
  match chs with
  | [] => None
  | ch :: chs' =>
      if has_id id ch then Some 0
      else option_map S (position_of id chs')
  end.

Definition name_of (id : nat) (chs : list channel) : option string :=
  option_map ch_name (find_channel id chs).

Definition remove_channel (id : nat) (chs : list channel) : list channel :=
  filter (fun ch => negb (has_id id ch)) chs.

Definition insert_at (i : nat) (ch : channel) (chs : list channel) : list channel :=
  firstn i chs ++ ch :: skipn i chs.

(** [category.create_voice_channel(name=..., position=...)]: the new resource
    gets a fresh handle; without a position it is appended. *)
Definition create_voice_channel (name : string) (position : option nat)
    (c : category) : nat * category :=
  let ch := {| ch_id := next_id c; ch_name := name |} in
  (next_id c,
   {| voice_channels :=
        match position with
        | Some i => insert_at i ch (voice_channels c)
        | None => voice_channels c ++ [ch]
        end;
      next_id := S (next_id c);
      issued := issued c ++ [OpCreate name position] |}).

(** [channel.edit(name=...)] *)
Definition edit_name (id : nat) (name : string) (c : category) : category :=
  {| voice_channels :=
       map (fun ch => if has_id id ch then {| ch_id := ch_id ch; ch_name := name |}
                      else ch) (voice_channels c);
     next_id := next_id c;
     issued := issued c ++ [OpRename id name] |}.

(** [channel.edit(position=...)] *)
Definition edit_position (id : nat) (position : nat) (c : category) : category :=
  {| voice_channels :=
       match find_channel id (voice_channels c) with
       | Some ch => insert_at position ch (remove_channel id (voice_channels c))
       | None => voice_channels c
       end;
     next_id := next_id c;
     issued := issued c ++ [OpReposition id position] |}.

(** [channel.delete()] *)
Definition delete (id : nat) (c : category) : category :=
  {| voice_channels := remove_channel id (voice_channels c);
     next_id := next_id c;
     issued := issued c ++ [OpDelete id] |}.

(** The key the reconciler reads off a label:
    [channel.name.split(' ')[0]]. *)
Definition extracted_key (ch : channel) : string := Py.first_token (ch_name ch).

(** A container before anything has been issued. *)
Definition container (chs : list channel) (fresh : nat) : category :=
  {| voice_channels := chs; next_id := fresh; issued := [] |}.

(** Handles as the collaborator hands them out: distinct, and older than the
    next fresh one. *)
Definition well_formed (chs : list channel) (fresh : nat) : Prop :=
  NoDup (map ch_id chs) /\ Forall (fun ch => ch_id ch < fresh) chs.

(** The resource an operation is addressed to ([None] for a create). *)
Definition target (o : op) : option nat :=
  match o with
  | OpCreate _ _ => None
  | OpRename id _ => Some id
  | OpReposition id _ => Some id
  | OpDelete id => Some id
  end.

End Discord.

(* ================================================================= *)
(** ** config.py: the per-guild configuration read by the updaters *)

Module Config.

Record GuildConfiguration : Type := {
  update_category : option Z;
  voice_tickers : list string;
  cmc_api_key : option string
}.

(** Python truthiness of the optional fields. *)
Definition truthy_id (o : option Z) : bool :=
  match o with
  | Some z => negb (Z.eqb z 0)
  | None => false
  end.

Definition truthy_str (o : option string) : bool :=
  match o with
  | Some s => negb (String.eqb s "")
  | None => false
  end.

Definition truthy_list {A : Type} (l : list A) : bool :=
  match l with
  | [] => false
  | _ => true
  end.

End Config.

(* ================================================================= *)
(** ** updaters.py *)

Module BaseUpdater.

(** What a scheduler loop sees of the outside: the wall clock, the
    connection ([closed_polls] is the number of coming [client.is_closed()]
    polls that still answer [True]), the sleeps it performed and the number
    of callbacks it started. *)
Record world : Type := {
  clock : Q;
  closed_polls : nat;
  slept : list Q;
  ticks : nat
}.

Definition sleep (d : Q) (w : world) : world :=
  {| clock := Qred (clock w + d); closed_polls := closed_polls w;
     slept := slept w ++ [d]; ticks := ticks w |}.

(** One [client.is_closed()] poll. *)
Definition is_closed (w : world) : bool * world :=
  match closed_polls w with
  | O => (false, w)
  | S n => (true, {| clock := clock w; closed_polls := n;
                     slept := slept w; ticks := ticks w |})
  end.

(** [now % cadence] on floats. *)
Definition Qmod (x c : Q) : Q := (x - c * inject_Z (Qfloor (x / c)))%Q.

(** [while self.client.is_closed(): await asyncio.sleep(180)], by recursion
    on the number of polls that answer [True]. *)
Fixpoint wait_connected (polls : nat) (w : world) : world :=
  match polls with
  | O => snd (is_closed w)
  | S n => wait_connected n (sleep 180 (snd (is_closed w)))
  end.

Definition boundary_timer (cadence : Q) (w : world) : world :=
  let now := clock w in
  let next_boundary := Qred (cadence - Qmod now cadence) in
  let w1 := sleep next_boundary w in
  wait_connected (closed_polls w1) w1.

(** An exception leaving a callback (for instance [discord.Forbidden] from
    [channel.edit], which [update_voice_channels_for_guild] lets through its
    [try ... finally]). *)
Definition pyexn : Type := string.

(** How a loop stands after a bounded observation: still looping, or ended
    by an exception that left it. *)
Inductive status : Type :=
| Looping
| Ended (e : pyexn).

Section Loop.
(** The outcome of the [n]-th callback run: [None] when it returns, the
    exception when it raises. *)
Variable callback : nat -> option pyexn.

Definition run_callback (w : world) : option pyexn * world :=
  (callback (ticks w),
   {| clock := clock w; closed_polls := closed_polls w;
      slept := slept w; ticks := S (ticks w) |}).

(** [while True: await self.boundary_timer(cadence, ...); await callback()],
    observed for at most [fuel] iterations. *)
Fixpoint while_true (cadence : Q) (fuel : nat) (w : world) : status * world :=
  match fuel with
  | O => (Looping, w)
  | S fuel' =>
      let w1 := boundary_timer cadence w in
      match run_callback w1 with
      | (None, w2) => while_true cadence fuel' w2
      | (Some e, w2) => (Ended e, w2)
      end
  end.
End Loop.

End BaseUpdater.

Module VoiceChannelUpdater.
Import Quote Discord Config.

(** [update_loop], once [client.wait_until_ready()] has returned:
    [update_all_voice_channels] at every 3600 s boundary. *)
Definition update_loop (update_all_voice_channels : nat -> option BaseUpdater.pyexn)
    (fuel : nat) (w : BaseUpdater.world) : BaseUpdater.status * BaseUpdater.world :=
  BaseUpdater.while_true update_all_voice_channels 3600 fuel w.

Record Styles : Type := {
  price_up_icon : string;
  price_down_icon : string
}.

Section Reconciler.
Variable styles : Styles.
(** Python's fixed-point formatting [f"{x:.<d>f}"]. *)
Variable format_fixed : nat -> Q -> string.
Variable str_to_float : string -> option Q.
Variable upstream : nat -> list string -> response.

Definition _format_price (price : Q) : string :=
  if Py.Qltb price (1 # 100) then "$" ++ format_fixed 6 price
  else if Py.Qltb price 1 then "$" ++ format_fixed 4 price
  else if Py.Qltb price 1000 then "$" ++ format_fixed 2 price
  else "$" ++ format_fixed 0 price.

Definition _create_channel_name (quote : CryptoQuote) : string :=
  let emoji := if Qle_bool 0 (percent_change_1h quote)
               then price_up_icon styles else price_down_icon styles in
  let price_str := _format_price (price_usd quote) in
  symbol quote ++ " " ++ emoji ++ " " ++ price_str.

(** [guild_quoter = PriceQuoteCache(guild_config.cmc_api_key)] followed by
    [await guild_quoter.fetch(symbols, time.time())]: a fresh cache with the
    default limits, asked once. *)
Definition fetch_fresh (symbols : list string) (now : Q) : list CryptoQuote :=
  fst (fetch str_to_float upstream symbols now (init 300 1000 now)).

(** [sorted(quotes, key=lambda x: x.market_cap, reverse=True)] *)
Definition sort_by_market_cap (quotes : list CryptoQuote) : list CryptoQuote :=
  Py.sorted (fun y x => Py.Qltb (market_cap x) (market_cap y)) quotes.

(** *** add_voice_ticker *)

(** The [for i, quote in enumerate(sorted_quotes)] search, from index [i]. *)
Fixpoint find_ticker (ticker : string) (i : nat) (sorted_quotes : list CryptoQuote)
    : option (CryptoQuote * nat) :=
  match sorted_quotes with
  | [] => None
  | quote :: rest =>
      if String.eqb (symbol quote) ticker then Some (quote, i)
      else find_ticker ticker (S i) rest
  end.

(** The part of [add_voice_ticker] after the quotes have arrived. *)
Definition add_with_quotes (all_quotes : list CryptoQuote) (ticker : string)
    (c : category) : category :=
  match all_quotes with
  | [] => c
  | _ =>
    let sorted_quotes := sort_by_market_cap all_quotes in
    match find_ticker ticker 0 sorted_quotes with
    | None => c
    | Some (new_quote, target_position) =>
        let channel_name := _create_channel_name new_quote in
        let (new_channel, c1) := create_voice_channel channel_name None c in
        let existing_channels :=
          filter (fun ch => negb (has_id new_channel ch)) (voice_channels c1) in
        match target_position with
        | O => edit_position new_channel 0 c1
        | S before =>
            let channels_before := target_position in
            if Nat.ltb channels_before (List.length existing_channels) then
              match nth_error existing_channels before with
              | Some prev =>
                  match position_of (ch_id prev) (voice_channels c1) with
                  | Some p => edit_position new_channel (p + 1) c1
                  | None => c1
                  end
              | None => c1
              end
            else c1
        end
    end
  end.

(** The guild and its update category are taken to be found; when they are
    not the entry points return at once without issuing anything. *)
Definition add_voice_ticker (guild_config : option GuildConfiguration)
    (ticker : string) (now : Q) (c : category) : category :=
  match guild_config with
  | None => c
  | Some cfg =>
      if truthy_id (update_category cfg) && truthy_str (cmc_api_key cfg) then
        add_with_quotes (fetch_fresh (voice_tickers cfg) now) ticker c
      else c
  end.

(** *** remove_voice_ticker *)

(** The [for channel in category.voice_channels] search, left at the first
    match ([break]). *)
Fixpoint remove_first (ticker : string) (chs : list channel) (c : category)
    : category :=
  match chs with
  | [] => c
  | ch :: chs' =>
      if String.eqb (extracted_key ch) ticker then delete (ch_id ch) c
      else remove_first ticker chs' c
  end.

Definition remove_voice_ticker (guild_config : option GuildConfiguration)
    (ticker : string) (c : category) : category :=
  match guild_config with
  | None => c
  | Some cfg =>
      if truthy_id (update_category cfg) then
        remove_first ticker (voice_channels c) c
      else c
  end.

(** *** update_voice_channels_for_guild *)

(** [existing_channels]: symbol to channel handle, over the channels as
    they are when the pass starts. *)
Definition existing_by_key (chs : list channel) : Py.dict nat :=
  fold_left (fun d ch => Py.dict_set (extracted_key ch) (ch_id ch) d) chs [].

Definition name_differs (id : nat) (name : string) (c : category) : bool :=
  match name_of id (voice_channels c) with
  | Some n => negb (String.eqb n name)
  | None => true
  end.

Definition position_differs (id : nat) (i : nat) (c : category) : bool :=
  match position_of id (voice_channels c) with
  | Some p => negb (Nat.eqb p i)
  | None => true
  end.

(** The [for i, quote in enumerate(sorted_quotes)] loop, from index [i];
    [processed] is [processed_channels]. *)
Fixpoint update_or_create (existing_channels : Py.dict nat) (i : nat)
    (sorted_quotes : list CryptoQuote) (processed : set string) (c : category)
    : set string * category :=
  match sorted_quotes with
  | [] => (processed, c)
  | quote :: rest =>
      let channel_name := _create_channel_name quote in
      match Py.dict_get (symbol quote) existing_channels with
      | Some existing_channel =>
          let c1 := if name_differs existing_channel channel_name c
                    then edit_name existing_channel channel_name c else c in
          let c2 := if position_differs existing_channel i c1
                    then edit_position existing_channel i c1 else c1 in
          update_or_create existing_channels (S i) rest
            (set_add string_dec (symbol quote) processed) c2
      | None =>
          let c1 := snd (create_voice_channel channel_name (Some i) c) in
          update_or_create existing_channels (S i) rest
            (set_add string_dec (symbol quote) processed) c1
      end
  end.

(** The [for symbol, channel in existing_channels.items()] loop. *)
Definition delete_unprocessed (existing_channels : Py.dict nat)
    (processed : set string) (c : category) : category :=
  fold_left (fun c kv => if set_mem string_dec (fst kv) processed then c
                         else delete (snd kv) c)
            existing_channels c.

(** The part of [update_voice_channels_for_guild] after the quotes have
    arrived. *)
Definition update_with_quotes (quotes : list CryptoQuote) (c : category)
    : category :=
  match quotes with
  | [] => c
  | _ =>
    let existing_channels := existing_by_key (voice_channels c) in
    let sorted_quotes := sort_by_market_cap quotes in
    let (processed_channels, c1) :=
      update_or_create existing_channels 0 sorted_quotes (empty_set string) c in
    delete_unprocessed existing_channels processed_channels c1
  end.

Definition update_voice_channels_for_guild
    (guild_config : option GuildConfiguration) (now : Q) (c : category)
    : category :=
  match guild_config with
  | None => c
  | Some cfg =>
      if truthy_id (update_category cfg) && truthy_list (voice_tickers cfg)
         && truthy_str (cmc_api_key cfg) then
        update_with_quotes (fetch_fresh (voice_tickers cfg) now) c
      else c
  end.
End Reconciler.

End VoiceChannelUpdater.

Module MessageTickerUpdater.

(** [update_loop], once [client.wait_until_ready()] has returned:
    [update_all_message_tickers] at every 1800 s boundary. *)
Definition update_loop (update_all_message_tickers : nat -> option BaseUpdater.pyexn)
    (fuel : nat) (w : BaseUpdater.world) : BaseUpdater.status * BaseUpdater.world :=
  BaseUpdater.while_true update_all_message_tickers 1800 fuel w.

End MessageTickerUpdater.

(* ================================================================= *)
(** ** Response shapes *)

(** The shapes [_parse_api_response] accepts, written out separately from the
    parser to state what it tolerates: a member that is missing is fine, a
    member that is present must have the type the parser reads it at. *)
Module Shapes.
Import Quote.

Definition numeric_fields : list string :=
  ["price"; "percent_change_1h"; "percent_change_24h"; "percent_change_7d";
   "market_cap"; "volume_24h"].

Definition entry_accepted (str_to_float : string -> option Q) (info_j : json) : bool :=
  match info_j with
  | JObj info =>
      match get "quote" (JObj []) info with
      | JObj quote_obj =>
          match get "USD" (JObj []) quote_obj with
          | JObj quote_data =>
              forallb (fun k => is_ok (float str_to_float (get k (JNum 0) quote_data)))
                      numeric_fields
          | _ => false
          end
      | _ => false
      end
  | _ => false
  end.

Definition body_accepted (str_to_float : string -> option Q) (data : json) : bool :=
  match data with
  | JObj top =>
      match get "data" (JObj []) top with
      | JObj entries => forallb (fun kv => entry_accepted str_to_float (snd kv)) entries
      | _ => false
      end
  | _ => false
  end.

(** The quote built for an entry that has no [quote] member: the text members
    it has, and 0 for every number. *)
Definition defaulted (info : list (string * json)) : CryptoQuote :=
  {| symbol := text_of (get "symbol" (JStr "") info);
     name := text_of (get "name" (JStr "") info);
     slug := text_of (get "slug" (JStr "") info);
     price_usd := 0; percent_change_1h := 0; percent_change_24h := 0;
     percent_change_7d := 0; market_cap := 0; volume_24h := 0;
     last_updated := "" |}.


Definition defaulted_entry (info_j : json) : CryptoQuote :=
  match info_j with
  | JObj info => defaulted info
  | _ => defaulted []
  end.

End Shapes.

(** ** Cache states *)

Module CacheSpec.
Import Py Quote.

(** The state of a cache between calls: distinct keys, a limit that is not
    negative, and at most one entry above the limit. *)
Definition between_calls (st : PriceQuoteCache) : Prop :=
  NoDup (map fst (cache st)) /\
  (0 <= max_cache_size st)%Z /\
  (Z.of_nat (List.length (cache st)) <= max_cache_size st + 1)%Z.

End CacheSpec.

(* ================================================================= *)
(** ** Concrete inputs used by the examples below *)

Module Examples.
Import Quote Discord Config VoiceChannelUpdater.

(** Price texts in the examples are not numbers. *)
Definition no_float : string -> option Q := fun _ => None.

Definition icons : Styles := {| price_up_icon := "+"; price_down_icon := "-" |}.

(** A stand-in for fixed-point formatting: every price prints the same. *)
Definition fixed : nat -> Q -> string := fun _ _ => "1.00".

(** One entry of the upstream's [data] mapping. *)
Definition entry (sym : string) (price mcap : Q) : string * json :=
  (sym, JObj [("symbol", JStr sym);
              ("quote", JObj [("USD", JObj [("price", JNum price);
                                            ("market_cap", JNum mcap)])])]).

Definition body (entries : list (string * json)) : json :=
  JObj [("status", JObj [("error_code", JNum 0)]); ("data", JObj entries)].

(** An upstream that answers every request with the same document. *)
Definition answers (doc : json) : nat -> list string -> response :=
  fun _ _ => Status200 doc.

(** An upstream that resolves each requested symbol on its own. *)
Definition echo : nat -> list string -> response :=
  fun _ symbols => Status200 (body (map (fun s => entry s 5 1) symbols)).

Definition quote_of (sym : string) (price mcap : Q) : CryptoQuote :=
  {| symbol := sym; name := ""; slug := ""; price_usd := price;
     percent_change_1h := 0; percent_change_24h := 0; percent_change_7d := 0;
     market_cap := mcap; volume_24h := 0; last_updated := "" |}.



(** An upstream that answers its first request and cannot be reached
    afterwards. *)
Definition flaky : nat -> list string -> response :=
  fun n symbols => match n with
                   | O => echo n symbols
                   | S _ => ClientError
                   end.

(** The wall clock reads [t]. *)
Definition at_time (t : Q) (st : PriceQuoteCache) : PriceQuoteCache :=
  {| cache_ttl := cache_ttl st; max_cache_size := max_cache_size st;
     cache := cache st; last_request_time := last_request_time st;
     min_request_interval := min_request_interval st;
     clock := t; trace := trace st |}.

(** A cache with the default limits that stored the BTC quote at time 0,
    read again when the wall clock shows 1000: the entry has expired. *)
Definition expired_cache : PriceQuoteCache :=
  at_time 1000 (snd (fetch no_float flaky ["BTC"] 0 (init 300 1000 0))).

(** The same cache read again at once: the entry is alive by the wall
    clock. *)
Definition recent_cache : PriceQuoteCache :=
  snd (fetch no_float flaky ["BTC"] 1000 (init 300 1000 1000)).

(** A cache limited to one entry. *)
Definition tiny_cache : PriceQuoteCache := init 300 1 1000.

Definition guild (tickers : list string) : option GuildConfiguration :=
  Some {| update_category := Some 42%Z; voice_tickers := tickers;
          cmc_api_key := Some "key" |}.

Definition chan (id : nat) (label : string) : channel :=
  {| ch_id := id; ch_name := label |}.

Definition start : BaseUpdater.world :=
  {| BaseUpdater.clock := 100; BaseUpdater.closed_polls := 0;
     BaseUpdater.slept := []; BaseUpdater.ticks := 0 |}.

(** A callback that raises on every run. *)
Definition failing : nat -> option BaseUpdater.pyexn := fun _ => Some "Forbidden".

(** A callback that raises on its third run only. *)
Definition third_fails : nat -> option BaseUpdater.pyexn :=
  fun n => if Nat.eqb n 2 then Some "Forbidden" else None.

End Examples.

(* ================================================================= *)
(** ** Vocabulary for the reconciler's properties *)

Module ReconcilerSpec.
Import Py Quote Discord Config VoiceChannelUpdater.

(** The quotes an entry point works with: what the fresh cache returns for
    the guild's tracked symbols. *)
Definition quotes_for (str_to_float : string -> option Q)
    (upstream : nat -> list string -> response)
    (guild_config : option GuildConfiguration) (now : Q) : list CryptoQuote :=
  match guild_config with
  | Some cfg => fetch_fresh str_to_float upstream (voice_tickers cfg) now
  | None => []
  end.

(** An operation the update-or-create loop may issue for the quotes [qs]. *)
Definition loop_op (styles : Styles) (format_fixed : nat -> Q -> string)
    (existing : dict nat) (qs : list CryptoQuote) (o : op) : Prop :=
  match o with
  | OpCreate name _ =>
      exists q, In q qs /\ name = _create_channel_name styles format_fixed q
  | OpRename id _ => exists q, In q qs /\ dict_get (symbol q) existing = Some id
  | OpReposition id _ => exists q, In q qs /\ dict_get (symbol q) existing = Some id
  | OpDelete _ => False
  end.

(** The channel's key is one of [syms]. *)
Definition keyed_in (syms : list string) (ch : channel) : bool :=
  if in_dec string_dec (extracted_key ch) syms then true else false.

(** The delete loop removes the channel. *)
Definition deleted_by (existing : dict nat) (processed : set string) (ch : channel)
    : bool :=
  existsb (fun kv => negb (set_mem string_dec (fst kv) processed)
                     && Nat.eqb (snd kv) (ch_id ch)) existing.

(** What the lookup in [existing_channels] says about the channels [R] still
    to be placed. *)
Definition agrees (existing : dict nat) (R : list channel) (q : CryptoQuote) : Prop :=
  match dict_get (symbol q) existing with
  | Some id => exists ch, In ch R /\ ch_id ch = id /\ extracted_key ch = symbol q
  | None => ~ In (symbol q) (map extracted_key R)
  end.


(** The operations the add path issues when the new quote has rank [rank]
    among the sorted quotes and the container held [n] channels. *)
Definition add_ops (name : string) (new_channel rank n : nat) : list op :=
  OpCreate name None ::
  (if Nat.eqb rank 0 || Nat.ltb rank n then [OpReposition new_channel rank] else []).

End ReconcilerSpec.

(* ================================================================= *)
(** ** Sequences of calls on one cache *)

Module CacheRuns.
Import Quote.

(** One [fetch] call as a caller makes it: the symbols asked for, the
    [current_time] argument, and what the wall clock reads when the call
    starts. *)
Record call : Type := {
  asked : list string;
  argument : Q;
  started : Q
}.

Section Runs.
Variable str_to_float : string -> option Q.
Variable upstream : nat -> list string -> response.

(** The calls of a list made one after the other on the same instance. *)
Fixpoint fetch_all (calls : list call) (st : PriceQuoteCache) : PriceQuoteCache :=
  match calls with
  | [] => st
  | c :: rest =>
      fetch_all rest
        (snd (fetch str_to_float upstream (asked c) (argument c)
                (Examples.at_time (started c) st)))
  end.
End Runs.

(** The entries that are alive by the wall clock. *)
Definition alive (st : PriceQuoteCache) (kv : string * CacheEntry) : bool :=
  _is_cache_valid st (snd kv) (clock st).

(** A cache limited to one entry that holds two: BTC stored at 1000 and ETH
    stored at 1001, read when the wall clock shows 1002. *)
Definition crowded_cache : PriceQuoteCache :=
  set_cache [("BTC", {| data := [Examples.quote_of "BTC" 5 1]; timestamp := 1000 |});
             ("ETH", {| data := [Examples.quote_of "ETH" 7 2]; timestamp := 1001 |})]
            (init 300 1 1002).

End CacheRuns.

(* ================================================================= *)
(** ** More concrete inputs *)

Module Market.
Import Quote Examples.

(** An upstream that answers every request with ETH (market cap 2) listed
    before BTC (market cap 9). *)
Definition ranked : nat -> list string -> response :=
  answers (body [entry "ETH" 7 2; entry "BTC" 5 9]).

(** An upstream that cannot be reached. *)
Definition unreachable : nat -> list string -> response :=
  fun _ _ => ClientError.

End Market.

(* ================================================================= *)
(** ** Vocabulary for the cache key *)

Module KeySpec.

(** A symbol that does not contain the separator of the key. *)
Fixpoint no_comma (s : string) : bool :=
  match s with
  | EmptyString => true
  | String c s' => negb (Ascii.eqb c ","%char) && no_comma s'
  end.

(** What may follow a symbol in a key: nothing, or the separator. *)
Definition rest_of_key (r : string) : Prop :=
  match r with
  | EmptyString => True
  | String c _ => c = ","%char
  end.

End KeySpec.

(* ================================================================= *)
(** ** Python text and integers *)

From Stdlib Require DecimalString DecimalZ.

Module PyText.

(** [str(n)] for an [int]: the decimal digits, after a minus sign for a
    negative number. *)
Definition str (n : Z) : string :=
  DecimalString.NilZero.string_of_int (Z.to_int n).

(** [s.split(":")]: the pieces between the colons (never an empty list). *)
Fixpoint split (s : string) : list string :=
  match s with
  | EmptyString => [EmptyString]
  | String c s' =>
      if Ascii.eqb c ":"%char then EmptyString :: split s'
      else match split s' with
           | piece :: pieces => String c piece :: pieces
           | [] => [String c EmptyString]
           end
  end.

(** Cutting a number off towards zero, as [int] does. *)
Definition truncate (x : Q) : Z := Z.quot (Qnum x) (Zpos (Qden x)).

End PyText.

(* ================================================================= *)
(** ** utils.py and config.py: the configuration and its JSON form *)

Module ConfigData.
Import Quote.

(** [@dataclass GuildConfiguration], all of it, typed as the class annotates
    its fields. *)
Record GuildConfiguration : Type := {
  id : Z;
  update_category : option Z;
  voice_tickers : list string;
  ratio_tickers : Py.dict Z;
  message_tickers : Py.dict Z;
  management_role_id : option Z;
  cmc_api_key : option string
}.

(** [@dataclass Configuration]: [guilds] maps a guild id to its
    configuration; as every dict it is kept in insertion order. *)
Record Configuration : Type := {
  guilds : list (Z * GuildConfiguration)
}.

(** [guilds[guild_id] = guild] *)
Fixpoint guilds_set (guild_id : Z) (guild : GuildConfiguration)
    (d : list (Z * GuildConfiguration)) : list (Z * GuildConfiguration) :=
  match d with
  | [] => [(guild_id, guild)]
  | (k, g) :: d' =>
      if Z.eqb guild_id k then (guild_id, guild) :: d'
      else (k, g) :: guilds_set guild_id guild d'
  end.

(** [guilds.get(guild_id)] *)
Fixpoint guilds_get (guild_id : Z) (d : list (Z * GuildConfiguration))
    : option GuildConfiguration :=
  match d with
  | [] => None
  | (k, g) :: d' => if Z.eqb guild_id k then Some g else guilds_get guild_id d'
  end.

(** What the voice-channel updater reads of a guild's configuration. *)
Definition voice_view (g : GuildConfiguration) : Config.GuildConfiguration :=
  {| Config.update_category := update_category g;
     Config.voice_tickers := voice_tickers g;
     Config.cmc_api_key := cmc_api_key g |}.

(** utils.py, [to_all_strings]: [{k: str(v) for k, v in d.items()}]. *)
Definition to_all_strings (d : Py.dict Z) : list (string * json) :=
  map (fun kv => (fst kv, JStr (PyText.str (snd kv)))) d.

(** A list of texts stored without conversion in a [List[str]] field.  (A
    value of another JSON type, which the source would store as it is, has
    no image in the typed record; it is represented by the empty text or
    the empty list.) *)
Definition texts_of (j : json) : list string :=
  match j with
  | JArr l => map text_of l
  | _ => []
  end.

(** A member stored without conversion in an [Optional[str]] field (a value
    that is not a text is represented by [None]). *)
Definition optional_text (j : json) : option string :=
  match j with
  | JStr s => Some s
  | _ => None
  end.

Section Loading.
(** Python's [int(str)]: [None] when the text is not an integer literal. *)
Variable int_of_str : string -> option Z.

(** [int(x)] *)
Definition int (j : json) : result Z :=
  match j with
  | JStr s => match int_of_str s with
              | Some n => Ok n
              | None => Raised ValueError
              end
  | JNum q => Ok (PyText.truncate q)
  | JBool b => Ok (if b then 1 else 0)%Z
  | _ => Raised TypeError
  end.

(** utils.py, [to_all_ints]: [{k: int(v) for k, v in d.items()}]. *)
Definition to_all_ints (d : json) : result (Py.dict Z) :=
  items <- as_dict d ;;
  mapM (fun kv => n <- int (snd kv) ;; Ok (fst kv, n)) items.

(** [x = guild_data.get(key); if x is not None: x = int(x)] *)
Definition optional_int (key : string) (guild_data : list (string * json))
    : result (option Z) :=
  match get key JNull guild_data with
  | JNull => Ok None
  | j => n <- int j ;; Ok (Some n)
  end.

(** The body of the [for] loop of [config_from_dict]. *)
Definition load_guild (guilds : list (Z * GuildConfiguration))
    (item : string * json) : result (list (Z * GuildConfiguration)) :=
  let (guild_id_s, guild_data_j) := item in
  guild_id <- int (JStr guild_id_s) ;;
  guild_data <- as_dict guild_data_j ;;
  update_category <- optional_int "update_category" guild_data ;;
  management_role_id <- optional_int "management_role_id" guild_data ;;
  let voice_tickers := texts_of (get "voice_tickers" (JArr []) guild_data) in
  ratio_tickers <- to_all_ints (get "ratio_tickers" (JObj []) guild_data) ;;
  message_tickers <- to_all_ints (get "message_tickers" (JObj []) guild_data) ;;
  let cmc_api_key := optional_text (get "cmc_api_key" JNull guild_data) in
  Ok (guilds_set guild_id
        {| id := guild_id;
           update_category := update_category;
           voice_tickers := voice_tickers;
           ratio_tickers := ratio_tickers;
           message_tickers := message_tickers;
           management_role_id := management_role_id;
           cmc_api_key := cmc_api_key |}
        guilds).

Fixpoint load_guilds (items : list (string * json))
    (guilds : list (Z * GuildConfiguration))
    : result (list (Z * GuildConfiguration)) :=
  match items with
  | [] => Ok guilds
  | item :: rest => guilds' <- load_guild guilds item ;; load_guilds rest guilds'
  end.

Definition config_from_dict (d : json) : result Configuration :=
  items <- as_dict d ;;
  guilds <- load_guilds items [] ;;
  Ok {| guilds := guilds |}.
End Loading.

(** The [guild_data] that [dict_from_config] builds for one guild. *)
Definition guild_data_of (guild : GuildConfiguration) : list (string * json) :=
  let guild_data :=
    [("message_tickers", JObj (to_all_strings (message_tickers guild)));
     ("ratio_tickers", JObj (to_all_strings (ratio_tickers guild)));
     ("voice_tickers", JArr (map JStr (voice_tickers guild)))] in
  let guild_data :=
    match update_category guild with
    | Some n => Py.dict_set "update_category" (JStr (PyText.str n)) guild_data
    | None => guild_data
    end in
  let guild_data :=
    match management_role_id guild with
    | Some n => Py.dict_set "management_role_id" (JStr (PyText.str n)) guild_data
    | None => guild_data
    end in
  match cmc_api_key guild with
  | Some key => Py.dict_set "cmc_api_key" (JStr key) guild_data
  | None => guild_data
  end.

Definition dict_from_config (c : Configuration) : list (string * json) :=
  fold_left (fun d guild =>
               Py.dict_set (PyText.str (id guild)) (JObj (guild_data_of guild)) d)
            (map snd (guilds c)) [].

(** commands.py, [_get_or_create_guild]; the second component is the
    configuration afterwards. *)
Definition _get_or_create_guild (guild_id : Z) (c : Configuration)
    : GuildConfiguration * Configuration :=
  match guilds_get guild_id (guilds c) with
  | Some guild => (guild, c)
  | None =>
      let guild := {| id := guild_id; update_category := None;
                      voice_tickers := []; ratio_tickers := [];
                      message_tickers := []; management_role_id := None;
                      cmc_api_key := None |} in
      (guild, {| guilds := guilds_set guild_id guild (guilds c) |})
  end.

(** A configuration as the loader builds it: every guild is stored under
    its own id, and no id twice. *)
Definition keyed_by_id (c : Configuration) : Prop :=
  Forall (fun kv => fst kv = id (snd kv)) (guilds c) /\
  NoDup (map fst (guilds c)).

End ConfigData.

(* ================================================================= *)
(** ** updaters.py: the message tickers *)

Module MessageTickers.
Import Quote ConfigData.

(** Modelled from the spec: the message-send collaborator (the Discord
    client library, which is not part of this repository).  A send to a
    channel is fire-and-forget and delivers the text; [sent] lists the
    deliveries in order, each with the id of its channel. *)
Record pass_state : Type := {
  quoter : PriceQuoteCache;
  sent : list (Z * string)
}.

(** [await channel.send(message)] *)
Definition send (channel_id : Z) (message : string) (s : pass_state) : pass_state :=
  {| quoter := quoter s; sent := sent s ++ [(channel_id, message)] |}.

(** The exceptions that leave [_update_ratio_tickers]: the [ValueError] of
    the unpacking [ticker1, ticker2 = pair.split(":")], the
    [ZeroDivisionError] of [b.price_usd / a.price_usd], and what [int]
    raises for a float quotient it cannot convert: [OverflowError] for an
    infinite one, [ValueError] for one that is not a number. *)
Inductive raised : Type :=
| UnpackValueError
| ZeroDivisionError
| OverflowError
| NanValueError.

(** What [int] makes of a float quotient. *)
Inductive converted : Type :=
| Ratio (n : Z)
| Infinite
| NotANumber.

(** [{quote.symbol: quote for quote in quotes}] *)
Definition by_symbol (quotes : list CryptoQuote) : Py.dict CryptoQuote :=
  fold_left (fun d quote => Py.dict_set (symbol quote) quote d) quotes [].

Section Passes.
(** Python's fixed-point formatting [f"{x:.<d>f}"]. *)
Variable format_fixed : nat -> Q -> string.
Variable str_to_float : string -> option Q.
Variable upstream : nat -> list string -> response.
(** Modelled from the spec: [client.get_channel(channel_id)], whether the
    collaborator knows the channel. *)
Variable get_channel : Z -> bool.
(** Python's [int(b / a)] on the floats [b] and [a], [a] not 0: the float
    quotient, rounded as float division rounds it, cut off towards zero;
    or no integer, when the float quotient has overflowed to infinity or
    is not a number. *)
Variable int_of_quotient : Q -> Q -> converted.
(** Modelled from the spec: [client.get_guild(guild_id)], whether the
    collaborator knows the guild. *)
Variable get_guild : Z -> bool.

(** [await guild_quoter.fetch(symbols, time.time())] *)
Definition fetch_now (symbols : list string) (s : pass_state)
    : list CryptoQuote * pass_state :=
  let (quotes, q) :=
    fetch str_to_float upstream symbols (clock (quoter s)) (quoter s) in
  (quotes, {| quoter := q; sent := sent s |}).

Definition regular_message (quote : CryptoQuote) (symbol : string) : string :=
  "The price of " ++ name quote ++ " (" ++ symbol ++ ") is $"
  ++ format_fixed 2 (price_usd quote)
  ++ " USD on [CMC](<https://coinmarketcap.com/currencies/" ++ slug quote ++ "/>)".

(** The [for symbol, channel_id in guild_config.message_tickers.items()]
    loop. *)
Fixpoint regular_loop (quotes_by_symbol : Py.dict CryptoQuote)
    (items : list (string * Z)) (s : pass_state) : pass_state :=
  match items with
  | [] => s
  | (symbol, channel_id) :: rest =>
      match Py.dict_get symbol quotes_by_symbol with
      | None => regular_loop quotes_by_symbol rest s
      | Some quote =>
          if get_channel channel_id then
            regular_loop quotes_by_symbol rest
              (send channel_id (regular_message quote symbol) s)
          else regular_loop quotes_by_symbol rest s
      end
  end.

Definition _update_regular_tickers (guild_config : GuildConfiguration)
    (s : pass_state) : pass_state :=
  match message_tickers guild_config with
  | [] => s
  | _ =>
    let symbols := map fst (message_tickers guild_config) in
    let (quotes, s1) := fetch_now symbols s in
    regular_loop (by_symbol quotes) (message_tickers guild_config) s1
  end.

Definition ratio_message (ticker1 ticker2 : string) (ratio : Z) (a : CryptoQuote)
    : string :=
  "The swap rate of " ++ ticker1 ++ ":" ++ ticker2 ++ " is " ++ PyText.str ratio
  ++ ":1 on [CMC](<https://coinmarketcap.com/currencies/" ++ slug a ++ "/>)".

(** The [for pair, channel_id in guild_config.ratio_tickers.items()] loop
    ([pair] is [pair_key] here): [None] when it runs to its end, the
    exception when one leaves it. *)
Fixpoint ratio_loop (items : list (string * Z)) (s : pass_state)
    : option raised * pass_state :=
  match items with
  | [] => (None, s)
  | (pair_key, channel_id) :: rest =>
      match PyText.split pair_key with
      | [ticker1; ticker2] =>
          let (quotes, s1) := fetch_now [ticker1; ticker2] s in
          let quotes_by_symbol := by_symbol quotes in
          match Py.dict_get ticker1 quotes_by_symbol,
                Py.dict_get ticker2 quotes_by_symbol with
          | Some a, Some b =>
              if get_channel channel_id then
                if Qeq_bool (price_usd a) 0 then (Some ZeroDivisionError, s1)
                else
                  match int_of_quotient (price_usd b) (price_usd a) with
                  | Ratio ratio =>
                      ratio_loop rest
                        (send channel_id (ratio_message ticker1 ticker2 ratio a) s1)
                  | Infinite => (Some OverflowError, s1)
                  | NotANumber => (Some NanValueError, s1)
                  end
              else ratio_loop rest s1
          | _, _ => ratio_loop rest s1
          end
      | _ => (Some UnpackValueError, s)
      end
  end.

Definition _update_ratio_tickers (guild_config : GuildConfiguration)
    (s : pass_state) : option raised * pass_state :=
  match ratio_tickers guild_config with
  | [] => (None, s)
  | _ => ratio_loop (ratio_tickers guild_config) s
  end.

(** [update_message_tickers_for_guild].  The quoter is created for the
    pass at time [now] and closed when the pass ends, also when an
    exception leaves it; [outbox] lists the deliveries made before.  A pass
    that returns before it has made its quoter is given the state of a
    quoter that was never asked. *)
Definition update_message_tickers_for_guild (config : Configuration)
    (guild_id : Z) (do_regulars do_ratios : bool)
    (now : Q) (outbox : list (Z * string)) : option raised * pass_state :=
  let s := {| quoter := init 300 1000 now; sent := outbox |} in
  match guilds_get guild_id (guilds config) with
  | None => (None, s)
  | Some guild_config =>
      if Config.truthy_str (cmc_api_key guild_config) then
        if get_guild guild_id then
          let s1 := if do_regulars then _update_regular_tickers guild_config s
                    else s in
          if do_ratios then _update_ratio_tickers guild_config s1 else (None, s1)
        else (None, s)
      else (None, s)
  end.

(** The [for guild_config in self.config.guilds.values()] loop of
    [update_all_message_tickers]: the pass of every guild in turn, asked for
    by [guild_config.id].  A pass starts when the one before
    has ended, and an exception that leaves a pass leaves the loop.  The
    result carries the wall clock's reading and the deliveries at the end. *)
Fixpoint all_guilds_loop (config : Configuration) (values : list GuildConfiguration)
    (do_regulars do_ratios : bool) (now : Q) (outbox : list (Z * string))
    : option raised * (Q * list (Z * string)) :=
  match values with
  | [] => (None, (now, outbox))
  | guild_config :: rest =>
      match update_message_tickers_for_guild config (id guild_config)
              do_regulars do_ratios now outbox with
      | (None, s) =>
          all_guilds_loop config rest do_regulars do_ratios
            (clock (quoter s)) (sent s)
      | (Some e, s) => (Some e, (clock (quoter s), sent s))
      end
  end.

Definition update_all_message_tickers (config : Configuration)
    (do_regulars do_ratios : bool) (now : Q) (outbox : list (Z * string))
    : option raised * (Q * list (Z * string)) :=
  all_guilds_loop config (map snd (guilds config)) do_regulars do_ratios now outbox.
End Passes.

End MessageTickers.

(** ** Vocabulary for the message tickers' properties *)

Module MessageSpec.
Import Quote MessageTickers.

(** The deliveries the regular tickers ask for: one for every configured
    ticker that has a quote and a known channel, in configuration order. *)
Definition regular_messages (format_fixed : nat -> Q -> string)
    (get_channel : Z -> bool) (quotes_by_symbol : Py.dict CryptoQuote)
    (items : list (string * Z)) : list (Z * string) :=
  flat_map (fun kv =>
              match Py.dict_get (fst kv) quotes_by_symbol with
              | Some quote =>
                  if get_channel (snd kv)
                  then [(snd kv, regular_message format_fixed quote (fst kv))]
                  else []
              | None => []
              end) items.

(** A pair key that unpacks into its two tickers. *)
Definition unpacks (pair_key : string) : bool :=
  match PyText.split pair_key with
  | [_; _] => true
  | _ => false
  end.




End MessageSpec.

(* ================================================================= *)
(** ** commands.py: the validators *)

Module Validators.
Import Quote.

Section Validation.
Variable str_to_float : string -> option Q.
Variable upstream : nat -> list string -> response.

(** [bool(quotes)] *)
Definition truthy (quotes : list CryptoQuote) : bool :=
  match quotes with
  | [] => false
  | _ => true
  end.

(** [_validate_api_key]: a quoter made for the check asks for BTC without
    the cache; [except Exception: return False]. *)
Definition _validate_api_key (now : Q) : bool :=
  match fst (fetch_no_cache str_to_float upstream ["BTC"] (init 300 1000 now)) with
  | Ok test_data => truthy test_data
  | Raised _ => false
  end.

(** [_validate_ticker]: the same check for a ticker, with no [except]: an
    exception of the upstream call leaves it. *)
Definition _validate_ticker (ticker : string) (now : Q) : result bool :=
  crypto_data <-
    fst (fetch_no_cache str_to_float upstream [ticker] (init 300 1000 now)) ;;
  Ok (truthy crypto_data).
End Validation.

End Validators.

(* ================================================================= *)
(** ** permissions.py and commands.py: who may change the voice tickers *)

Module Commands.
Import Quote Discord ConfigData.

(** What the commands read off a [discord.Interaction]: the guild it came
    from, whether its user is an administrator there
    ([interaction.user.guild_permissions.administrator]), and the ids of the
    user's roles ([interaction.user.roles]). *)
Record Interaction : Type := {
  guild_id : Z;
  administrator : bool;
  roles : list Z
}.

(** permissions.py *)
Definition is_server_admin (interaction : Interaction) : bool :=
  administrator interaction.

(** permissions.py; [discord.utils.get(interaction.user.roles, id=...)] is
    not [None] exactly when one of the user's roles has the id. *)
Definition has_bot_management_permission (interaction : Interaction)
    (config : Configuration) : bool :=
  if is_server_admin interaction then true
  else
    match guilds_get (guild_id interaction) (guilds config) with
    | Some guild_config =>
        match management_role_id guild_config with
        | Some role_id =>
            if negb (Z.eqb role_id 0)
            then existsb (Z.eqb role_id) (roles interaction)
            else false
        | None => false
        end
    | None => false
    end.

Definition _check_permissions_and_api (interaction : Interaction)
    (config : Configuration) : string :=
  if negb (has_bot_management_permission interaction config) then "permissions"
  else
    match guilds_get (guild_id interaction) (guilds config) with
    | Some guild => if Config.truthy_str (cmc_api_key guild) then "ok" else "api_key"
    | None => "api_key"
    end.

(** [l.remove(x)]: without the first occurrence of [x]. *)
Fixpoint list_remove (x : string) (l : list string) : list string :=
  match l with
  | [] => []
  | y :: l' => if String.eqb y x then l' else y :: list_remove x l'
  end.

(** [guild.voice_tickers = ...] on the guild object that the configuration
    holds. *)
Definition set_voice_tickers (tickers : list string) (guild : GuildConfiguration)
    : GuildConfiguration :=
  {| id := id guild; update_category := update_category guild;
     voice_tickers := tickers; ratio_tickers := ratio_tickers guild;
     message_tickers := message_tickers guild;
     management_role_id := management_role_id guild;
     cmc_api_key := cmc_api_key guild |}.

(** How a command ends: the message it answers with, the configuration and
    the update category's container afterwards.  ([save_config] writes the
    configuration to its file; the file is not part of the model.) *)
Record handled : Type := {
  reply : string;
  config_after : Configuration;
  category_after : category
}.

Section Handlers.
Variable styles : VoiceChannelUpdater.Styles.
Variable format_fixed : nat -> Q -> string.
Variable str_to_float : string -> option Q.
Variable upstream : nat -> list string -> response.
(** Python's [str.upper]. *)
Variable upper : string -> string.

(** The [/add_voice_ticker] command.  An exception of [_validate_ticker]
    leaves the handler; the updater's add path starts when the validation
    has ended. *)
Definition add_voice_ticker (interaction : Interaction) (ticker : string)
    (now : Q) (config : Configuration) (c : category) : result handled :=
  let check := _check_permissions_and_api interaction config in
  if String.eqb check "permissions" then
    Ok {| reply := "Bot management permissions required.";
          config_after := config; category_after := c |}
  else if String.eqb check "api_key" then
    Ok {| reply := "Set API key first with /set_cmc_api_key";
          config_after := config; category_after := c |}
  else
    let ticker := upper ticker in
    match guilds_get (guild_id interaction) (guilds config) with
    | None => Raised AttributeError
    | Some guild =>
        if negb (Config.truthy_id (update_category guild)) then
          Ok {| reply := "Set update category first with /set_voice_update_category";
                config_after := config; category_after := c |}
        else
          found <- Validators._validate_ticker str_to_float upstream ticker now ;;
          if negb found then
            Ok {| reply := "Ticker " ++ ticker ++ " not found.";
                  config_after := config; category_after := c |}
          else if negb (existsb (String.eqb ticker) (voice_tickers guild)) then
            let guild := set_voice_tickers (voice_tickers guild ++ [ticker]) guild in
            let config :=
              {| guilds := guilds_set (guild_id interaction) guild (guilds config) |} in
            let validated :=
              clock (snd (fetch_no_cache str_to_float upstream [ticker]
                            (init 300 1000 now))) in
            let c :=
              VoiceChannelUpdater.add_voice_ticker styles format_fixed
                str_to_float upstream
                (option_map voice_view
                   (guilds_get (guild_id interaction) (guilds config)))
                ticker validated c in
            Ok {| reply := "Added " ++ ticker ++ " to voice updates.";
                  config_after := config; category_after := c |}
          else
            Ok {| reply := ticker ++ " already tracked.";
                  config_after := config; category_after := c |}
    end.

(** The [/remove_voice_ticker] command. *)
Definition remove_voice_ticker (interaction : Interaction) (ticker : string)
    (config : Configuration) (c : category) : handled :=
  if negb (has_bot_management_permission interaction config) then
    {| reply := "Bot management permissions required.";
       config_after := config; category_after := c |}
  else
    let ticker := upper ticker in
    match guilds_get (guild_id interaction) (guilds config) with
    | Some guild =>
        if existsb (String.eqb ticker) (voice_tickers guild) then
          let guild := set_voice_tickers (list_remove ticker (voice_tickers guild)) guild in
          let config :=
            {| guilds := guilds_set (guild_id interaction) guild (guilds config) |} in
          let c :=
            VoiceChannelUpdater.remove_voice_ticker
              (option_map voice_view
                 (guilds_get (guild_id interaction) (guilds config)))
              ticker c in
          {| reply := "Removed " ++ ticker ++ " from voice updates.";
             config_after := config; category_after := c |}
        else
          {| reply := ticker ++ " not tracked.";
             config_after := config; category_after := c |}
    | None =>
        {| reply := ticker ++ " not tracked.";
           config_after := config; category_after := c |}
    end.
End Handlers.

End Commands.

(* ================================================================= *)
(** ** Concrete inputs for the configuration and the message tickers *)

Module Desk.
Import Quote ConfigData.

(** A reading of decimal integer literals, for the examples. *)
Definition decimal (s : string) : option Z :=
  option_map Z.of_int (DecimalString.NilZero.int_of_string s).

Definition plain (guild_id : Z) : GuildConfiguration :=
  {| id := guild_id; update_category := None; voice_tickers := [];
     ratio_tickers := []; message_tickers := []; management_role_id := None;
     cmc_api_key := None |}.

(** A guild with a key, two message tickers and three ratio pairs, the
    second of them with no colon in its key. *)
Definition desk : GuildConfiguration :=
  {| id := 7; update_category := Some 42%Z; voice_tickers := ["BTC"; "ETH"];
     ratio_tickers := [("ETH:BTC", 11%Z); ("ETHBTC", 11%Z); ("BTC:ETH", 12%Z)];
     message_tickers := [("BTC", 11%Z); ("DOGE", 11%Z); ("ETH", 13%Z)];
     management_role_id := None; cmc_api_key := Some "key" |}.


(** A second guild, configured after the first, with one message ticker. *)
Definition annex : GuildConfiguration :=
  {| id := 8; update_category := None; voice_tickers := [];
     ratio_tickers := []; message_tickers := [("BTC", 12%Z)];
     management_role_id := Some 5%Z; cmc_api_key := Some "key" |}.

(** ASCII upper case, for the examples. *)
Fixpoint shout (s : string) : string :=
  match s with
  | EmptyString => EmptyString
  | String ch s' =>
      let n := Ascii.nat_of_ascii ch in
      String (if Nat.leb 97 n && Nat.leb n 122
              then Ascii.ascii_of_nat (n - 32) else ch)
             (shout s')
  end.

(** An administrator of the first guild. *)
Definition manager : Commands.Interaction :=
  {| Commands.guild_id := 7; Commands.administrator := true;
     Commands.roles := [] |}.

(** The quotient taken exactly, for the examples. *)
Definition exactly (b a : Q) : MessageTickers.converted :=
  MessageTickers.Ratio (PyText.truncate (b / a)).


(** The collaborator knows the channels 11 and 12. *)
Definition known (channel_id : Z) : bool :=
  Z.eqb channel_id 11 || Z.eqb channel_id 12.

End Desk.

(* ================================================================= *)
(** * Properties *)

(** ** Facts about the built-ins *)

Module PyFacts.
Import Py.

Section SortedFacts.
Variable A : Type.
Variable before : A -> A -> bool.

Lemma insert_perm (x : A) (l : list A) :
  Permutation (insert before x l) (x :: l).
Proof.
  induction l as [|y l IH]; simpl.
  - apply Permutation_refl.
  - destruct (before y x).
    + eapply Permutation_trans.
      * apply perm_skip, IH.
      * apply perm_swap.
    + apply Permutation_refl.
Qed.

Lemma sorted_perm (l : list A) : Permutation (sorted before l) l.
Proof.
  induction l as [|x l IH]; simpl.
  - constructor.
  - eapply Permutation_trans; [apply insert_perm | now apply perm_skip].
Qed.

Lemma sorted_length (l : list A) : List.length (sorted before l) = List.length l.
Proof. apply Permutation_length, sorted_perm. Qed.

Lemma sorted_in (l : list A) (x : A) : In x (sorted before l) <-> In x l.
Proof.
  split; apply Permutation_in;
    [apply sorted_perm | apply Permutation_sym, sorted_perm].
Qed.

Lemma sorted_nil_inv (l : list A) : sorted before l = [] -> l = [].
Proof.
  intro H. apply (f_equal (@List.length A)) in H.
  rewrite sorted_length in H. now destruct l.
Qed.
End SortedFacts.

Lemma str_le_refl (a : string) : str_le a a.
Proof. destruct (String.leb_total a a); assumption. Qed.

Lemma ltb_le (a b : string) : String.ltb a b = true -> str_le a b.
Proof.
  unfold String.ltb, str_le, String.leb.
  destruct (String.compare a b); congruence.
Qed.

Lemma not_ltb_le (a b : string) : String.ltb a b = false -> str_le b a.
Proof.
  unfold String.ltb, str_le, String.leb.
  rewrite (String.compare_antisym b a).
  destruct (String.compare a b); simpl; congruence.
Qed.

Lemma str_le_cases (a b : string) :
  str_le a b <-> a = b \/ String_as_OT.lt a b.
Proof.
  unfold str_le, String.leb. split.
  - destruct (String.compare a b) eqn:E; intro H; try discriminate.
    + left. now apply String.compare_eq_iff.
    + right. now apply String_as_OT.cmp_lt.
  - intros [->|H].
    + destruct (String.compare b b) eqn:E; auto.
      assert (E' := String.compare_antisym b b). rewrite E in E'. discriminate.
    + apply String_as_OT.cmp_lt in H. unfold String_as_OT.cmp in H. now rewrite H.
Qed.

Lemma str_le_trans (a b c : string) : str_le a b -> str_le b c -> str_le a c.
Proof.
  rewrite !str_le_cases. intros [->|H1] [->|H2]; auto.
  right. eapply String_as_OT.lt_trans; eauto.
Qed.

Lemma str_le_antisym (a b : string) : str_le a b -> str_le b a -> a = b.
Proof. apply String.leb_antisym. Qed.

Lemma insert_str_sorted (x : string) (l : list string) :
  StronglySorted str_le l -> StronglySorted str_le (insert String.ltb x l).
Proof.
  induction l as [|y l IH]; simpl; intro S.
  - repeat constructor.
  - apply StronglySorted_inv in S. destruct S as [S Hy].
    destruct (String.ltb y x) eqn:E.
    + constructor; [now apply IH|].
      rewrite Forall_forall. intros z Hz.
      apply (Permutation_in _ (insert_perm String.ltb x l)) in Hz.
      destruct Hz as [<-|Hz]; [now apply ltb_le|].
      rewrite Forall_forall in Hy. now apply Hy.
    + apply not_ltb_le in E. constructor.
      * now constructor.
      * constructor; [assumption|].
        rewrite Forall_forall in *. intros z Hz.
        eapply str_le_trans; eauto.
  Qed.

Lemma sorted_str_sorted (l : list string) :
  StronglySorted str_le (sorted String.ltb l).
Proof.
  induction l; simpl; [constructor | now apply insert_str_sorted].
Qed.

(** Two ordered lists with the same elements are the same list. *)
Lemma strongly_sorted_unique (l1 l2 : list string) :
  StronglySorted str_le l1 -> StronglySorted str_le l2 ->
  Permutation l1 l2 -> l1 = l2.
Proof.
  revert l2. induction l1 as [|a l1 IH]; intros l2 S1 S2 P.
  - apply Permutation_nil in P. now subst.
  - destruct l2 as [|b l2].
    + apply Permutation_sym, Permutation_nil in P. discriminate.
    + apply StronglySorted_inv in S1. destruct S1 as [S1 Ha].
      apply StronglySorted_inv in S2. destruct S2 as [S2 Hb].
      rewrite Forall_forall in Ha, Hb.
      assert (a = b) as ->.
      { assert (In a (b :: l2)) as Ia
          by (eapply Permutation_in; [exact P | now left]).
        assert (In b (a :: l1)) as Ib
          by (eapply Permutation_in; [apply Permutation_sym; exact P | now left]).
        destruct Ia as [->|Ia]; [reflexivity|].
        destruct Ib as [->|Ib]; [reflexivity|].
        apply str_le_antisym; auto. }
      f_equal. apply IH; auto. now apply Permutation_cons_inv in P.
Qed.

Lemma sorted_str_permutation (l1 l2 : list string) :
  Permutation l1 l2 -> sorted String.ltb l1 = sorted String.ltb l2.
Proof.
  intro P. apply strongly_sorted_unique; try apply sorted_str_sorted.
  eapply Permutation_trans; [apply sorted_perm|].
  eapply Permutation_trans; [exact P|].
  apply Permutation_sym, sorted_perm.
Qed.

End PyFacts.

(** ** Facts about lists *)

Module ListFacts.

Lemma NoDup_app_disjoint {A} (l1 l2 : list A) :
  NoDup (l1 ++ l2) -> forall a, In a l1 -> In a l2 -> False.
Proof.
  induction l1 as [|x l1 IH]; simpl; intros ND a I1 I2; [destruct I1|].
  inversion ND as [|? ? N ND']; subst. destruct I1 as [->|I1].
  - apply N. rewrite in_app_iff. now right.
  - now apply (IH ND' a).
Qed.

(** Filtering keeps the images of the kept elements distinct. *)
Lemma filter_keeps_images_distinct {A B} (keep : A -> bool) (image : A -> B)
    (l : list A) :
  NoDup (map image l) -> NoDup (map image (filter keep l)).
Proof.
  induction l as [|a l IH]; simpl; intro ND; [constructor|].
  inversion ND as [|? ? N ND']; subst.
  destruct (keep a); simpl; [|now apply IH].
  constructor; [|now apply IH].
  intro I. apply N. apply in_map_iff in I. destruct I as (x & E & I).
  apply filter_In in I. rewrite <- E. apply in_map. tauto.
Qed.


Lemma filter_pointwise {A} (p q : A -> bool) (l : list A) :
  (forall a, In a l -> p a = q a) -> filter p l = filter q l.
Proof.
  induction l as [|a l IH]; simpl; intro H; [reflexivity|].
  rewrite (H a) by now left. rewrite IH by (intros; apply H; now right).
  reflexivity.
Qed.

Lemma filter_all {A} (p : A -> bool) (l : list A) :
  (forall a, In a l -> p a = true) -> filter p l = l.
Proof.
  induction l as [|a l IH]; simpl; intro H; [reflexivity|].
  rewrite (H a) by now left. f_equal. apply IH. intros; apply H; now right.
Qed.

Lemma filter_none {A} (p : A -> bool) (l : list A) :
  (forall a, In a l -> p a = false) -> filter p l = [].
Proof.
  induction l as [|a l IH]; simpl; intro H; [reflexivity|].
  rewrite (H a) by now left. apply IH. intros; apply H; now right.
Qed.

Lemma filter_twice {A} (p q : A -> bool) (l : list A) :
  filter p (filter q l) = filter (fun a => q a && p a) l.
Proof.
  induction l as [|a l IH]; simpl; [reflexivity|].
  destruct (q a); simpl; [destruct (p a)|]; now rewrite IH.
Qed.

End ListFacts.

(** ** Reading the symbols back off a key *)

Module KeyFacts.
Import Py KeySpec.

Lemma symbol_then_rest (x x' r r' : string) :
  no_comma x = true -> no_comma x' = true ->
  rest_of_key r -> rest_of_key r' ->
  (x ++ r = x' ++ r')%string -> x = x' /\ r = r'.
Proof.
  revert x'. induction x as [|c x IH]; intros x' Nx Nx' R R' E.
  - destruct x' as [|c' x']; [auto|].
    simpl in E. subst r. simpl in R. subst c'. simpl in Nx'. discriminate.
  - destruct x' as [|c' x'].
    + simpl in E. subst r'. simpl in R'. subst c. simpl in Nx. discriminate.
    + simpl in E. injection E as -> E.
      simpl in Nx, Nx'. apply andb_true_iff in Nx, Nx'.
      destruct (IH x' (proj2 Nx) (proj2 Nx') R R' E) as [-> ->]. auto.
Qed.

Lemma join_cons (x : string) (l : list string) :
  exists r, join "," (x :: l) = (x ++ r)%string /\ rest_of_key r /\
            match l with
            | [] => r = EmptyString
            | _ => r = ("," ++ join "," l)%string
            end.
Proof.
  unfold join. destruct l as [|y l].
  - exists EmptyString. simpl. split; [|auto].
    clear. induction x; simpl; congruence.
  - exists ("," ++ String.concat "," (y :: l))%string. repeat split.
Qed.

(** Non-empty lists of symbols without a comma are read back off their
    comma-joined form. *)
Lemma join_injective (l1 l2 : list string) :
  l1 <> [] -> l2 <> [] ->
  forallb no_comma l1 = true -> forallb no_comma l2 = true ->
  join "," l1 = join "," l2 -> l1 = l2.
Proof.
  revert l2. induction l1 as [|x l1 IH]; intros l2 N1 N2 C1 C2 E;
    [congruence|].
  destruct l2 as [|x' l2]; [congruence|].
  simpl in C1, C2. apply andb_true_iff in C1, C2.
  destruct C1 as [Cx C1], C2 as [Cx' C2].
  destruct (join_cons x l1) as (r & E1 & R1 & S1).
  destruct (join_cons x' l2) as (r' & E2 & R2 & S2).
  rewrite E1, E2 in E.
  destruct (symbol_then_rest x x' r r' Cx Cx' R1 R2 E) as [-> ->].
  f_equal.
  destruct l1 as [|y1 l1], l2 as [|y2 l2]; try reflexivity.
  - subst r'. discriminate.
  - subst r'. discriminate.
  - rewrite S1 in S2. simpl in S2. injection S2 as S2.
    apply IH; try discriminate; assumption.
Qed.

Lemma forallb_permutation {A} (p : A -> bool) (l1 l2 : list A) :
  Permutation l1 l2 -> forallb p l1 = true -> forallb p l2 = true.
Proof.
  intros P H. rewrite forallb_forall in *. intros x I. apply H.
  eapply Permutation_in; [apply Permutation_sym; exact P | exact I].
Qed.

End KeyFacts.

(* ================================================================= *)
(** ** quote.py *)

Module QuoteFacts.
Import Quote Shapes Examples.

(** *** The cache key *)

(** C8, as the code has it.  The cache key is the comma-joined form of the
    symbols in sorted order, each symbol as it was given (no letter is
    changed).  Two inputs that are reorderings of one another get the same
    key; and two non-empty inputs of symbols without a comma get the same
    key only if they are reorderings of one another, so that inputs that
    differ in letter case get different keys. *)
Theorem cache_key_of_reordering (symbols1 symbols2 : list string) :
  (exists ordered,
     Permutation ordered symbols1 /\
     StronglySorted Py.str_le ordered /\
     _generate_cache_key symbols1 = Py.join "," ordered) /\
  (Permutation symbols1 symbols2 ->
   _generate_cache_key symbols1 = _generate_cache_key symbols2) /\
  (symbols1 <> [] -> symbols2 <> [] ->
   forallb KeySpec.no_comma symbols1 = true ->
   forallb KeySpec.no_comma symbols2 = true ->
   _generate_cache_key symbols1 = _generate_cache_key symbols2 ->
   Permutation symbols1 symbols2).
Proof.
  unfold _generate_cache_key. split; [|split].
  - exists (Py.sorted String.ltb symbols1).
    split; [apply PyFacts.sorted_perm|].
    split; [apply PyFacts.sorted_str_sorted | reflexivity].
  - intro P. now rewrite (PyFacts.sorted_str_permutation P).
  - intros N1 N2 C1 C2 E.
    pose proof (PyFacts.sorted_perm String.ltb symbols1) as P1.
    pose proof (PyFacts.sorted_perm String.ltb symbols2) as P2.
    assert (Py.sorted String.ltb symbols1 = Py.sorted String.ltb symbols2) as S.
    { apply KeyFacts.join_injective.
      - intro X. apply N1. now apply PyFacts.sorted_nil_inv in X.
      - intro X. apply N2. now apply PyFacts.sorted_nil_inv in X.
      - eapply KeyFacts.forallb_permutation;
          [apply Permutation_sym; exact P1 | exact C1].
      - eapply KeyFacts.forallb_permutation;
          [apply Permutation_sym; exact P2 | exact C2].
      - exact E. }
    eapply Permutation_trans; [apply Permutation_sym; exact P1|].
    rewrite S. exact P2.
Qed.

Lemma cache_key_of_reordering_witness :
  Permutation ["ETH"; "BTC"] ["BTC"; "ETH"] /\
  _generate_cache_key ["ETH"; "BTC"] = _generate_cache_key ["BTC"; "ETH"] /\
  _generate_cache_key ["ETH"; "BTC"] = "BTC,ETH".
Proof.
  split; [apply perm_swap|]. split; [|reflexivity].
  apply (proj1 (proj2 (cache_key_of_reordering ["ETH"; "BTC"] ["BTC"; "ETH"]))).
  apply perm_swap.
Defined.

(** C8, as the specification states it, fails: inputs that differ only in
    letter case get different keys. *)
Lemma cache_key_is_case_sensitive :
  _generate_cache_key ["btc"; "eth"] = "btc,eth" /\
  _generate_cache_key ["ETH"; "BTC"] = "BTC,ETH" /\
  _generate_cache_key ["btc"; "eth"] <> _generate_cache_key ["ETH"; "BTC"].
Proof. repeat split; vm_compute; congruence. Qed.

(** *** fetch_no_cache *)

(** C10: with an empty symbol list [fetch_no_cache] returns the empty
    sequence and leaves everything as it was: the rate limiter's
    [last_request_time], the clock and the record of sleeps and requests. *)
Theorem fetch_no_cache_of_nothing (str_to_float : string -> option Q)
    (upstream : nat -> list string -> response) (st : PriceQuoteCache) :
  let (quotes, st') := fetch_no_cache str_to_float upstream [] st in
  quotes = Ok [] /\ st' = st /\
  last_request_time st' = last_request_time st /\
  trace st' = trace st /\
  requests_sent (trace st') = requests_sent (trace st).
Proof. simpl. repeat split. Qed.


(** *** Response parsing *)


Lemma mapM_is_ok {A B} (f : A -> result B) (l : list A) :
  is_ok (mapM f l) = forallb (fun a => is_ok (f a)) l.
Proof.
  induction l as [|a l IH]; simpl; [reflexivity|].
  destruct (f a); simpl; [|reflexivity].
  rewrite <- IH. now destruct (mapM f l).
Qed.


Lemma parse_entry_is_ok f (j : json) :
  is_ok (parse_entry f j) = entry_accepted f j.
Proof.
  unfold parse_entry, entry_accepted.
  destruct j; simpl; try reflexivity.
  destruct (get "quote" (JObj []) o); simpl; try reflexivity.
  destruct (get "USD" (JObj []) o0); simpl; try reflexivity.
  repeat match goal with
  | |- context [float f ?x] => destruct (float f x); simpl; try reflexivity
  end.
Qed.


Lemma forallb_on_map {A B} (g : A -> B) (p : B -> bool) (l : list A) :
  forallb p (map g l) = forallb (fun a => p (g a)) l.
Proof. induction l; simpl; congruence. Qed.

Lemma forallb_pointwise {A} (p q : A -> bool) (l : list A) :
  (forall a, p a = q a) -> forallb p l = forallb q l.
Proof. intro H. induction l; simpl; [reflexivity | now rewrite H, IHl]. Qed.

Lemma parse_is_ok f (data : json) :
  is_ok (_parse_api_response f data) = body_accepted f data.
Proof.
  unfold _parse_api_response, body_accepted.
  destruct data; simpl; try reflexivity.
  destruct (get "data" (JObj []) o) as [| | | | |entries]; simpl; try reflexivity.
  rewrite <- (forallb_on_map snd (entry_accepted f)).
  rewrite <- (forallb_pointwise _ _ (map snd entries) (parse_entry_is_ok f)).
  rewrite <- mapM_is_ok.
  destruct (mapM (parse_entry f) (map snd entries)) as [|[]]; reflexivity.
Qed.




(** *** Stale fallback *)

Lemma rate_limit_keeps_cache (st : PriceQuoteCache) :
  cache (_rate_limit st) = cache st.
Proof.
  unfold _rate_limit.
  destruct (Py.Qltb _ _); reflexivity.
Qed.

Lemma fetch_from_api_keeps_cache f up symbols (st : PriceQuoteCache) :
  cache (snd (_fetch_from_api f up symbols st)) = cache st.
Proof.
  unfold _fetch_from_api.
  destruct (up _ symbols); simpl; apply rate_limit_keeps_cache.
Qed.

(** What the fallback serves: when the upstream fetch fails, [fetch] answers
    from the cache as it is after the sweep it performs first: the quotes of
    the entry left under the canonical key, or the empty sequence when none
    is left; the cache stays as swept.  [fetch] returns a list in every
    case. *)
Lemma stale_fallback_after_sweep (f : string -> option Q)
    (up : nat -> list string -> response) (symbols : list string)
    (current_time : Q) (st : PriceQuoteCache) (e : exn) :
  symbols <> [] ->
  fst (_fetch_from_api f up symbols (_cleanup_cache st)) = Raised e ->
  fst (fetch f up symbols current_time st) =
    match Py.dict_get (_generate_cache_key symbols) (cache (_cleanup_cache st)) with
    | Some entry => data entry
    | None => []
    end /\
  cache (snd (fetch f up symbols current_time st)) = cache (_cleanup_cache st).
Proof.
  intros Hne Hfail.
  destruct symbols as [|s symbols]; [congruence|].
  unfold fetch.
  set (st1 := _cleanup_cache st) in *.
  set (key := _generate_cache_key (s :: symbols)).
  pose proof (fetch_from_api_keeps_cache f up (s :: symbols) st1) as Hc.
  destruct (_fetch_from_api f up (s :: symbols) st1) as [r st2].
  cbn [fst snd] in Hfail, Hc. subst r.
  destruct (Py.dict_get key (cache st1)) as [entry|] eqn:Hget.
  - destruct (_is_cache_valid st1 entry current_time); cbn [fst snd]; [now split|].
    rewrite Hc, Hget. now split.
  - cbn [fst snd]. rewrite Hc, Hget. now split.
Qed.

(** An entry that the wall clock finds alive and the [current_time] argument
    finds expired is served when the upstream cannot be reached. *)
Lemma stale_entry_by_argument_is_served :
  ["BTC"] <> [] /\
  fst (_fetch_from_api no_float flaky ["BTC"] (_cleanup_cache recent_cache))
    = Raised NetworkError /\
  fst (fetch no_float flaky ["BTC"] 2000 recent_cache) = [quote_of "BTC" 5 1].
Proof.
  split; [discriminate|]. split; [reflexivity|].
  rewrite (proj1 (@stale_fallback_after_sweep no_float flaky ["BTC"] 2000
                    recent_cache NetworkError ltac:(discriminate) eq_refl)).
  reflexivity.
Qed.

(** C3 at its failing input: an entry that is in the cache when [fetch] is
    called, but older than the time to live by the wall clock, is removed by
    the sweep before the upstream is asked; with the upstream failing,
    [fetch] returns the empty sequence and not that entry's quotes. *)
Lemma expired_entry_is_not_served :
  Py.dict_get (_generate_cache_key ["BTC"]) (cache expired_cache)
    = Some {| data := [quote_of "BTC" 5 1]; timestamp := 0 |} /\
  fst (_fetch_from_api no_float flaky ["BTC"] (_cleanup_cache expired_cache))
    = Raised NetworkError /\
  fst (fetch no_float flaky ["BTC"] 1000 expired_cache) = [].
Proof. vm_compute. repeat split. Qed.

(** *** The size bound *)

(** C7 at its failing input: with [max_cache_size = 1], two successful
    fetches for different keys leave two entries in the cache.  The sweep
    runs before the new entry is stored and nothing evicts after the store. *)
Lemma cache_grows_past_its_limit :
  let st1 := snd (fetch no_float echo ["BTC"] 1000 tiny_cache) in
  let st2 := snd (fetch no_float echo ["ETH"] 1000 st1) in
  max_cache_size st2 = 1%Z /\
  map fst (cache st2) = ["BTC"; "ETH"] /\
  (Z.of_nat (List.length (cache st2)) > max_cache_size st2)%Z.
Proof. vm_compute. repeat split. Qed.

End QuoteFacts.

(* ================================================================= *)
(** ** quote.py: the size of the cache *)

Module CacheBoundFacts.
Import Py Quote CacheSpec Examples ListFacts.

(** *** Deleting keys *)

Lemma delete_keys_filter {V} (ks : list string) (d : dict V) :
  fold_left (fun c k => dict_del k c) ks d =
  filter (fun kv => negb (existsb (String.eqb (fst kv)) ks)) d.
Proof.
  revert d. induction ks as [|k ks IH]; intro d; simpl.
  - symmetry. apply filter_all. reflexivity.
  - rewrite IH. unfold dict_del. rewrite filter_twice.
    apply filter_pointwise. intros kv _.
    rewrite (String.eqb_sym k (fst kv)).
    now destruct (String.eqb (fst kv) k).
Qed.

Lemma delete_items_filter {V} (items : list (string * V)) (d : dict V) :
  fold_left (fun c kv => dict_del (fst kv) c) items d =
  filter (fun kv => negb (existsb (String.eqb (fst kv)) (map fst items))) d.
Proof.
  rewrite <- delete_keys_filter. revert d.
  induction items as [|kv items IH]; intro d; simpl; [reflexivity | apply IH].
Qed.

Lemma existsb_key {V} (k : string) (l : list (string * V)) :
  existsb (String.eqb k) (map fst l) = true <-> In k (map fst l).
Proof.
  rewrite existsb_exists. split.
  - intros (x & I & E). apply String.eqb_eq in E. now subst.
  - intro I. exists k. split; [exact I | apply String.eqb_refl].
Qed.

(** With distinct keys, deleting the keys of a part of a dict leaves the
    rest of it. *)
Lemma delete_part_length {V} (d part rest : dict V) :
  NoDup (map fst d) ->
  Permutation d (part ++ rest) ->
  List.length (filter (fun kv => negb (existsb (String.eqb (fst kv)) (map fst part))) d)
  = List.length rest.
Proof.
  intros ND P.
  assert (NoDup (map fst (part ++ rest))) as ND'
    by (eapply Permutation_NoDup; [apply Permutation_map, P | exact ND]).
  set (keep := fun kv : string * V =>
                 negb (existsb (String.eqb (fst kv)) (map fst part))).
  assert (Permutation (filter keep d) (filter keep (part ++ rest))) as PF.
  { clear ND ND'. induction P; simpl.
    - constructor.
    - destruct (keep x); [now constructor | assumption].
    - destruct (keep x), (keep y); try apply perm_swap; apply Permutation_refl.
    - eapply Permutation_trans; eassumption. }
  rewrite (Permutation_length PF), filter_app, length_app.
  rewrite (filter_none keep part),
          (filter_all keep rest); [reflexivity | |].
  - intros kv I. apply negb_true_iff.
    destruct (existsb (String.eqb (fst kv)) (map fst part)) eqn:E; [|reflexivity].
    exfalso. apply existsb_key in E. rewrite map_app in ND'.
    apply (@NoDup_app_disjoint _ _ _ ND' (fst kv)); auto.
    now apply in_map.
  - intros kv I. apply negb_false_iff, existsb_key. now apply in_map.
Qed.

(** *** The sweep *)

Lemma NoDup_keys_filter {V} (p : string * V -> bool) (d : dict V) :
  NoDup (map fst d) -> NoDup (map fst (filter p d)).
Proof. apply filter_keeps_images_distinct. Qed.

Lemma cleanup_keeps_keys_distinct (st : PriceQuoteCache) :
  NoDup (map fst (cache st)) -> NoDup (map fst (cache (_cleanup_cache st))).
Proof.
  intro ND. unfold _cleanup_cache. cbn [cache set_cache].
  rewrite delete_keys_filter.
  destruct (Z.ltb _ _).
  - rewrite delete_items_filter. now do 2 apply NoDup_keys_filter.
  - now apply NoDup_keys_filter.
Qed.

(** After the sweep the cache holds at most [max_cache_size] entries. *)
Lemma cleanup_bound (st : PriceQuoteCache) :
  NoDup (map fst (cache st)) ->
  (0 <= max_cache_size st)%Z ->
  (Z.of_nat (List.length (cache (_cleanup_cache st))) <= max_cache_size st)%Z.
Proof.
  intros ND M. unfold _cleanup_cache. cbn [cache set_cache].
  rewrite delete_keys_filter.
  set (c1 := filter _ (cache st)).
  assert (NoDup (map fst c1)) as ND1 by now apply NoDup_keys_filter.
  destruct (Z.ltb_spec (max_cache_size st) (Z.of_nat (List.length c1))) as [L|L];
    [|exact L].
  rewrite delete_items_filter.
  set (sorted_items := sorted _ c1).
  set (excess := Z.to_nat (Z.of_nat (List.length c1) - max_cache_size st)).
  rewrite (@delete_part_length _ c1 (firstn excess sorted_items)
             (skipn excess sorted_items) ND1).
  - rewrite length_skipn. unfold sorted_items.
    rewrite PyFacts.sorted_length. subst excess. lia.
  - rewrite firstn_skipn. apply Permutation_sym, PyFacts.sorted_perm.
Qed.


(** *** Storing an entry *)

Lemma dict_set_keys {V} (k : string) (v : V) (d : dict V) :
  map fst (dict_set k v d) =
  if existsb (String.eqb k) (map fst d) then map fst d else map fst d ++ [k].
Proof.
  induction d as [|[k' v'] d IH]; simpl; [reflexivity|].
  destruct (String.eqb_spec k k') as [->|N]; simpl; [reflexivity|].
  rewrite IH. now destruct (existsb (String.eqb k) (map fst d)).
Qed.

Lemma dict_set_keeps_keys_distinct {V} (k : string) (v : V) (d : dict V) :
  NoDup (map fst d) -> NoDup (map fst (dict_set k v d)).
Proof.
  intro ND. rewrite dict_set_keys.
  destruct (existsb (String.eqb k) (map fst d)) eqn:E; [exact ND|].
  apply NoDup_app; [exact ND | repeat constructor; intros [] |].
  intros a I [X|[]]. subst a.
  assert (existsb (String.eqb k) (map fst d) = true); [|congruence].
  apply existsb_exists. exists k. split; [exact I | apply String.eqb_refl].
Qed.

Lemma dict_set_length {V} (k : string) (v : V) (d : dict V) :
  List.length (dict_set k v d) <= S (List.length d).
Proof.
  rewrite <- (length_map fst (dict_set k v d)), dict_set_keys.
  destruct (existsb _ _); rewrite ?length_app, length_map; simpl; lia.
Qed.

Lemma rate_limit_keeps_limit (st : PriceQuoteCache) :
  max_cache_size (_rate_limit st) = max_cache_size st.
Proof. unfold _rate_limit. now destruct (Qltb _ _). Qed.

Lemma fetch_from_api_keeps_limit f up symbols (st : PriceQuoteCache) :
  max_cache_size (snd (_fetch_from_api f up symbols st)) = max_cache_size st.
Proof.
  unfold _fetch_from_api.
  destruct (up _ symbols); simpl; apply rate_limit_keeps_limit.
Qed.

Lemma init_between_calls (ttl : Q) (max_size : Z) (now : Q) :
  (0 <= max_size)%Z -> between_calls (init ttl max_size now).
Proof. intro M. repeat split; simpl; [constructor | exact M | lia]. Qed.

(** Every [fetch] keeps the cache within one entry of its limit. *)
Lemma fetch_between_calls f up (symbols : list string) (current_time : Q)
    (st : PriceQuoteCache) :
  between_calls st -> between_calls (snd (fetch f up symbols current_time st)).
Proof.
  intros (ND & M & B).
  destruct symbols as [|s symbols]; [now repeat split|].
  unfold fetch.
  set (st1 := _cleanup_cache st).
  set (key := _generate_cache_key (s :: symbols)).
  assert (between_calls st1 /\
          (Z.of_nat (List.length (cache st1)) <= max_cache_size st1)%Z) as [I1 B1].
  { assert (max_cache_size st1 = max_cache_size st) as X by reflexivity.
    pose proof (@cleanup_bound st ND M) as C. fold st1 in C.
    repeat split; rewrite ?X; auto; try lia.
    now apply cleanup_keeps_keys_distinct. }
  pose proof (QuoteFacts.fetch_from_api_keeps_cache f up (s :: symbols) st1) as Hc.
  pose proof (fetch_from_api_keeps_limit f up (s :: symbols) st1) as Hm.
  destruct (_fetch_from_api f up (s :: symbols) st1) as [r st2].
  cbn [fst snd] in Hc, Hm.
  assert (between_calls st2) as I2.
  { destruct I1 as (A1 & A2 & A3). repeat split; rewrite ?Hc, ?Hm; auto. }
  assert (forall quotes,
            between_calls
              (set_cache (dict_set key {| data := quotes; timestamp := current_time |}
                            (cache st2)) st2)) as IS.
  { intro quotes. destruct I2 as (A1 & A2 & A3).
    repeat split; cbn [cache set_cache max_cache_size].
    - now apply dict_set_keeps_keys_distinct.
    - exact A2.
    - pose proof (dict_set_length key {| data := quotes; timestamp := current_time |}
                    (cache st2)) as L.
      rewrite Hc in *. rewrite Hm in *. lia. }
  destruct (dict_get key (cache st1)) as [entry|].
  - destruct (_is_cache_valid st1 entry current_time); cbn [snd]; [exact I1|].
    destruct r; [apply IS|].
    destruct (dict_get key (cache st2)); exact I2.
  - destruct r; [apply IS|].
    destruct (dict_get key (cache st2)); exact I2.
Qed.


(** *** Oldest first *)

Section ByKey.
Variable A : Type.
Variable key : A -> Q.

Local Abbreviation before := (fun y x : A => Qltb (key y) (key x)).
Local Abbreviation ordered := (fun a b : A => (key a <= key b)%Q).

Lemma insert_by_key_sorted (x : A) (l : list A) :
  StronglySorted ordered l -> StronglySorted ordered (insert before x l).
Proof.
  induction l as [|y l IH]; simpl; intro S.
  - repeat constructor.
  - apply StronglySorted_inv in S. destruct S as [S Hy].
    unfold Qltb. destruct (Qle_bool (key x) (key y)) eqn:E; simpl.
    + apply Qle_bool_iff in E. constructor; [now constructor|].
      constructor; [exact E|].
      rewrite Forall_forall in *. intros z Hz.
      eapply Qle_trans; [exact E | now apply Hy].
    + assert (key y <= key x)%Q as L.
      { destruct (Qlt_le_dec (key y) (key x)) as [H|H]; [now apply Qlt_le_weak|].
        apply Qle_bool_iff in H. congruence. }
      constructor; [now apply IH|].
      rewrite Forall_forall in *. intros z Hz.
      apply (Permutation_in _ (PyFacts.insert_perm before x l)) in Hz.
      destruct Hz as [<-|Hz]; [exact L | now apply Hy].
Qed.

Lemma sorted_by_key_sorted (l : list A) : StronglySorted ordered (sorted before l).
Proof.
  induction l; simpl; [constructor | now apply insert_by_key_sorted].
Qed.

Lemma strongly_sorted_app (l1 l2 : list A) :
  StronglySorted ordered (l1 ++ l2) ->
  forall a b, In a l1 -> In b l2 -> (key a <= key b)%Q.
Proof.
  induction l1 as [|x l1 IH]; simpl; intros S a b Ia Ib; [destruct Ia|].
  apply StronglySorted_inv in S. destruct S as [S Hx].
  destruct Ia as [<-|Ia]; [|now apply IH].
  rewrite Forall_forall in Hx. apply Hx. rewrite in_app_iff. now right.
Qed.
End ByKey.

Lemma distinct_keys_same_entry {V} (d : dict V) (k : string) (v v' : V) :
  NoDup (map fst d) -> In (k, v) d -> In (k, v') d -> v = v'.
Proof.
  induction d as [|[k0 v0] d IH]; simpl; intros ND I I'; [destruct I|].
  inversion ND as [|? ? N ND']; subst.
  destruct I as [E|I], I' as [E'|I'].
  - congruence.
  - injection E as -> ->. exfalso. apply N. apply in_map_iff. exists (k, v'). auto.
  - injection E' as -> ->. exfalso. apply N. apply in_map_iff. exists (k, v). auto.
  - now apply IH.
Qed.

(** When the sweep removes an entry that has not expired, it is no younger
    than any entry it keeps. *)
Lemma sweep_removes_oldest (st : PriceQuoteCache) (kv kv' : string * CacheEntry) :
  NoDup (map fst (cache st)) ->
  In kv (cache st) ->
  _is_cache_valid st (snd kv) (clock st) = true ->
  ~ In kv (cache (_cleanup_cache st)) ->
  In kv' (cache (_cleanup_cache st)) ->
  (timestamp (snd kv) <= timestamp (snd kv'))%Q.
Proof.
  intros ND I Val Gone Kept. unfold _cleanup_cache in Gone, Kept.
  cbn [cache set_cache] in Gone, Kept.
  rewrite delete_keys_filter in Gone, Kept.
  set (c1 := filter _ (cache st)) in *.
  assert (NoDup (map fst c1)) as ND1 by now apply NoDup_keys_filter.
  assert (In kv c1) as I1.
  { apply filter_In. split; [exact I|]. apply negb_true_iff.
    destruct (existsb _ _) eqn:E; [|reflexivity]. exfalso.
    apply existsb_key in E. apply in_map_iff in E.
    destruct E as ([k0 e0] & E & I0). apply filter_In in I0.
    destruct I0 as [I0 X]. simpl in E, X. subst k0.
    destruct kv as [k e]. simpl in *.
    rewrite (distinct_keys_same_entry _ _ _ _ ND I0 I) in X.
    rewrite Val in X. discriminate. }
  destruct (Z.ltb _ _); [|contradiction].
  rewrite delete_items_filter in Gone, Kept.
  set (sorted_items := sorted _ c1) in *.
  set (excess := Z.to_nat _) in *.
  pose proof (PyFacts.sorted_perm
                (fun x y : string * CacheEntry =>
                   Qltb (timestamp (snd x)) (timestamp (snd y))) c1) as P.
  fold sorted_items in P.
  assert (NoDup (map fst sorted_items)) as NDS
    by (eapply Permutation_NoDup; [apply Permutation_map, Permutation_sym, P | exact ND1]).
  assert (In kv (firstn excess sorted_items)) as F.
  { destruct (existsb (String.eqb (fst kv)) (map fst (firstn excess sorted_items)))
      eqn:E.
    - apply existsb_key in E. apply in_map_iff in E.
      destruct E as ([k0 e0] & E & I0). simpl in E. subst k0.
      destruct kv as [k e]. simpl in *.
      assert (In (k, e) sorted_items) as Is
        by (eapply Permutation_in; [apply Permutation_sym, P | exact I1]).
      assert (In (k, e0) sorted_items) as Is0
        by (rewrite <- (firstn_skipn excess sorted_items), in_app_iff; now left).
      now rewrite (distinct_keys_same_entry _ _ _ _ NDS Is Is0).
    - exfalso. apply Gone. apply filter_In. split; [exact I1|]. now rewrite E. }
  assert (In kv' (skipn excess sorted_items)) as S.
  { apply filter_In in Kept. destruct Kept as [K1 K2].
    assert (In kv' sorted_items) as Is
      by (eapply Permutation_in; [apply Permutation_sym, P | exact K1]).
    rewrite <- (firstn_skipn excess sorted_items), in_app_iff in Is.
    destruct Is as [Is|Is]; [|exact Is]. exfalso.
    apply negb_true_iff in K2.
    assert (existsb (String.eqb (fst kv')) (map fst (firstn excess sorted_items))
            = true); [|congruence].
    apply existsb_key. now apply in_map. }
  apply (@strongly_sorted_app _ (fun x : string * CacheEntry => timestamp (snd x))
           (firstn excess sorted_items) (skipn excess sorted_items)); auto.
  rewrite firstn_skipn. apply sorted_by_key_sorted.
Qed.

End CacheBoundFacts.

(* ================================================================= *)
(** ** The scheduler loops *)

Module SchedulerFacts.
Import BaseUpdater Examples.

Lemma wait_connected_ticks (polls : nat) (w : world) :
  ticks (wait_connected polls w) = ticks w.
Proof.
  revert w. induction polls as [|n IH]; intro w; simpl.
  - unfold is_closed. now destruct (closed_polls w).
  - rewrite IH. unfold is_closed. now destruct (closed_polls w).
Qed.

Lemma boundary_timer_ticks (cadence : Q) (w : world) :
  ticks (boundary_timer cadence w) = ticks w.
Proof. unfold boundary_timer. now rewrite wait_connected_ticks. Qed.

Lemma while_true_step (cb : nat -> option pyexn) (cadence : Q) (fuel : nat)
    (w : world) :
  while_true cb cadence (S fuel) w =
    match cb (ticks w) with
    | None => while_true cb cadence fuel
                (snd (run_callback cb (boundary_timer cadence w)))
    | Some e => (Ended e, snd (run_callback cb (boundary_timer cadence w)))
    end.
Proof.
  cbn [while_true]. unfold run_callback. rewrite boundary_timer_ticks.
  now destruct (cb (ticks w)).
Qed.

Lemma run_callback_ticks (cb : nat -> option pyexn) (cadence : Q) (w : world) :
  ticks (snd (run_callback cb (boundary_timer cadence w))) = S (ticks w).
Proof. unfold run_callback. simpl. now rewrite boundary_timer_ticks. Qed.

(** While the callbacks return, every iteration reaches the next boundary. *)
Lemma while_true_keeps_looping (cb : nat -> option pyexn) (cadence : Q)
    (fuel : nat) (w : world) :
  (forall i, i < fuel -> cb (ticks w + i) = None) ->
  fst (while_true cb cadence fuel w) = Looping /\
  ticks (snd (while_true cb cadence fuel w)) = ticks w + fuel.
Proof.
  revert w. induction fuel as [|fuel IH]; intros w H.
  - simpl. split; [reflexivity | lia].
  - rewrite while_true_step.
    assert (H0 := H 0 ltac:(lia)). rewrite Nat.add_0_r in H0. rewrite H0.
    destruct (IH (snd (run_callback cb (boundary_timer cadence w)))) as [I1 I2].
    + intros i Hi. rewrite run_callback_ticks.
      replace (S (ticks w) + i) with (ticks w + S i) by lia. apply H. lia.
    + split; [exact I1|]. rewrite I2, run_callback_ticks. lia.
Qed.

(** The first exception that leaves a callback leaves the loop with it:
    whatever the number of iterations observed afterwards, the loop has
    stopped after that callback. *)
Lemma while_true_ends (cb : nat -> option pyexn) (cadence : Q) (k : nat)
    (e : pyexn) (w : world) :
  (forall i, i < k -> cb (ticks w + i) = None) ->
  cb (ticks w + k) = Some e ->
  forall fuel, k < fuel ->
    while_true cb cadence fuel w = while_true cb cadence (S k) w /\
    fst (while_true cb cadence fuel w) = Ended e /\
    ticks (snd (while_true cb cadence fuel w)) = ticks w + S k.
Proof.
  revert w. induction k as [|k IH]; intros w Hnone Hsome fuel Hfuel.
  - destruct fuel as [|fuel]; [lia|]. rewrite !while_true_step.
    rewrite Nat.add_0_r in Hsome. rewrite Hsome. cbn [fst snd].
    rewrite run_callback_ticks. repeat split. lia.
  - destruct fuel as [|fuel]; [lia|]. rewrite !(while_true_step cb cadence _ w).
    assert (H0 := Hnone 0 ltac:(lia)). rewrite Nat.add_0_r in H0. rewrite H0.
    destruct (IH (snd (run_callback cb (boundary_timer cadence w))))
      with (fuel := fuel) as (I1 & I2 & I3).
    + intros i Hi. rewrite run_callback_ticks.
      replace (S (ticks w) + i) with (ticks w + S i) by lia. apply Hnone. lia.
    + rewrite run_callback_ticks.
      replace (S (ticks w) + k) with (ticks w + S k) by lia. exact Hsome.
    + lia.
    + split; [exact I1|]. split; [exact I2|].
      rewrite I3, run_callback_ticks. lia.
Qed.

(** C4, as the code has it: neither loop catches anything.  While the
    callback returns, the loop goes on to the next boundary; if the callback
    returns on its first [k] runs and raises on the next one, the exception
    leaves [update_loop]: the loop has ended after [k + 1] callbacks, and
    observing it for longer shows no further boundary or callback. *)
Theorem callback_error_ends_update_loop (cb : nat -> option pyexn) (k : nat)
    (e : pyexn) (w : world) :
  (forall i, i < k -> cb (ticks w + i) = None) ->
  cb (ticks w + k) = Some e ->
  forall fuel,
    (fuel <= k ->
     fst (VoiceChannelUpdater.update_loop cb fuel w) = Looping /\
     fst (MessageTickerUpdater.update_loop cb fuel w) = Looping) /\
    (k < fuel ->
     (VoiceChannelUpdater.update_loop cb fuel w
        = VoiceChannelUpdater.update_loop cb (S k) w /\
      fst (VoiceChannelUpdater.update_loop cb fuel w) = Ended e /\
      ticks (snd (VoiceChannelUpdater.update_loop cb fuel w)) = ticks w + S k) /\
     (MessageTickerUpdater.update_loop cb fuel w
        = MessageTickerUpdater.update_loop cb (S k) w /\
      fst (MessageTickerUpdater.update_loop cb fuel w) = Ended e /\
      ticks (snd (MessageTickerUpdater.update_loop cb fuel w)) = ticks w + S k)).
Proof.
  intros Hnone Hsome fuel. split.
  - intro Hfuel.
    split; apply while_true_keeps_looping; intros i Hi; apply Hnone; lia.
  - intro Hfuel. split; apply while_true_ends; assumption.
Qed.

Lemma callback_error_ends_update_loop_witness :
  (forall i, i < 2 -> third_fails (ticks start + i) = None) /\
  third_fails (ticks start + 2) = Some "Forbidden" /\
  2 < 10 /\
  fst (VoiceChannelUpdater.update_loop third_fails 10 start) = Ended "Forbidden" /\
  ticks (snd (MessageTickerUpdater.update_loop third_fails 10 start)) = 3.
Proof.
  assert (H : forall i, i < 2 -> third_fails (ticks start + i) = None).
  { intros i Hi. destruct i as [|[|i]]; [reflexivity | reflexivity | lia]. }
  split; [exact H|]. split; [reflexivity|]. split; [lia|].
  destruct (proj2 (@callback_error_ends_update_loop third_fails 2 "Forbidden"
                     start H eq_refl 10) ltac:(lia))
    as [(_ & V & _) (_ & _ & M)].
  split; [exact V | exact M].
Defined.

(** C4, as the specification states it, fails: a callback that raises ends
    both loops at their first boundary; observed for five iterations, each
    loop has run one callback and is no longer looping. *)
Lemma raising_callback_ends_both_loops :
  fst (VoiceChannelUpdater.update_loop failing 5 start) = Ended "Forbidden" /\
  ticks (snd (VoiceChannelUpdater.update_loop failing 5 start)) = 1 /\
  slept (snd (VoiceChannelUpdater.update_loop failing 5 start)) = [3500%Q] /\
  fst (MessageTickerUpdater.update_loop failing 5 start) = Ended "Forbidden" /\
  ticks (snd (MessageTickerUpdater.update_loop failing 5 start)) = 1 /\
  slept (snd (MessageTickerUpdater.update_loop failing 5 start)) = [1700%Q].
Proof. vm_compute. repeat split. Qed.

End SchedulerFacts.

(* ================================================================= *)
(** ** The reconciler: what the entry points issue *)

Module ReconcilerFacts.
Import Py Quote Discord Config VoiceChannelUpdater ReconcilerSpec Examples.

(** *** Dictionaries *)

Lemma dict_get_in {V} (k : string) (v : V) (d : dict V) :
  dict_get k d = Some v -> In (k, v) d.
Proof.
  induction d as [|[k' v'] d IH]; simpl; [discriminate|].
  destruct (String.eqb_spec k k') as [->|N].
  - intros [= ->]. now left.
  - intro H. right. now apply IH.
Qed.

Lemma dict_set_in {V} (k k' : string) (v v' : V) (d : dict V) :
  In (k', v') (dict_set k v d) -> (k', v') = (k, v) \/ In (k', v') d.
Proof.
  induction d as [|[k0 v0] d IH]; simpl.
  - intros [H|[]]. now left.
  - destruct (String.eqb k k0); simpl.
    + intros [H|H]; auto.
    + intros [H|H]; auto. destruct (IH H); auto.
Qed.

Lemma existing_by_key_from (chs : list channel) (d : dict nat) (k : string) (id : nat) :
  In (k, id) (fold_left (fun d ch => dict_set (extracted_key ch) (ch_id ch) d) chs d) ->
  In (k, id) d \/ exists ch, In ch chs /\ ch_id ch = id /\ extracted_key ch = k.
Proof.
  revert d. induction chs as [|ch chs IH]; simpl; intros d H; [now left|].
  destruct (IH _ H) as [H1|(ch' & I & E1 & E2)].
  - destruct (dict_set_in _ _ _ _ _ H1) as [[= -> ->]|H2]; [|now left].
    right. exists ch. auto.
  - right. exists ch'. auto.
Qed.

Lemma existing_by_key_in (chs : list channel) (k : string) (id : nat) :
  In (k, id) (existing_by_key chs) ->
  exists ch, In ch chs /\ ch_id ch = id /\ extracted_key ch = k.
Proof.
  intro H. destruct (existing_by_key_from _ _ _ _ H) as [[]|H']; exact H'.
Qed.

(** *** Containers *)

Lemma has_id_eq (id : nat) (ch : channel) : has_id id ch = true <-> ch_id ch = id.
Proof. unfold has_id. apply Nat.eqb_eq. Qed.

Lemma has_id_neq (id : nat) (ch : channel) : has_id id ch = false <-> ch_id ch <> id.
Proof. unfold has_id. apply Nat.eqb_neq. Qed.

Lemma remove_channel_absent (id : nat) (chs : list channel) :
  ~ In id (map ch_id chs) -> remove_channel id chs = chs.
Proof.
  induction chs as [|ch chs IH]; simpl; intro N; [reflexivity|].
  destruct (has_id id ch) eqn:E.
  - apply has_id_eq in E. tauto.
  - simpl. f_equal. apply IH. tauto.
Qed.

Lemma find_channel_absent (id : nat) (chs : list channel) :
  ~ In id (map ch_id chs) -> find_channel id chs = None.
Proof.
  induction chs as [|ch chs IH]; simpl; intro N; [reflexivity|].
  destruct (has_id id ch) eqn:E.
  - apply has_id_eq in E. tauto.
  - apply IH. tauto.
Qed.

Lemma position_of_absent (id : nat) (chs : list channel) :
  ~ In id (map ch_id chs) -> position_of id chs = None.
Proof.
  induction chs as [|ch chs IH]; simpl; intro N; [reflexivity|].
  destruct (has_id id ch) eqn:E.
  - apply has_id_eq in E. tauto.
  - rewrite IH by tauto. reflexivity.
Qed.

Lemma well_formed_fresh (chs : list channel) (fresh : nat) :
  well_formed chs fresh -> ~ In fresh (map ch_id chs).
Proof.
  intros [_ F] I. apply in_map_iff in I. destruct I as (ch & E & I).
  rewrite Forall_forall in F. specialize (F ch I). lia.
Qed.

(** In a middle position: everything about the channel at the split point. *)
Lemma find_channel_split (l1 l2 : list channel) (ch : channel) :
  ~ In (ch_id ch) (map ch_id l1) ->
  find_channel (ch_id ch) (l1 ++ ch :: l2) = Some ch.
Proof.
  intro N. induction l1 as [|a l1 IH]; simpl.
  - unfold has_id. now rewrite Nat.eqb_refl.
  - simpl in N. destruct (has_id (ch_id ch) a) eqn:E.
    + apply has_id_eq in E. tauto.
    + apply IH. tauto.
Qed.

Lemma position_of_split (l1 l2 : list channel) (ch : channel) :
  ~ In (ch_id ch) (map ch_id l1) ->
  position_of (ch_id ch) (l1 ++ ch :: l2) = Some (List.length l1).
Proof.
  intro N. induction l1 as [|a l1 IH]; simpl.
  - unfold has_id. now rewrite Nat.eqb_refl.
  - simpl in N. destruct (has_id (ch_id ch) a) eqn:E.
    + apply has_id_eq in E. tauto.
    + rewrite IH by tauto. reflexivity.
Qed.

Lemma remove_channel_split (l1 l2 : list channel) (ch : channel) :
  ~ In (ch_id ch) (map ch_id l1) -> ~ In (ch_id ch) (map ch_id l2) ->
  remove_channel (ch_id ch) (l1 ++ ch :: l2) = l1 ++ l2.
Proof.
  intros N1 N2. unfold remove_channel. rewrite filter_app. simpl.
  unfold has_id at 2. rewrite Nat.eqb_refl. simpl.
  fold (remove_channel (ch_id ch) l1). fold (remove_channel (ch_id ch) l2).
  now rewrite !remove_channel_absent.
Qed.

Lemma insert_at_length (l1 l2 : list channel) (ch : channel) :
  insert_at (List.length l1) ch (l1 ++ l2) = l1 ++ ch :: l2.
Proof.
  unfold insert_at.
  rewrite firstn_app, skipn_app, Nat.sub_diag, firstn_all, skipn_all.
  simpl. now rewrite app_nil_r.
Qed.

Lemma insert_at_beyond (i : nat) (l : list channel) (ch : channel) :
  List.length l <= i -> insert_at i ch l = l ++ [ch].
Proof.
  intro H. unfold insert_at. now rewrite firstn_all2, skipn_all2.
Qed.

Lemma nth_error_position (chs : list channel) (n : nat) (ch : channel) :
  NoDup (map ch_id chs) -> nth_error chs n = Some ch ->
  exists l1 l2, chs = l1 ++ ch :: l2 /\ List.length l1 = n /\
                ~ In (ch_id ch) (map ch_id l1) /\ ~ In (ch_id ch) (map ch_id l2).
Proof.
  intros ND H. apply nth_error_split in H. destruct H as (l1 & l2 & -> & L).
  exists l1, l2. repeat split; auto.
  - rewrite map_app in ND. simpl in ND. apply NoDup_remove_2 in ND.
    rewrite in_app_iff in ND. tauto.
  - rewrite map_app in ND. simpl in ND. apply NoDup_remove_2 in ND.
    rewrite in_app_iff in ND. tauto.
Qed.

(** *** What the passes issue *)

Section Issued.
Variable styles : Styles.
Variable format_fixed : nat -> Q -> string.

Local Abbreviation label := (_create_channel_name styles format_fixed).

Lemma loop_op_cons existing q qs o :
  loop_op styles format_fixed existing qs o -> loop_op styles format_fixed existing (q :: qs) o.
Proof.
  destruct o; simpl; auto; intros (q' & I & E); exists q'; auto.
Qed.

Lemma update_or_create_issued existing i qs processed c o :
  In o (issued (snd (update_or_create styles format_fixed existing i qs processed c))) ->
  In o (issued c) \/ loop_op styles format_fixed existing qs o.
Proof.
  revert i processed c. induction qs as [|q qs IH]; intros i processed c H.
  - now left.
  - cbn [update_or_create] in H.
    destruct (dict_get (symbol q) existing) as [id|] eqn:G.
    + apply IH in H. destruct H as [H|H]; [|right; now apply loop_op_cons].
      assert (forall c0 : category,
                 In o (issued (if position_differs id i c0
                               then edit_position id i c0 else c0)) ->
                 In o (issued c0) \/ o = OpReposition id i) as P.
      { intros c0. destruct (position_differs id i c0); simpl; auto.
        rewrite in_app_iff. simpl. intuition. }
      apply P in H. destruct H as [H| ->].
      * destruct (name_differs id (label q) c); simpl in H; auto.
        rewrite in_app_iff in H. simpl in H. destruct H as [H|[<-|[]]]; auto.
        right. exists q. split; [now left | exact G].
      * right. exists q. split; [now left | exact G].
    + apply IH in H. destruct H as [H|H]; [|right; now apply loop_op_cons].
      simpl in H. rewrite in_app_iff in H. simpl in H.
      destruct H as [H|[<-|[]]]; auto.
      right. exists q. split; [now left | reflexivity].
Qed.

Lemma set_mem_add (k s : string) (processed : set string) :
  set_mem string_dec k (set_add string_dec s processed) = true <->
  k = s \/ set_mem string_dec k processed = true.
Proof.
  split.
  - intro H. apply set_mem_correct1 in H. apply set_add_elim in H.
    destruct H as [H|H]; [now left | right; now apply set_mem_correct2].
  - intros [->|H]; apply set_mem_correct2.
    + now apply set_add_intro2.
    + apply set_add_intro1. now apply set_mem_correct1 in H.
Qed.

Lemma update_or_create_processed existing i qs processed c k :
  set_mem string_dec k
    (fst (update_or_create styles format_fixed existing i qs processed c)) = true <->
  set_mem string_dec k processed = true \/ In k (map symbol qs).
Proof.
  revert i processed c. induction qs as [|q qs IH]; intros i processed c.
  - simpl. tauto.
  - cbn [update_or_create].
    destruct (dict_get (symbol q) existing); rewrite IH, set_mem_add; simpl;
      intuition congruence.
Qed.

Lemma delete_unprocessed_issued existing processed c o :
  In o (issued (delete_unprocessed existing processed c)) ->
  In o (issued c) \/
  exists k id, In (k, id) existing /\ set_mem string_dec k processed = false /\
               o = OpDelete id.
Proof.
  unfold delete_unprocessed. revert c.
  induction existing as [|[k id] existing IH]; intros c H; [now left|].
  simpl in H. apply IH in H. destruct H as [H|(k' & id' & I & M & E)].
  - destruct (set_mem string_dec k processed) eqn:M; [now left|].
    simpl in H. rewrite in_app_iff in H. simpl in H.
    destruct H as [H|[<-|[]]]; [now left|].
    right. exists k, id. split; [now left | auto].
  - right. exists k', id'. split; [now right | auto].
Qed.

Variable str_to_float : string -> option Q.
Variable upstream : nat -> list string -> response.

Lemma update_with_quotes_issued quotes chs fresh o :
  In o (issued (update_with_quotes styles format_fixed quotes (container chs fresh))) ->
  match o with
  | OpCreate name _ => exists q, In q quotes /\ name = label q
  | OpRename id _ | OpReposition id _ =>
      exists ch, In ch chs /\ ch_id ch = id /\ In (extracted_key ch) (map symbol quotes)
  | OpDelete id =>
      exists ch, In ch chs /\ ch_id ch = id /\ ~ In (extracted_key ch) (map symbol quotes)
  end.
Proof.
  unfold update_with_quotes.
  destruct quotes as [|q0 quotes']; [intros []|].
  set (quotes := q0 :: quotes').
  set (existing := existing_by_key (voice_channels (container chs fresh))).
  set (sorted_quotes := sort_by_market_cap quotes).
  destruct (update_or_create styles format_fixed existing 0 sorted_quotes
              (empty_set string) (container chs fresh)) as [processed c1] eqn:L.
  intro H. apply delete_unprocessed_issued in H.
  assert (forall q, In q sorted_quotes -> In q quotes) as S
    by (intros q; apply PyFacts.sorted_in).
  destruct H as [H|(k & id & I & M & ->)].
  - replace c1 with (snd (update_or_create styles format_fixed existing 0
                            sorted_quotes (empty_set string) (container chs fresh)))
      in H by now rewrite L.
    apply update_or_create_issued in H. destruct H as [[]|H].
    destruct o; simpl in H.
    + destruct H as (q & I & E). exists q. auto.
    + destruct H as (q & I & G). apply dict_get_in, existing_by_key_in in G.
      destruct G as (ch & Hch & E1 & E2). exists ch. repeat split; auto.
      rewrite E2. apply in_map. auto.
    + destruct H as (q & I & G). apply dict_get_in, existing_by_key_in in G.
      destruct G as (ch & Hch & E1 & E2). exists ch. repeat split; auto.
      rewrite E2. apply in_map. auto.
    + destruct H.
  - apply existing_by_key_in in I. destruct I as (ch & Hch & E1 & E2).
    exists ch. repeat split; auto. intro N.
    assert (set_mem string_dec k processed = true) as T; [|congruence].
    replace processed with (fst (update_or_create styles format_fixed existing 0
                            sorted_quotes (empty_set string) (container chs fresh)))
      by now rewrite L.
    apply update_or_create_processed. right. rewrite E2 in N.
    apply in_map_iff in N. destruct N as (q & Eq & Iq). apply in_map_iff.
    exists q. split; [exact Eq|]. now apply PyFacts.sorted_in.
Qed.

Lemma add_with_quotes_issued quotes ticker chs fresh o :
  In o (issued (add_with_quotes styles format_fixed quotes ticker (container chs fresh))) ->
  (exists name, o = OpCreate name None) \/ (exists p, o = OpReposition fresh p).
Proof.
  unfold add_with_quotes.
  destruct quotes as [|q0 quotes']; [intros []|].
  destruct (find_ticker ticker 0 (sort_by_market_cap (q0 :: quotes')))
    as [[new_quote target]|]; [|intros []].
  cbn [create_voice_channel container voice_channels next_id issued app].
  set (c1 := {| voice_channels := chs ++ _; next_id := S fresh; issued := _ |}).
  assert (forall p, In o (issued (edit_position fresh p c1)) ->
          (exists name, o = OpCreate name None) \/ (exists p, o = OpReposition fresh p)) as E.
  { intros p [<-|[<-|[]]]; [left | right]; eauto. }
  assert (In o (issued c1) ->
          (exists name, o = OpCreate name None) \/ (exists p, o = OpReposition fresh p)) as E1.
  { intros [<-|[]]. left; eauto. }
  destruct target as [|before]; [apply E|].
  destruct (Nat.ltb _ _); [|exact E1].
  destruct (nth_error _ before); [|exact E1].
  destruct (position_of _ _); [apply E | exact E1].
Qed.

Lemma remove_first_issued ticker chs c o :
  In o (issued (remove_first ticker chs c)) ->
  In o (issued c) \/
  exists ch, In ch chs /\ extracted_key ch = ticker /\ o = OpDelete (ch_id ch).
Proof.
  induction chs as [|ch chs IH]; simpl; [now left|].
  destruct (String.eqb_spec (extracted_key ch) ticker) as [E|N].
  - simpl. rewrite in_app_iff. simpl. intros [H|[<-|[]]]; [now left|].
    right. exists ch. auto.
  - intro H. destruct (IH H) as [H'|(ch' & I & E & ->)]; [now left|].
    right. exists ch'. auto.
Qed.


Lemma add_with_quotes_effect quotes ticker chs fresh :
  well_formed chs fresh ->
  let c' := add_with_quotes styles format_fixed quotes ticker (container chs fresh) in
  match find_ticker ticker 0 (sort_by_market_cap quotes) with
  | Some (q, rank) =>
      issued c' = add_ops (label q) fresh rank (List.length chs) /\
      voice_channels c' = insert_at rank {| ch_id := fresh; ch_name := label q |} chs
  | None => issued c' = [] /\ voice_channels c' = chs
  end.
Proof.
  intros WF. pose proof (well_formed_fresh WF) as NF. destruct WF as [ND _].
  unfold add_with_quotes.
  destruct quotes as [|q0 quotes']; [simpl; auto|].
  destruct (find_ticker ticker 0 (sort_by_market_cap (q0 :: quotes')))
    as [[q rank]|]; [|simpl; auto].
  unfold add_ops.
  cbn [create_voice_channel container voice_channels next_id issued app].
  set (new := {| ch_id := fresh; ch_name := label q |}).
  fold (remove_channel fresh (chs ++ [new])).
  assert (remove_channel fresh (chs ++ [new]) = chs) as R.
  { change fresh with (ch_id new) at 1.
    rewrite remove_channel_split; simpl; auto using app_nil_r. }
  assert (find_channel fresh (chs ++ [new]) = Some new) as F
    by (change fresh with (ch_id new) at 1; now apply find_channel_split).
  rewrite R.
  destruct rank as [|before]; cbn [Nat.eqb orb].
  - unfold edit_position. cbn [voice_channels issued next_id app].
    rewrite F, R. split; reflexivity.
  - destruct (Nat.ltb (S before) (List.length chs)) eqn:LT.
    + apply Nat.ltb_lt in LT.
      destruct (nth_error chs before) as [prev|] eqn:NE.
      * destruct (@nth_error_position _ _ _ ND NE) as (l1 & l2 & -> & L & N1 & N2).
        assert (position_of (ch_id prev) ((l1 ++ prev :: l2) ++ [new])
                = Some (List.length l1)) as P
          by (rewrite <- app_assoc; simpl; now apply position_of_split).
        rewrite P, L, Nat.add_1_r.
        unfold edit_position. cbn [voice_channels issued next_id app].
        rewrite F, R. split; reflexivity.
      * apply nth_error_None in NE. lia.
    + apply Nat.ltb_ge in LT. cbn [voice_channels issued].
      split; [reflexivity|]. symmetry. now apply insert_at_beyond.
Qed.

End Issued.
End ReconcilerFacts.

(* ================================================================= *)
(** ** The reconciler: convergence of the full pass *)

Module ConvergenceFacts.
Import Py Quote Discord Config VoiceChannelUpdater ReconcilerSpec Examples.
Import ListFacts ReconcilerFacts.

Lemma first_token_prefix (s rest : string) :
  no_space s = true -> first_token (s ++ " " ++ rest) = s.
Proof.
  induction s as [|c s IH]; simpl; intro H; [reflexivity|].
  apply andb_true_iff in H. destruct H as [H1 H2].
  apply negb_true_iff in H1. rewrite H1. f_equal. now apply IH.
Qed.

Lemma dict_get_set_same {V} (k : string) (v : V) (d : dict V) :
  dict_get k (dict_set k v d) = Some v.
Proof.
  induction d as [|[k' v'] d IH]; simpl.
  - now rewrite String.eqb_refl.
  - destruct (String.eqb k k') eqn:E; simpl.
    + now rewrite String.eqb_refl.
    + now rewrite E.
Qed.

Lemma dict_get_set_other {V} (k k' : string) (v : V) (d : dict V) :
  k <> k' -> dict_get k (dict_set k' v d) = dict_get k d.
Proof.
  intro N. induction d as [|[k0 v0] d IH]; simpl.
  - apply String.eqb_neq in N. now rewrite N.
  - destruct (String.eqb k' k0) eqn:E; simpl.
    + apply String.eqb_eq in E. subst k0.
      apply String.eqb_neq in N. now rewrite N.
    + destruct (String.eqb k k0); auto.
Qed.

Lemma existing_fold_other (chs : list channel) (d : dict nat) (k : string) :
  ~ In k (map extracted_key chs) ->
  dict_get k (fold_left (fun d ch => dict_set (extracted_key ch) (ch_id ch) d) chs d)
  = dict_get k d.
Proof.
  revert d. induction chs as [|ch chs IH]; simpl; intros d N; [reflexivity|].
  rewrite IH by tauto. apply dict_get_set_other. intro E. apply N. now left.
Qed.

Lemma existing_fold_member (chs : list channel) (d : dict nat) (ch : channel) :
  NoDup (map extracted_key chs) -> In ch chs ->
  dict_get (extracted_key ch)
    (fold_left (fun d ch => dict_set (extracted_key ch) (ch_id ch) d) chs d)
  = Some (ch_id ch).
Proof.
  revert d. induction chs as [|ch0 chs IH]; simpl; intros d ND I; [destruct I|].
  inversion ND as [|? ? N0 ND']; subst.
  destruct I as [->|I].
  - rewrite existing_fold_other by assumption. apply dict_get_set_same.
  - now apply IH.
Qed.

Lemma existing_by_key_member (chs : list channel) (ch : channel) :
  NoDup (map extracted_key chs) -> In ch chs ->
  dict_get (extracted_key ch) (existing_by_key chs) = Some (ch_id ch).
Proof. apply existing_fold_member. Qed.

Lemma existing_by_key_none (chs : list channel) (k : string) :
  ~ In k (map extracted_key chs) -> dict_get k (existing_by_key chs) = None.
Proof. intro N. unfold existing_by_key. now rewrite existing_fold_other. Qed.

(** *** The delete loop *)

Lemma delete_unprocessed_channels existing processed c :
  voice_channels (delete_unprocessed existing processed c) =
  filter (fun ch => negb (deleted_by existing processed ch)) (voice_channels c).
Proof.
  unfold delete_unprocessed. revert c.
  induction existing as [|[k id] existing IH]; intro c; simpl.
  - symmetry. now apply filter_all.
  - rewrite IH. destruct (set_mem string_dec k processed); simpl.
    + reflexivity.
    + unfold remove_channel. rewrite filter_twice. apply filter_pointwise.
      intros ch _. unfold deleted_by, has_id. simpl.
      rewrite (Nat.eqb_sym id (ch_id ch)).
      now destruct (Nat.eqb (ch_id ch) id).
Qed.


(** *** One existing channel brought to its label and place *)

Lemma rename_absent (id : nat) (name : string) (l : list channel) :
  ~ In id (map ch_id l) ->
  map (fun ch => if has_id id ch then {| ch_id := ch_id ch; ch_name := name |} else ch) l
  = l.
Proof.
  induction l as [|a l IH]; simpl; intro N; [reflexivity|].
  destruct (has_id id a) eqn:E.
  - apply has_id_eq in E. tauto.
  - f_equal. apply IH. tauto.
Qed.

Lemma split_ids (l1 l2 : list channel) (ch : channel) :
  NoDup (map ch_id (l1 ++ ch :: l2)) ->
  ~ In (ch_id ch) (map ch_id l1) /\ ~ In (ch_id ch) (map ch_id l2).
Proof.
  rewrite map_app. simpl. intro ND. apply NoDup_remove_2 in ND.
  rewrite in_app_iff in ND. tauto.
Qed.

Lemma settle_existing (c : category) (P R1 R2 : list channel) (ch : channel)
    (name : string) :
  voice_channels c = P ++ R1 ++ ch :: R2 ->
  NoDup (map ch_id (P ++ R1 ++ ch :: R2)) ->
  let id := ch_id ch in
  let i := List.length P in
  let c1 := if name_differs id name c then edit_name id name c else c in
  let c2 := if position_differs id i c1 then edit_position id i c1 else c1 in
  voice_channels c2 = P ++ {| ch_id := id; ch_name := name |} :: R1 ++ R2 /\
  next_id c2 = next_id c.
Proof.
  intros V ND. cbv zeta.
  set (ch' := {| ch_id := ch_id ch; ch_name := name |}).
  set (c1 := if name_differs (ch_id ch) name c then edit_name (ch_id ch) name c else c).
  rewrite app_assoc in V, ND.
  destruct (split_ids _ _ _ ND) as [N1 N2].
  assert (voice_channels c1 = (P ++ R1) ++ ch' :: R2 /\ next_id c1 = next_id c)
    as [V1 X1].
  { subst c1. unfold name_differs, name_of. rewrite V.
    rewrite find_channel_split by assumption. simpl.
    destruct (String.eqb_spec (ch_name ch) name) as [E|E]; simpl.
    - split; [|reflexivity]. rewrite V. subst ch'. rewrite <- E.
      now destruct ch.
    - split; [|reflexivity]. rewrite V, map_app. simpl.
      unfold has_id at 2. rewrite Nat.eqb_refl.
      now rewrite !rename_absent. }
  clearbody c1. unfold position_differs. rewrite V1.
  change (ch_id ch) with (ch_id ch') in N1, N2 |- *.
  rewrite position_of_split by assumption.
  destruct (Nat.eqb_spec (List.length (P ++ R1)) (List.length P)) as [E|E]; simpl.
  - rewrite V1. split; [|exact X1].
    rewrite length_app in E.
    assert (R1 = []) as -> by (destruct R1; simpl in E; [reflexivity | lia]).
    now rewrite app_nil_r.
  - split; [|exact X1]. rewrite V1.
    change (ch_id ch) with (ch_id ch').
    rewrite find_channel_split, remove_channel_split by assumption.
    rewrite <- app_assoc. apply insert_at_length.
Qed.



Lemma keyed_in_cons_other (s : string) (syms : list string) (ch : channel) :
  extracted_key ch <> s -> keyed_in (s :: syms) ch = keyed_in syms ch.
Proof.
  intro N. unfold keyed_in.
  destruct (in_dec string_dec (extracted_key ch) (s :: syms)) as [[E|I]|I],
           (in_dec string_dec (extracted_key ch) syms) as [J|J];
    try reflexivity; try congruence; simpl in *; tauto.
Qed.

Lemma keyed_in_cons_same (syms : list string) (ch : channel) :
  keyed_in (extracted_key ch :: syms) ch = true.
Proof.
  unfold keyed_in.
  destruct (in_dec string_dec (extracted_key ch) (extracted_key ch :: syms)) as [I|I];
    [reflexivity | simpl in I; tauto].
Qed.

Lemma well_formed_moved (P R1 R2 : list channel) (ch ch' : channel) (fresh : nat) :
  ch_id ch' = ch_id ch ->
  well_formed (P ++ R1 ++ ch :: R2) fresh ->
  well_formed ((P ++ [ch']) ++ R1 ++ R2) fresh.
Proof.
  intros E [ND F].
  assert (Permutation (P ++ R1 ++ ch :: R2) (ch :: P ++ R1 ++ R2)) as Q1.
  { rewrite !app_assoc. apply Permutation_sym, Permutation_middle. }
  assert (Permutation ((P ++ [ch']) ++ R1 ++ R2) (ch' :: P ++ R1 ++ R2)) as Q2.
  { rewrite <- app_assoc. simpl. apply Permutation_sym, Permutation_middle. }
  split.
  - eapply Permutation_NoDup; [apply Permutation_sym, Permutation_map, Q2|].
    simpl. rewrite E.
    eapply Permutation_NoDup in ND; [|apply Permutation_map, Q1]. exact ND.
  - eapply Permutation_Forall; [apply Permutation_sym, Q2|].
    eapply Permutation_Forall in F; [|apply Q1].
    inversion F; subst. constructor; [rewrite E|]; assumption.
Qed.

Lemma well_formed_created (P R : list channel) (name : string) (fresh : nat) :
  well_formed (P ++ R) fresh ->
  well_formed ((P ++ [{| ch_id := fresh; ch_name := name |}]) ++ R) (S fresh).
Proof.
  intros WF. pose proof (well_formed_fresh WF) as NF. destruct WF as [ND F].
  set (new := {| ch_id := fresh; ch_name := name |}).
  assert (Permutation ((P ++ [new]) ++ R) (new :: P ++ R)) as Q2.
  { rewrite <- app_assoc. simpl. apply Permutation_sym, Permutation_middle. }
  split.
  - eapply Permutation_NoDup; [apply Permutation_sym, Permutation_map, Q2|].
    simpl. now constructor.
  - eapply Permutation_Forall; [apply Permutation_sym, Q2|].
    constructor; [simpl; lia|].
    eapply Forall_impl; [|exact F]. simpl. intros; lia.
Qed.

Section Convergence.
Variable styles : Styles.
Variable format_fixed : nat -> Q -> string.

Local Abbreviation label := (_create_channel_name styles format_fixed).

Lemma update_or_create_converges (existing : dict nat) (qs : list CryptoQuote) :
  forall (P R : list channel) (processed : set string) (c : category),
  voice_channels c = P ++ R ->
  well_formed (P ++ R) (next_id c) ->
  NoDup (map extracted_key R) ->
  NoDup (map symbol qs) ->
  Forall (agrees existing R) qs ->
  let c' := snd (update_or_create styles format_fixed existing (List.length P) qs
                   processed c) in
  exists P',
    voice_channels c' =
      P ++ P' ++ filter (fun ch => negb (keyed_in (map symbol qs) ch)) R /\
    map ch_name P' = map label qs /\
    well_formed (voice_channels c') (next_id c').
Proof.
  induction qs as [|q qs IH]; intros P R processed c V WF NDk NDs A; cbv zeta.
  - exists []. simpl. rewrite V. split; [|split; auto].
    f_equal. symmetry. now apply filter_all.
  - cbn [update_or_create].
    inversion NDs as [|? ? Nq NDs']; subst.
    inversion A as [|? ? Aq A']; subst. unfold agrees in Aq.
    destruct (dict_get (symbol q) existing) as [id|] eqn:G.
    + destruct Aq as (ch & I & <- & K).
      apply in_split in I. destruct I as (R1 & R2 & ->).
      destruct (@settle_existing c P R1 R2 ch (label q) V (proj1 WF)) as [V2 X2].
      cbv zeta in V2, X2.
      set (c2 := if position_differs _ _ _ then _ else _) in *. clearbody c2.
      set (ch' := {| ch_id := ch_id ch; ch_name := label q |}) in *.
      assert (voice_channels c2 = (P ++ [ch']) ++ R1 ++ R2) as V2'
        by (rewrite V2, <- app_assoc; reflexivity).
      assert (NoDup (map extracted_key (R1 ++ R2))) as NDk'.
      { rewrite map_app in *. simpl in NDk. now apply NoDup_remove_1 in NDk. }
      assert (~ In (extracted_key ch) (map extracted_key (R1 ++ R2))) as NK.
      { rewrite map_app in *. simpl in NDk. now apply NoDup_remove_2 in NDk. }
      destruct (IH (P ++ [ch']) (R1 ++ R2)
                  (set_add string_dec (symbol q) processed) c2)
        as (P' & VF & NF & WFF); auto.
      * rewrite X2. now apply well_formed_moved with (ch := ch).
      * rewrite Forall_forall in *. intros q' Iq'. specialize (A' q' Iq').
        unfold agrees in *.
        assert (symbol q' <> symbol q) as D
          by (intro E; apply Nq; rewrite <- E; now apply in_map).
        destruct (dict_get (symbol q') existing) as [id'|].
        -- destruct A' as (ch0 & I0 & E0 & K0). exists ch0. repeat split; auto.
           rewrite in_app_iff in *. simpl in I0.
           destruct I0 as [I0|[->|I0]]; auto. congruence.
        -- intro I0. apply A'. rewrite map_app in *. simpl.
           rewrite in_app_iff in *. simpl. tauto.
      * replace (List.length (P ++ [ch'])) with (S (List.length P)) in VF, WFF
          by (rewrite length_app; simpl; lia).
        exists (ch' :: P'). split; [|split].
        -- rewrite VF, <- app_assoc. simpl. do 3 f_equal.
           assert (keyed_in (symbol q :: map symbol qs) ch = true) as T
             by (rewrite <- K; apply keyed_in_cons_same).
           rewrite !filter_app. simpl. rewrite T. simpl.
           f_equal; apply filter_pointwise; intros a Ia; f_equal;
             symmetry; apply keyed_in_cons_other; intro E; apply NK;
             rewrite K, <- E; apply in_map; rewrite in_app_iff; auto.
        -- simpl. now rewrite NF.
        -- exact WFF.
    + set (new := {| ch_id := next_id c; ch_name := label q |}).
      assert (voice_channels (snd (create_voice_channel (label q)
                                     (Some (List.length P)) c))
              = (P ++ [new]) ++ R) as V1.
      { simpl. rewrite V, insert_at_length, <- app_assoc. reflexivity. }
      destruct (IH (P ++ [new]) R (set_add string_dec (symbol q) processed)
                  (snd (create_voice_channel (label q) (Some (List.length P)) c)))
        as (P' & VF & NF & WFF); auto.
      * simpl. now apply well_formed_created.
      * replace (List.length (P ++ [new])) with (S (List.length P)) in VF, WFF
          by (rewrite length_app; simpl; lia).
        exists (new :: P'). split; [|split].
        -- rewrite VF, <- app_assoc. simpl. do 3 f_equal.
           apply filter_pointwise. intros a Ia. f_equal. symmetry.
           apply keyed_in_cons_other. intro E. apply Aq. rewrite <- E.
           now apply in_map.
        -- simpl. now rewrite NF.
        -- exact WFF.
Qed.


Lemma label_key (q : CryptoQuote) :
  no_space (symbol q) = true -> first_token (label q) = symbol q.
Proof. intro H. unfold _create_channel_name. now apply first_token_prefix. Qed.

Lemma set_mem_empty (k : string) : set_mem string_dec k (empty_set string) = false.
Proof. reflexivity. Qed.

(** After a full pass the container holds one channel per quote, labelled and
    ordered as the sorted quotes, and nothing else. *)
Lemma update_with_quotes_result (quotes : list CryptoQuote) (chs : list channel)
    (fresh : nat) :
  quotes <> [] ->
  NoDup (map symbol quotes) ->
  well_formed chs fresh ->
  NoDup (map extracted_key chs) ->
  let c1 := update_with_quotes styles format_fixed quotes (container chs fresh) in
  map ch_name (voice_channels c1) = map label (sort_by_market_cap quotes) /\
  well_formed (voice_channels c1) (next_id c1).
Proof.
  intros NE NDs WF NDk. cbv zeta. unfold update_with_quotes.
  destruct quotes as [|q0 quotes']; [congruence|].
  set (quotes := q0 :: quotes') in *.
  set (existing := existing_by_key (voice_channels (container chs fresh))).
  set (sorted_quotes := sort_by_market_cap quotes).
  assert (NoDup (map symbol sorted_quotes)) as NDs'.
  { eapply Permutation_NoDup; [|exact NDs].
    apply Permutation_map, Permutation_sym, PyFacts.sorted_perm. }
  assert (Forall (agrees existing chs) sorted_quotes) as A.
  { rewrite Forall_forall. intros q _. unfold agrees.
    destruct (dict_get (symbol q) existing) as [id|] eqn:G.
    - apply dict_get_in, existing_by_key_in in G.
      destruct G as (ch & I & E1 & E2). exists ch. auto.
    - intro I. apply in_map_iff in I. destruct I as (ch & E & I).
      subst existing. simpl in G. rewrite <- E in G.
      rewrite existing_by_key_member in G by assumption. discriminate. }
  pose proof (@update_or_create_converges existing sorted_quotes [] chs
                (empty_set string) (container chs fresh) eq_refl WF NDk NDs' A)
    as (P' & V & N & WF').
  pose proof (@update_or_create_processed styles format_fixed existing 0
                sorted_quotes (empty_set string) (container chs fresh)) as PR.
  cbv zeta in V, WF'. simpl List.length in V, WF'. simpl app in V.
  destruct (update_or_create styles format_fixed existing 0 sorted_quotes
              (empty_set string) (container chs fresh)) as [processed c1].
  cbn [fst snd] in *.
  set (R' := filter (fun ch => negb (keyed_in (map symbol sorted_quotes) ch)) chs) in *.
  assert (voice_channels (delete_unprocessed existing processed c1) = P') as VD.
  { rewrite delete_unprocessed_channels, V, filter_app.
    rewrite (filter_all _ P'), (filter_none _ R'); [apply app_nil_r | |].
    - intros ch I. apply negb_false_iff, existsb_exists.
      apply filter_In in I. destruct I as [I K].
      exists (extracted_key ch, ch_id ch). split.
      + apply dict_get_in. subst existing. simpl.
        now apply existing_by_key_member.
      + simpl. rewrite Nat.eqb_refl, andb_true_r. apply negb_true_iff.
        destruct (set_mem string_dec (extracted_key ch) processed) eqn:M;
          [|reflexivity].
        apply PR in M. destruct M as [M|M]; [discriminate|].
        unfold keyed_in in K.
        destruct (in_dec string_dec (extracted_key ch) (map symbol sorted_quotes));
          [discriminate | contradiction].
    - intros ch I. apply negb_true_iff.
      destruct (deleted_by existing processed ch) eqn:D; [|reflexivity].
      exfalso. apply existsb_exists in D. destruct D as ([k id] & Ik & T).
      simpl in T. apply andb_true_iff in T. destruct T as [T1 T2].
      apply Nat.eqb_eq in T2. apply negb_true_iff in T1.
      apply existing_by_key_in in Ik. destruct Ik as (ch0 & I0 & E1 & E2).
      assert (In ch0 R') as IR.
      { apply filter_In. split; [exact I0|]. apply negb_true_iff.
        unfold keyed_in.
        destruct (in_dec string_dec (extracted_key ch0) (map symbol sorted_quotes))
          as [J|J]; [|reflexivity].
        assert (set_mem string_dec k processed = true) as T
          by (apply PR; right; now rewrite <- E2).
        congruence. }
      destruct WF' as [ND' _]. rewrite V, map_app in ND'.
      apply (@NoDup_app_disjoint _ _ _ ND' (ch_id ch)).
      + now apply in_map.
      + rewrite <- T2, <- E1. now apply in_map. }
  split.
  - now rewrite VD.
  - rewrite VD. clear VD.
    assert (next_id (delete_unprocessed existing processed c1) = next_id c1) as ->.
    { unfold delete_unprocessed. generalize c1. clear.
      induction existing as [|[k id] ex IH]; intro c; simpl; [reflexivity|].
      rewrite IH. now destruct (set_mem string_dec k processed). }
    destruct WF' as [ND' F']. rewrite V in ND', F'. split.
    + rewrite map_app in ND'. now apply NoDup_app_remove_r in ND'.
    + now apply Forall_app in F'.
Qed.





End Convergence.
End ConvergenceFacts.

(* ================================================================= *)
(** ** The reconciler: the properties of the specification *)

Module ReconcilerProperties.
Import Py Quote Discord Config VoiceChannelUpdater ReconcilerSpec Examples.
Import ListFacts ReconcilerFacts ConvergenceFacts.



Section Statements.
Variable styles : Styles.
Variable format_fixed : nat -> Q -> string.
Variable str_to_float : string -> option Q.
Variable upstream : nat -> list string -> response.

Local Abbreviation label := (_create_channel_name styles format_fixed).
Local Abbreviation full_pass :=
  (update_voice_channels_for_guild styles format_fixed str_to_float upstream).
Local Abbreviation add_path :=
  (add_voice_ticker styles format_fixed str_to_float upstream).
Local Abbreviation quotes_of := (quotes_for str_to_float upstream).

(** C1, as the code has it.  In a full pass a delete is issued only for a
    resource whose extracted key is the symbol of no returned quote, a rename
    or a reposition only for a resource whose key is the symbol of a returned
    quote, and a create only for a returned quote (so nothing is created for
    a tracked symbol the upstream left out).  The add path addresses only the
    resource it creates, and the remove path issues only a delete of a
    resource whose key is the removed ticker. *)
Theorem reconciliation_frame (guild_config : option GuildConfiguration)
    (ticker : string) (now : Q) (chs : list channel) (fresh : nat) (o : op) :
  (In o (issued (full_pass guild_config now (container chs fresh))) ->
   match o with
   | OpCreate name _ =>
       exists q, In q (quotes_of guild_config now) /\ name = label q
   | OpRename id _ | OpReposition id _ =>
       exists ch, In ch chs /\ ch_id ch = id /\
                  In (extracted_key ch) (map symbol (quotes_of guild_config now))
   | OpDelete id =>
       exists ch, In ch chs /\ ch_id ch = id /\
                  ~ In (extracted_key ch) (map symbol (quotes_of guild_config now))
   end) /\
  (In o (issued (add_path guild_config ticker now (container chs fresh))) ->
   (exists name, o = OpCreate name None) \/ (exists p, o = OpReposition fresh p)) /\
  (In o (issued (remove_voice_ticker guild_config ticker (container chs fresh))) ->
   exists ch, In ch chs /\ extracted_key ch = ticker /\ o = OpDelete (ch_id ch)).
Proof.
  split; [|split].
  - unfold update_voice_channels_for_guild, quotes_for.
    destruct guild_config as [cfg|]; [|intros []].
    destruct (_ && _); [|intros []].
    apply update_with_quotes_issued.
  - unfold add_voice_ticker.
    destruct guild_config as [cfg|]; [|intros []].
    destruct (_ && _); [|intros []].
    apply add_with_quotes_issued.
  - unfold remove_voice_ticker.
    destruct guild_config as [cfg|]; [|intros []].
    destruct (truthy_id _); [|intros []].
    intro H. apply remove_first_issued in H. destruct H as [[]|H]. exact H.
Qed.



(** The full pass keeps the keys of the container distinct. *)
Lemma full_pass_keeps_keys_distinct (guild_config : option GuildConfiguration)
    (now : Q) (chs : list channel) (fresh : nat) :
  NoDup (map symbol (quotes_of guild_config now)) ->
  Forall (fun q => no_space (symbol q) = true) (quotes_of guild_config now) ->
  well_formed chs fresh ->
  NoDup (map extracted_key chs) ->
  NoDup (map extracted_key
           (voice_channels (full_pass guild_config now (container chs fresh)))).
Proof.
  intros NDs S WF NDk.
  unfold update_voice_channels_for_guild, quotes_for in *.
  destruct guild_config as [cfg|]; [|exact NDk].
  destruct (_ && _); [|exact NDk].
  set (quotes := fetch_fresh str_to_float upstream (voice_tickers cfg) now) in *.
  destruct quotes as [|q0 quotes'] eqn:Q; [exact NDk|].
  rewrite <- Q in *.
  assert (quotes <> []) as NE by (rewrite Q; discriminate).
  destruct (@update_with_quotes_result styles format_fixed quotes chs fresh
              NE NDs WF NDk) as [M _].
  unfold extracted_key. rewrite <- (map_map ch_name first_token), M, map_map.
  assert (map (fun q => first_token (label q)) (sort_by_market_cap quotes)
          = map symbol (sort_by_market_cap quotes)) as ->.
  { apply map_ext_in. intros q I. apply label_key.
    rewrite Forall_forall in S. apply S. now apply PyFacts.sorted_in in I. }
  eapply Permutation_NoDup; [|exact NDs].
  apply Permutation_map, Permutation_sym, PyFacts.sorted_perm.
Qed.

End Statements.

(** The remove path keeps the keys of the container distinct. *)
Lemma remove_path_keeps_keys_distinct (guild_config : option GuildConfiguration)
    (ticker : string) (chs : list channel) (fresh : nat) :
  NoDup (map extracted_key chs) ->
  NoDup (map extracted_key
           (voice_channels (remove_voice_ticker guild_config ticker
                              (container chs fresh)))).
Proof.
  intro ND. unfold remove_voice_ticker.
  destruct guild_config as [cfg|]; [|exact ND].
  destruct (truthy_id _); [|exact ND].
  assert (forall l c, voice_channels c = chs ->
            NoDup (map extracted_key (voice_channels (remove_first ticker l c)))) as H.
  { induction l as [|ch l IH]; intros c V; simpl.
    - now rewrite V.
    - destruct (String.eqb (extracted_key ch) ticker); [|now apply IH].
      simpl. rewrite V. now apply filter_keeps_images_distinct. }
  now apply H.
Qed.

Lemma reconciliation_frame_witness :
  In (OpDelete 2)
     (issued (update_voice_channels_for_guild icons fixed no_float echo
                (guild ["BTC"]) 1000
                (container [chan 1 "BTC + $1.00"; chan 2 "General"] 3))) /\
  exists ch, In ch [chan 1 "BTC + $1.00"; chan 2 "General"] /\ ch_id ch = 2 /\
             ~ In (extracted_key ch)
                  (map symbol (quotes_for no_float echo (guild ["BTC"]) 1000)).
Proof.
  assert (In (OpDelete 2)
            (issued (update_voice_channels_for_guild icons fixed no_float echo
                       (guild ["BTC"]) 1000
                       (container [chan 1 "BTC + $1.00"; chan 2 "General"] 3))))
    as I by (vm_compute; auto).
  split; [exact I|].
  exact (proj1 (@reconciliation_frame icons fixed no_float echo (guild ["BTC"])
                  "BTC" 1000 [chan 1 "BTC + $1.00"; chan 2 "General"] 3
                  (OpDelete 2)) I).
Defined.

(** C1, as the specification states it, fails: a resource whose key is no
    tracked symbol, sharing the container with the tracked BTC, is deleted by
    a full pass. *)
Lemma foreign_resource_is_deleted :
  let chs := [chan 1 "BTC + $1.00"; chan 2 "General"] in
  let c := update_voice_channels_for_guild icons fixed no_float echo
             (guild ["BTC"]) 1000 (container chs 3) in
  ~ In (extracted_key (chan 2 "General")) ["BTC"] /\
  issued c = [OpDelete 2] /\
  voice_channels c = [chan 1 "BTC + $1.00"].
Proof.
  vm_compute. split; [|split; reflexivity].
  intros [H|[]]. discriminate.
Qed.

(** The resource of a tracked symbol the upstream left out of its answer is
    deleted by a full pass as well. *)
Lemma unquoted_symbol_is_deleted :
  let chs := [chan 1 "BTC + $1.00"; chan 2 "ETH + $1.00"] in
  let c := update_voice_channels_for_guild icons fixed no_float
             (answers (body [entry "BTC" 5 1]))
             (guild ["BTC"; "ETH"]) 1000 (container chs 3) in
  map symbol (quotes_for no_float (answers (body [entry "BTC" 5 1]))
                (guild ["BTC"; "ETH"]) 1000) = ["BTC"] /\
  issued c = [OpDelete 2].
Proof. vm_compute. split; reflexivity. Qed.





(** C5 at its failing input: the add path does not look for a resource that
    already carries the ticker's key; added to a container that holds one,
    it leaves two resources with the key BTC. *)
Lemma add_path_duplicates_key :
  let chs := [chan 1 "BTC + $1.00"] in
  let c := add_voice_ticker icons fixed no_float echo (guild ["BTC"]) "BTC" 1000
             (container chs 2) in
  NoDup (map extracted_key chs) /\
  map extracted_key (voice_channels c) = ["BTC"; "BTC"] /\
  ~ NoDup (map extracted_key (voice_channels c)).
Proof.
  vm_compute. split; [|split].
  - repeat constructor. intros [].
  - reflexivity.
  - intro H. inversion H as [|? ? N _]. apply N. now left.
Qed.

End ReconcilerProperties.

(* ================================================================= *)
(** ** quote.py: the rate limiter, one upstream call, hits, misses and the
       sweep *)

From Stdlib Require Import Lqa.

Module CacheFacts.
Import Py Quote Shapes CacheSpec Examples CacheRuns ListFacts QuoteFacts CacheBoundFacts.

Lemma Qltb_lt (x y : Q) : Qltb x y = true <-> (x < y)%Q.
Proof.
  unfold Qltb. rewrite negb_true_iff. split.
  - intro H. apply Qnot_le_lt. intro L. apply Qle_bool_iff in L. congruence.
  - intro H. destruct (Qle_bool y x) eqn:E; [|reflexivity].
    apply Qle_bool_iff in E. lra.
Qed.

Lemma Qltb_ge (x y : Q) : Qltb x y = false <-> (y <= x)%Q.
Proof.
  unfold Qltb. rewrite negb_false_iff. apply Qle_bool_iff.
Qed.

Lemma rate_limit_spacing (st : PriceQuoteCache) :
  (last_request_time st + min_request_interval st
     <= last_request_time (_rate_limit st))%Q /\
  (clock st <= clock (_rate_limit st))%Q /\
  last_request_time (_rate_limit st) = clock (_rate_limit st).
Proof.
  unfold _rate_limit.
  destruct (Qltb (clock st - last_request_time st) (min_request_interval st)) eqn:E.
  - apply Qltb_lt in E. cbn [last_request_time clock set_last_request_time sleep].
    pose proof (Qred_correct (clock st + (min_request_interval st
                                          - (clock st - last_request_time st)))) as R.
    repeat split; lra.
  - apply Qltb_ge in E. cbn [last_request_time clock set_last_request_time].
    repeat split; lra.
Qed.

Lemma rate_limit_no_wait (st : PriceQuoteCache) :
  (last_request_time st + min_request_interval st <= clock st)%Q ->
  trace (_rate_limit st) = trace st /\ clock (_rate_limit st) = clock st.
Proof.
  intro H. unfold _rate_limit.
  destruct (Qltb (clock st - last_request_time st) (min_request_interval st)) eqn:E.
  - apply Qltb_lt in E. lra.
  - split; reflexivity.
Qed.

Lemma rate_limit_waits (st : PriceQuoteCache) :
  (clock st < last_request_time st + min_request_interval st)%Q ->
  trace (_rate_limit st)
    = trace st ++ [EvSleep (min_request_interval st
                            - (clock st - last_request_time st))].
Proof.
  intro H. unfold _rate_limit.
  destruct (Qltb (clock st - last_request_time st) (min_request_interval st)) eqn:E.
  - reflexivity.
  - apply Qltb_ge in E. lra.
Qed.

(** X1.  The rate limiter spaces the requests: when [_rate_limit] returns, the
    time recorded for the request is at least [min_request_interval] after
    the time recorded for the previous one, the wall clock has not gone back,
    and the recorded time is the wall clock's reading.  It sleeps only when
    the interval has not yet passed, and then for exactly the remainder. *)
Theorem rate_limiter_spaces_requests (st : PriceQuoteCache) :
  (last_request_time st + min_request_interval st
     <= last_request_time (_rate_limit st))%Q /\
  (clock st <= clock (_rate_limit st))%Q /\
  last_request_time (_rate_limit st) = clock (_rate_limit st) /\
  ((last_request_time st + min_request_interval st <= clock st)%Q ->
   trace (_rate_limit st) = trace st /\ clock (_rate_limit st) = clock st) /\
  ((clock st < last_request_time st + min_request_interval st)%Q ->
   trace (_rate_limit st)
     = trace st ++ [EvSleep (min_request_interval st
                             - (clock st - last_request_time st))]).
Proof.
  pose proof (rate_limit_spacing st) as (A & B & C).
  repeat split; try assumption.
  - now apply rate_limit_no_wait.
  - now apply rate_limit_no_wait.
  - apply rate_limit_waits.
Qed.

(** *** One upstream call *)

Lemma requests_sent_sleep (tr : list event) (d : Q) :
  requests_sent (tr ++ [EvSleep d]) = requests_sent tr.
Proof.
  unfold requests_sent. rewrite filter_app, length_app. simpl. lia.
Qed.

Lemma requests_sent_get (tr : list event) (symbols : list string) :
  requests_sent (tr ++ [EvGet symbols]) = S (requests_sent tr).
Proof.
  unfold requests_sent. rewrite filter_app, length_app. simpl. lia.
Qed.

Lemma rate_limit_requests (st : PriceQuoteCache) :
  requests_sent (trace (_rate_limit st)) = requests_sent (trace st).
Proof.
  unfold _rate_limit. destruct (Qltb _ _); simpl; [apply requests_sent_sleep|reflexivity].
Qed.

Lemma fetch_from_api_requests f up (symbols : list string) (st : PriceQuoteCache) :
  requests_sent (trace (snd (_fetch_from_api f up symbols st)))
    = S (requests_sent (trace st)).
Proof.
  unfold _fetch_from_api. pose proof (rate_limit_requests st) as RR.
  destruct (up _ symbols); cbn [fst snd trace log_get sleep];
    rewrite ?requests_sent_sleep, requests_sent_get; now rewrite RR.
Qed.

Lemma fetch_from_api_spacing f up (symbols : list string) (st : PriceQuoteCache) :
  (last_request_time st + min_request_interval st
     <= last_request_time (snd (_fetch_from_api f up symbols st)))%Q.
Proof.
  unfold _fetch_from_api. pose proof (rate_limit_spacing st) as (RS & _ & _).
  destruct (up _ symbols); cbn [fst snd last_request_time log_get sleep]; exact RS.
Qed.

Lemma fetch_from_api_is_ok f up (symbols : list string) (st : PriceQuoteCache) :
  is_ok (fst (_fetch_from_api f up symbols st)) = true <->
  exists body, up (requests_sent (trace st)) symbols = Status200 body /\
               body_accepted f body = true.
Proof.
  unfold _fetch_from_api. rewrite rate_limit_requests.
  destruct (up _ symbols) as [body| | |] eqn:U; cbn [fst snd].
  - rewrite parse_is_ok. split.
    + intro H. exists body. auto.
    + intros (b & [= <-] & H). exact H.
  - split; [discriminate | intros (b & X & _); discriminate].
  - split; [discriminate | intros (b & X & _); discriminate].
  - split; [discriminate | intros (b & X & _); discriminate].
Qed.

Lemma fetch_from_api_rate_limited f up (symbols : list string) (st : PriceQuoteCache) :
  up (requests_sent (trace st)) symbols = Status429 ->
  fst (_fetch_from_api f up symbols st) = Raised RateLimitExceeded /\
  exists tr, trace (snd (_fetch_from_api f up symbols st))
               = tr ++ [EvGet symbols; EvSleep 60].
Proof.
  intro U. unfold _fetch_from_api. rewrite rate_limit_requests, U.
  cbn [fst snd trace log_get sleep]. split; [reflexivity|].
  exists (trace (_rate_limit st)). now rewrite <- app_assoc.
Qed.

(** X2.  One call of [_fetch_from_api] sends exactly one request, whatever
    the upstream answers, leaves the cache as it is, records a request time
    at least [min_request_interval] after the previous one, and returns
    quotes exactly when the answer has status 200 and a body of the accepted
    shape; on status 429 it sleeps 60 s after the request and raises.
    [fetch_no_cache] of a non-empty list is this call. *)
Theorem upstream_call_effect (f : string -> option Q)
    (up : nat -> list string -> response) (symbols : list string)
    (st : PriceQuoteCache) :
  let r := fst (_fetch_from_api f up symbols st) in
  let st' := snd (_fetch_from_api f up symbols st) in
  requests_sent (trace st') = S (requests_sent (trace st)) /\
  cache st' = cache st /\
  (last_request_time st + min_request_interval st <= last_request_time st')%Q /\
  (is_ok r = true <->
   exists body, up (requests_sent (trace st)) symbols = Status200 body /\
                body_accepted f body = true) /\
  (up (requests_sent (trace st)) symbols = Status429 ->
   r = Raised RateLimitExceeded /\
   exists tr, trace st' = tr ++ [EvGet symbols; EvSleep 60]) /\
  (symbols <> [] -> fetch_no_cache f up symbols st = _fetch_from_api f up symbols st).
Proof.
  cbv zeta. split; [|split; [|split; [|split; [|split]]]].
  - apply fetch_from_api_requests.
  - apply fetch_from_api_keeps_cache.
  - apply fetch_from_api_spacing.
  - apply fetch_from_api_is_ok.
  - apply fetch_from_api_rate_limited.
  - intro NE. destruct symbols; [congruence | reflexivity].
Qed.

(** *** The sweep *)

Lemma dict_get_filter {V} (p : string * V -> bool) (k : string) (v : V) (d : dict V) :
  dict_get k d = Some v -> p (k, v) = true -> dict_get k (filter p d) = Some v.
Proof.
  induction d as [|[k' v'] d IH]; simpl; [discriminate|].
  destruct (String.eqb_spec k k') as [->|N].
  - intros [= ->] P. rewrite P. simpl. now rewrite String.eqb_refl.
  - intros G P. destruct (p (k', v')); simpl; [|now apply IH].
    apply String.eqb_neq in N. rewrite N. now apply IH.
Qed.

(** With distinct keys, deleting the expired keys keeps the entries that are
    alive. *)
Lemma expiry_is_filter (st : PriceQuoteCache) :
  NoDup (map fst (cache st)) ->
  filter (fun kv => negb (existsb (String.eqb (fst kv))
                            (map fst (filter (fun kv0 => negb (alive st kv0))
                                             (cache st)))))
         (cache st)
  = filter (alive st) (cache st).
Proof.
  intro ND. apply filter_pointwise. intros [k e] I. cbn [fst].
  destruct (alive st (k, e)) eqn:A.
  - apply negb_true_iff. destruct (existsb _ _) eqn:X; [|reflexivity]. exfalso.
    apply existsb_key in X. apply in_map_iff in X.
    destruct X as ([k0 e0] & E & I0). simpl in E. subst k0.
    apply filter_In in I0. destruct I0 as [I0 X].
    rewrite (distinct_keys_same_entry _ _ _ _ ND I0 I) in X.
    rewrite A in X. discriminate.
  - apply negb_false_iff. apply existsb_key. apply in_map_iff.
    exists (k, e). split; [reflexivity|]. apply filter_In. split; [exact I|].
    now rewrite A.
Qed.

Lemma filter_shorter {A} (p : A -> bool) (l : list A) :
  List.length (filter p l) <= List.length l.
Proof.
  induction l as [|a l IH]; simpl; [lia|]. destruct (p a); simpl; lia.
Qed.

Lemma cleanup_within_limit (st : PriceQuoteCache) :
  NoDup (map fst (cache st)) ->
  (Z.of_nat (List.length (filter (alive st) (cache st))) <= max_cache_size st)%Z ->
  cache (_cleanup_cache st) = filter (alive st) (cache st).
Proof.
  intros ND B. unfold _cleanup_cache. cbn [cache set_cache].
  rewrite delete_keys_filter.
  change (fun kv : string * CacheEntry =>
            negb (_is_cache_valid st (snd kv) (clock st)))
    with (fun kv0 => negb (alive st kv0)).
  rewrite (@expiry_is_filter st ND).
  destruct (Z.ltb_spec (max_cache_size st)
              (Z.of_nat (List.length (filter (alive st) (cache st))))) as [X|X];
    [lia | reflexivity].
Qed.

(** The sweep, as a filter of the cache. *)
Lemma cleanup_is_filter (st : PriceQuoteCache) :
  exists p, cache (_cleanup_cache st) = filter p (cache st) /\
            forall kv, In kv (cache st) -> p kv = true -> alive st kv = true.
Proof.
  unfold _cleanup_cache. cbn [cache set_cache]. rewrite delete_keys_filter.
  set (p1 := fun kv : string * CacheEntry => negb (existsb _ _)).
  assert (forall kv, In kv (cache st) -> p1 kv = true -> alive st kv = true) as H1.
  { intros kv I P. subst p1. cbv beta in P. apply negb_true_iff in P.
    destruct (alive st kv) eqn:V; [reflexivity|].
    exfalso. assert (existsb (String.eqb (fst kv))
                       (map fst (filter (fun kv0 => negb (_is_cache_valid st (snd kv0) (clock st)))
                                        (cache st))) = true) as X; [|congruence].
    apply existsb_key. apply in_map. apply filter_In. split; [exact I|].
    unfold alive in V. now rewrite V. }
  destruct (Z.ltb _ _).
  - rewrite delete_items_filter, filter_twice.
    eexists. split; [reflexivity|]. intros kv I P.
    apply andb_true_iff in P. now apply H1.
  - exists p1. split; [reflexivity | exact H1].
Qed.

(** X3.  What [_cleanup_cache] leaves behind, for a cache with distinct keys
    and a limit that is not negative: at most [max_cache_size] entries, with
    distinct keys, each of them an entry of the cache before that has not
    expired by the wall clock; it sends nothing and does not sleep. *)
Theorem sweep_postcondition (st : PriceQuoteCache) :
  NoDup (map fst (cache st)) ->
  (0 <= max_cache_size st)%Z ->
  (Z.of_nat (List.length (cache (_cleanup_cache st))) <= max_cache_size st)%Z /\
  NoDup (map fst (cache (_cleanup_cache st))) /\
  (forall kv, In kv (cache (_cleanup_cache st)) ->
              In kv (cache st) /\
              _is_cache_valid st (snd kv) (clock st) = true) /\
  trace (_cleanup_cache st) = trace st /\
  clock (_cleanup_cache st) = clock st.
Proof.
  intros ND M. split; [now apply cleanup_bound|].
  split; [now apply cleanup_keeps_keys_distinct|].
  split; [|split; reflexivity].
  destruct (cleanup_is_filter st) as (p & -> & H). intros kv I.
  apply filter_In in I. destruct I as [I P]. split; [exact I | now apply H].
Qed.

Lemma sweep_postcondition_witness :
  (Z.of_nat (List.length (cache (_cleanup_cache crowded_cache))) <= 1)%Z /\
  NoDup (map fst (cache (_cleanup_cache crowded_cache))) /\
  (forall kv, In kv (cache (_cleanup_cache crowded_cache)) ->
              In kv (cache crowded_cache) /\
              _is_cache_valid crowded_cache (snd kv) (clock crowded_cache) = true) /\
  trace (_cleanup_cache crowded_cache) = trace crowded_cache /\
  clock (_cleanup_cache crowded_cache) = clock crowded_cache.
Proof.
  apply (@sweep_postcondition crowded_cache).
  - simpl. repeat constructor; simpl; intuition discriminate.
  - simpl. lia.
Defined.

(** X4.  When the entries that have not expired fit the limit, the sweep is
    the expiry alone: it keeps exactly the entries that are alive by the wall
    clock, in their order. *)
Theorem sweep_within_limit_is_expiry (st : PriceQuoteCache) :
  NoDup (map fst (cache st)) ->
  (Z.of_nat (List.length
      (filter (fun kv => _is_cache_valid st (snd kv) (clock st)) (cache st)))
   <= max_cache_size st)%Z ->
  cache (_cleanup_cache st)
    = filter (fun kv => _is_cache_valid st (snd kv) (clock st)) (cache st).
Proof. apply cleanup_within_limit. Qed.

Lemma sweep_within_limit_is_expiry_witness :
  cache (_cleanup_cache expired_cache)
    = filter (fun kv => _is_cache_valid expired_cache (snd kv) (clock expired_cache))
             (cache expired_cache) /\
  cache expired_cache <> [] /\
  cache (_cleanup_cache expired_cache) = [].
Proof.
  split; [|split; [discriminate | reflexivity]].
  apply (@sweep_within_limit_is_expiry expired_cache).
  - simpl. repeat constructor; simpl; intuition discriminate.
  - vm_compute. discriminate.
Defined.

(** *** Hits and misses *)

Lemma cleanup_keeps_live_entry (st : PriceQuoteCache) (k : string) (e : CacheEntry) :
  NoDup (map fst (cache st)) ->
  dict_get k (cache st) = Some e ->
  _is_cache_valid st e (clock st) = true ->
  (Z.of_nat (List.length (cache st)) <= max_cache_size st)%Z ->
  dict_get k (cache (_cleanup_cache st)) = Some e.
Proof.
  intros ND G V B. rewrite cleanup_within_limit; [|exact ND|].
  - now apply dict_get_filter.
  - pose proof (filter_shorter (alive st) (cache st)). lia.
Qed.

(** X5.  A hit: when the cache (distinct keys, within its limit) holds under
    the key of the symbols an entry that has expired neither by the wall
    clock nor by the [current_time] argument, [fetch] returns that entry's
    quotes and sends no request, does not sleep and leaves the time of the
    last request as it is. *)
Theorem fetch_serves_live_entry (f : string -> option Q)
    (up : nat -> list string -> response) (symbols : list string)
    (current_time : Q) (st : PriceQuoteCache) (e : CacheEntry) :
  symbols <> [] ->
  NoDup (map fst (cache st)) ->
  dict_get (_generate_cache_key symbols) (cache st) = Some e ->
  _is_cache_valid st e (clock st) = true ->
  _is_cache_valid st e current_time = true ->
  (Z.of_nat (List.length (cache st)) <= max_cache_size st)%Z ->
  let st' := snd (fetch f up symbols current_time st) in
  fst (fetch f up symbols current_time st) = data e /\
  trace st' = trace st /\
  last_request_time st' = last_request_time st /\
  clock st' = clock st.
Proof.
  intros NE ND G V1 V2 B. cbv zeta.
  destruct symbols as [|s symbols]; [congruence|].
  unfold fetch.
  rewrite (cleanup_keeps_live_entry st _ ND G V1 B).
  change (_is_cache_valid (_cleanup_cache st) e current_time)
    with (_is_cache_valid st e current_time).
  rewrite V2. repeat split.
Qed.

Lemma fetch_serves_live_entry_witness :
  fst (fetch no_float flaky ["BTC"] 1100 recent_cache) = [quote_of "BTC" 5 1] /\
  trace (snd (fetch no_float flaky ["BTC"] 1100 recent_cache)) = trace recent_cache /\
  last_request_time (snd (fetch no_float flaky ["BTC"] 1100 recent_cache))
    = last_request_time recent_cache /\
  clock (snd (fetch no_float flaky ["BTC"] 1100 recent_cache)) = clock recent_cache.
Proof.
  apply (@fetch_serves_live_entry no_float flaky ["BTC"] 1100 recent_cache
           {| data := [quote_of "BTC" 5 1]; timestamp := 1000 |}).
  - discriminate.
  - simpl. repeat constructor; simpl; intuition discriminate.
  - reflexivity.
  - reflexivity.
  - reflexivity.
  - vm_compute. discriminate.
Defined.

(** X6.  No fresh entry: when the swept cache holds under the key of the
    symbols no entry, or one that has expired by the [current_time]
    argument, [fetch] sends exactly one request.  If the upstream call
    returns quotes, [fetch] returns them and stores them under the key with
    the [current_time] argument as their timestamp; if it raises, [fetch]
    returns the quotes of the entry left under the key (the empty list when
    there is none) and the cache stays as swept. *)
Theorem fetch_asks_when_no_fresh_entry (f : string -> option Q)
    (up : nat -> list string -> response) (symbols : list string)
    (current_time : Q) (st : PriceQuoteCache) :
  symbols <> [] ->
  (forall e, dict_get (_generate_cache_key symbols) (cache (_cleanup_cache st)) = Some e ->
             _is_cache_valid st e current_time = false) ->
  let st1 := _cleanup_cache st in
  let st' := snd (fetch f up symbols current_time st) in
  requests_sent (trace st') = S (requests_sent (trace st)) /\
  match fst (_fetch_from_api f up symbols st1) with
  | Ok quotes =>
      fst (fetch f up symbols current_time st) = quotes /\
      dict_get (_generate_cache_key symbols) (cache st')
        = Some {| data := quotes; timestamp := current_time |}
  | Raised _ =>
      fst (fetch f up symbols current_time st)
        = match dict_get (_generate_cache_key symbols) (cache st1) with
          | Some stale => data stale
          | None => []
          end /\
      cache st' = cache st1
  end.
Proof.
  intros NE G. cbv zeta.
  destruct symbols as [|s symbols]; [congruence|].
  unfold fetch.
  set (st1 := _cleanup_cache st) in *.
  set (key := _generate_cache_key (s :: symbols)) in *.
  pose proof (fetch_from_api_requests f up (s :: symbols) st1) as T.
  pose proof (fetch_from_api_keeps_cache f up (s :: symbols) st1) as C.
  assert (match dict_get key (cache st1) with
          | Some e0 =>
              if _is_cache_valid st1 e0 current_time then (data e0, st1)
              else
                match _fetch_from_api f up (s :: symbols) st1 with
                | (Ok quotes, st2) =>
                    (quotes,
                     set_cache (dict_set key {| data := quotes; timestamp := current_time |}
                                  (cache st2)) st2)
                | (Raised _, st2) =>
                    match dict_get key (cache st2) with
                    | Some stale => (data stale, st2)
                    | None => ([], st2)
                    end
                end
          | None =>
              match _fetch_from_api f up (s :: symbols) st1 with
              | (Ok quotes, st2) =>
                  (quotes,
                   set_cache (dict_set key {| data := quotes; timestamp := current_time |}
                                (cache st2)) st2)
              | (Raised _, st2) =>
                  match dict_get key (cache st2) with
                  | Some stale => (data stale, st2)
                  | None => ([], st2)
                  end
              end
          end
          = match _fetch_from_api f up (s :: symbols) st1 with
            | (Ok quotes, st2) =>
                (quotes,
                 set_cache (dict_set key {| data := quotes; timestamp := current_time |}
                              (cache st2)) st2)
            | (Raised _, st2) =>
                match dict_get key (cache st2) with
                | Some stale => (data stale, st2)
                | None => ([], st2)
                end
            end) as ->.
  { destruct (dict_get key (cache st1)) as [e0|] eqn:G1; [|reflexivity].
    change (_is_cache_valid st1 e0 current_time)
      with (_is_cache_valid st e0 current_time).
    now rewrite (G e0 eq_refl). }
  destruct (_fetch_from_api f up (s :: symbols) st1) as [r st2].
  cbn [fst snd] in *.
  destruct r as [quotes|ex].
  - cbn [fst snd set_cache trace cache]. split; [exact T|]. split; [reflexivity|].
    apply ConvergenceFacts.dict_get_set_same.
  - rewrite C.
    destruct (dict_get key (cache st1)); cbn [fst snd]; auto.
Qed.

Lemma fetch_asks_when_no_fresh_entry_witness :
  requests_sent (trace (snd (fetch no_float flaky ["BTC"] 2000 recent_cache))) = 2 /\
  fst (fetch no_float flaky ["BTC"] 2000 recent_cache) = [quote_of "BTC" 5 1] /\
  cache (snd (fetch no_float flaky ["BTC"] 2000 recent_cache)) = cache recent_cache.
Proof.
  pose proof (@fetch_asks_when_no_fresh_entry no_float flaky ["BTC"] 2000
                recent_cache ltac:(discriminate)) as H.
  cbv zeta in H.
  assert (forall e, dict_get (_generate_cache_key ["BTC"])
                      (cache (_cleanup_cache recent_cache)) = Some e ->
                    _is_cache_valid recent_cache e 2000 = false) as G.
  { intros e E. vm_compute in E. injection E as <-. reflexivity. }
  specialize (H G). destruct H as [T R].
  split; [exact T|]. exact R.
Defined.

(** Any sequence of calls keeps the cache between calls. *)
Lemma fetch_all_between_calls f up (calls : list call) (st : PriceQuoteCache) :
  between_calls st -> between_calls (fetch_all f up calls st).
Proof.
  revert st. induction calls as [|c calls IH]; intros st B; [exact B|].
  simpl. apply IH. apply fetch_between_calls. exact B.
Qed.

(** X8.  After any sequence of [fetch] calls on a cache created with a limit
    that is not negative, whatever the symbols, the [current_time] arguments,
    the wall clock's readings and the upstream's answers, the keys of the
    cache are distinct and the cache holds at most one entry more than
    [max_cache_size]. *)
Theorem calls_keep_cache_within_one_of_limit (f : string -> option Q)
    (up : nat -> list string -> response) (calls : list call)
    (ttl : Q) (max_size : Z) (now : Q) :
  (0 <= max_size)%Z ->
  let st := fetch_all f up calls (init ttl max_size now) in
  NoDup (map fst (cache st)) /\
  max_cache_size st = max_size /\
  (Z.of_nat (List.length (cache st)) <= max_size + 1)%Z.
Proof.
  intro M. cbv zeta.
  assert (forall st, max_cache_size (fetch_all f up calls st) = max_cache_size st) as K.
  { induction calls as [|c calls IH]; intro st; [reflexivity|].
    simpl. rewrite IH. destruct (asked c) as [|s l]; [reflexivity|].
    unfold fetch.
    set (st1 := _cleanup_cache (at_time (started c) st)).
    assert (max_cache_size st1 = max_cache_size st) as E1 by reflexivity.
    pose proof (fetch_from_api_keeps_limit f up (s :: l) st1) as L.
    destruct (_fetch_from_api f up (s :: l) st1) as [[qs|ex] st2]; cbn [fst snd] in *;
      destruct (dict_get _ (cache st1)) as [e|];
      try destruct (_is_cache_valid st1 e (argument c));
      try destruct (dict_get _ (cache st2));
      cbn [fst snd max_cache_size set_cache]; congruence. }
  pose proof (@fetch_all_between_calls f up calls _
                (@init_between_calls ttl max_size now M)) as (ND & _ & B).
  rewrite K in B. split; [exact ND|]. split; [apply K | exact B].
Qed.

Lemma calls_keep_cache_within_one_of_limit_witness :
  let st := fetch_all no_float echo
              [{| asked := ["BTC"]; argument := 1000; started := 1000 |};
               {| asked := ["ETH"]; argument := 1000; started := 1000 |}]
              (init 300 1 1000) in
  NoDup (map fst (cache st)) /\
  max_cache_size st = 1%Z /\
  (Z.of_nat (List.length (cache st)) <= 1 + 1)%Z.
Proof.
  apply (@calls_keep_cache_within_one_of_limit no_float echo
           [{| asked := ["BTC"]; argument := 1000; started := 1000 |};
            {| asked := ["ETH"]; argument := 1000; started := 1000 |}]
           300 1%Z 1000).
  lia.
Defined.

(** *** One quote per entry *)

Lemma mapM_ok_pairs {A B} (g : A -> result B) (l : list A) (bs : list B) :
  mapM g l = Ok bs -> Forall2 (fun a b => g a = Ok b) l bs.
Proof.
  revert bs. induction l as [|a l IH]; simpl; intros bs H.
  - injection H as <-. constructor.
  - destruct (g a) as [b|] eqn:E; simpl in H; [|discriminate].
    destruct (mapM g l) as [bs'|]; simpl in H; [|discriminate].
    injection H as <-. constructor; [exact E | now apply IH].
Qed.

(** X9.  A successful parse yields one quote per entry of the [data] mapping,
    in the mapping's order, each built from the entry's value alone: the
    mapping's keys are not read, and a quote's symbol is the entry's own
    [symbol] member. *)
Theorem parse_one_quote_per_entry (f : string -> option Q)
    (top entries : list (string * json)) (quotes : list CryptoQuote) :
  dict_get "data" top = Some (JObj entries) ->
  _parse_api_response f (JObj top) = Ok quotes ->
  Forall2 (fun kv q => parse_entry f (snd kv) = Ok q) entries quotes /\
  List.length quotes = List.length entries /\
  map symbol quotes = map (fun kv => symbol (defaulted_entry (snd kv))) entries.
Proof.
  intros D H. unfold _parse_api_response, get in H. simpl in H. rewrite D in H.
  simpl in H.
  destruct (mapM (parse_entry f) (map snd entries)) as [qs|ex] eqn:M.
  - injection H as <-. apply mapM_ok_pairs in M.
    assert (Forall2 (fun kv q => parse_entry f (snd kv) = Ok q) entries qs) as F.
    { clear D. revert qs M. induction entries as [|kv entries IH]; intros qs M;
        inversion M; subst; constructor; auto. }
    split; [exact F|]. split.
    + symmetry. eapply Forall2_length; eauto.
    + clear M D. induction F as [|kv q entries qs E _ IH]; [reflexivity|].
      simpl. rewrite IH. f_equal.
      unfold parse_entry in E. destruct (snd kv); simpl in E; try discriminate.
      unfold bind in E.
      repeat match type of E with
      | context [match ?x with _ => _ end] =>
          destruct x; try discriminate
      end.
      injection E as <-. reflexivity.
  - destruct ex; discriminate.
Qed.

Lemma parse_one_quote_per_entry_witness :
  Forall2 (fun kv q => parse_entry no_float (snd kv) = Ok q)
          [entry "BTC" 5 1; ("second", snd (entry "ETH" 7 2))]
          [quote_of "BTC" 5 1; quote_of "ETH" 7 2] /\
  List.length [quote_of "BTC" 5 1; quote_of "ETH" 7 2] = 2 /\
  map symbol [quote_of "BTC" 5 1; quote_of "ETH" 7 2] = ["BTC"; "ETH"].
Proof.
  apply (@parse_one_quote_per_entry no_float
           [("status", JObj [("error_code", JNum 0)]);
            ("data", JObj [entry "BTC" 5 1; ("second", snd (entry "ETH" 7 2))])]
           [entry "BTC" 5 1; ("second", snd (entry "ETH" 7 2))]
           [quote_of "BTC" 5 1; quote_of "ETH" 7 2]).
  - reflexivity.
  - reflexivity.
Defined.

(** *** A lookup repeated within the time to live *)

Lemma rate_limit_keeps_ttl (st : PriceQuoteCache) :
  cache_ttl (_rate_limit st) = cache_ttl st.
Proof. unfold _rate_limit. now destruct (Qltb _ _). Qed.

Lemma fetch_from_api_keeps_ttl f up (symbols : list string) (st : PriceQuoteCache) :
  cache_ttl (snd (_fetch_from_api f up symbols st)) = cache_ttl st.
Proof.
  unfold _fetch_from_api.
  destruct (up _ symbols); simpl; apply rate_limit_keeps_ttl.
Qed.

Lemma cleanup_shorter (st : PriceQuoteCache) :
  List.length (cache (_cleanup_cache st)) <= List.length (cache st).
Proof.
  destruct (cleanup_is_filter st) as (p & -> & _). apply filter_shorter.
Qed.

(** X7.  A lookup that was answered by the upstream is not repeated within
    the time to live: after a [fetch] that asked the upstream and got
    quotes, on a cache with distinct keys and room for one more entry, a
    second [fetch] for the same symbols in any order returns the same
    quotes and sends no request, as long as neither the wall clock nor the
    second [current_time] argument is a time to live past the first
    [current_time] argument. *)
Theorem repeated_lookup_is_served_from_cache (f : string -> option Q)
    (up : nat -> list string -> response) (symbols again : list string)
    (current_time later wall_clock : Q) (st : PriceQuoteCache)
    (quotes : list CryptoQuote) :
  symbols <> [] ->
  Permutation symbols again ->
  NoDup (map fst (cache st)) ->
  (Z.of_nat (List.length (cache st)) < max_cache_size st)%Z ->
  (forall e, dict_get (_generate_cache_key symbols) (cache (_cleanup_cache st)) = Some e ->
             _is_cache_valid st e current_time = false) ->
  fst (_fetch_from_api f up symbols (_cleanup_cache st)) = Ok quotes ->
  (wall_clock - current_time < cache_ttl st)%Q ->
  (later - current_time < cache_ttl st)%Q ->
  let st1 := snd (fetch f up symbols current_time st) in
  let second := fetch f up again later (at_time wall_clock st1) in
  fst (fetch f up symbols current_time st) = quotes /\
  fst second = quotes /\
  requests_sent (trace (snd second)) = S (requests_sent (trace st)).
Proof.
  intros NE Pm ND Room Stale Asked W L. cbv zeta.
  assert (again <> []) as NE'.
  { intros ->. apply Permutation_sym, Permutation_nil in Pm. contradiction. }
  assert (_generate_cache_key again = _generate_cache_key symbols) as K.
  { unfold _generate_cache_key.
    now rewrite (PyFacts.sorted_str_permutation Pm). }
  set (key := _generate_cache_key symbols) in *.
  set (entry := {| data := quotes; timestamp := current_time |}).
  set (st0 := _cleanup_cache st) in *.
  assert (fetch f up symbols current_time st
          = (quotes,
             set_cache (dict_set key entry
                          (cache (snd (_fetch_from_api f up symbols st0))))
                       (snd (_fetch_from_api f up symbols st0)))) as F.
  { destruct symbols as [|s symbols]; [congruence|].
    unfold fetch. fold st0. fold key.
    destruct (_fetch_from_api f up (s :: symbols) st0) as [r st2].
    cbn [fst snd] in *. subst r.
    destruct (dict_get key (cache st0)) as [e|] eqn:G; [|reflexivity].
    change (_is_cache_valid st0 e current_time)
      with (_is_cache_valid st e current_time).
    now rewrite (Stale e eq_refl). }
  rewrite F. cbn [fst snd].
  set (st2 := snd (_fetch_from_api f up symbols st0)) in *.
  set (st1 := set_cache (dict_set key entry (cache st2)) st2).
  assert (cache st2 = cache st0) as C2
    by apply QuoteFacts.fetch_from_api_keeps_cache.
  assert (cache_ttl st1 = cache_ttl st) as T1
    by (subst st1 st2; cbn [cache_ttl set_cache];
        now rewrite fetch_from_api_keeps_ttl).
  assert (max_cache_size st1 = max_cache_size st) as M1
    by (subst st1 st2; cbn [max_cache_size set_cache];
        now rewrite fetch_from_api_keeps_limit).
  assert (requests_sent (trace st1) = S (requests_sent (trace st))) as R1.
  { subst st1 st2. cbn [trace set_cache]. rewrite fetch_from_api_requests.
    reflexivity. }
  set (now1 := at_time wall_clock st1).
  assert (NoDup (map fst (cache now1))) as ND1.
  { subst now1 st1. cbn [cache at_time set_cache].
    apply dict_set_keeps_keys_distinct. rewrite C2.
    now apply cleanup_keeps_keys_distinct. }
  assert (dict_get key (cache now1) = Some entry) as G1.
  { subst now1 st1. cbn [cache at_time set_cache].
    apply ConvergenceFacts.dict_get_set_same. }
  assert (_is_cache_valid now1 entry (clock now1) = true) as V1.
  { unfold _is_cache_valid. apply Qltb_lt.
    subst now1. cbn [clock cache_ttl at_time timestamp entry]. now rewrite T1. }
  assert (_is_cache_valid now1 entry later = true) as V2.
  { unfold _is_cache_valid. apply Qltb_lt.
    subst now1. cbn [cache_ttl at_time timestamp entry]. now rewrite T1. }
  assert (Z.of_nat (List.length (cache now1)) <= max_cache_size now1)%Z as B1.
  { assert (cache now1 = dict_set key entry (cache st2)) as E by reflexivity.
    assert (max_cache_size now1 = max_cache_size st) as E2 by exact M1.
    rewrite E, E2.
    pose proof (dict_set_length key entry (cache st2)) as L1.
    assert (List.length (cache st2) = List.length (cache st0)) as L2
      by now rewrite C2.
    pose proof (cleanup_shorter st) as L0. fold st0 in L0. lia. }
  split; [reflexivity|].
  destruct again as [|a again]; [congruence|].
  unfold fetch. rewrite K.
  rewrite (cleanup_keeps_live_entry now1 key ND1 G1 V1 B1).
  change (_is_cache_valid (_cleanup_cache now1) entry later)
    with (_is_cache_valid now1 entry later).
  rewrite V2. cbn [fst snd]. split; [reflexivity|]. exact R1.
Qed.

Lemma repeated_lookup_is_served_from_cache_witness :
  let st1 := snd (fetch no_float flaky ["BTC"; "ETH"] 1000 (init 300 1000 1000)) in
  let second := fetch no_float flaky ["ETH"; "BTC"] 1200 (at_time 1100 st1) in
  fst (fetch no_float flaky ["BTC"; "ETH"] 1000 (init 300 1000 1000))
    = [quote_of "BTC" 5 1; quote_of "ETH" 5 1] /\
  fst second = [quote_of "BTC" 5 1; quote_of "ETH" 5 1] /\
  requests_sent (trace (snd second)) = 1.
Proof.
  apply (@repeated_lookup_is_served_from_cache no_float flaky
           ["BTC"; "ETH"] ["ETH"; "BTC"] 1000 1200 1100 (init 300 1000 1000)
           [quote_of "BTC" 5 1; quote_of "ETH" 5 1]).
  - discriminate.
  - apply perm_swap.
  - constructor.
  - simpl. lia.
  - intros e E. discriminate E.
  - reflexivity.
  - reflexivity.
  - reflexivity.
Defined.

End CacheFacts.

(* ================================================================= *)
(** ** updaters.py: the boundary timer *)

Module TimerFacts.
Import BaseUpdater Examples SchedulerFacts.

Lemma Qmod_range (x c : Q) :
  (0 < c)%Q -> (0 <= Qmod x c)%Q /\ (Qmod x c < c)%Q.
Proof.
  intro C. unfold Qmod.
  pose proof (Qfloor_le (x / c)) as L.
  pose proof (Qlt_floor (x / c)) as U.
  rewrite inject_Z_plus in U.
  assert (~ c == 0)%Q as NZ by lra.
  assert (x == c * (x / c))%Q as E by (field; exact NZ).
  assert (c * inject_Z (Qfloor (x / c)) <= c * (x / c))%Q as L'
    by (apply Qmult_le_l; assumption).
  assert (c * (x / c) < c * (inject_Z (Qfloor (x / c)) + inject_Z 1))%Q as U'
    by (apply Qmult_lt_l; assumption).
  change (inject_Z 1) with 1%Q in U'.
  rewrite Qmult_plus_distr_r in U'. split; lra.
Qed.

Lemma wait_connected_effect (polls : nat) (w : world) :
  closed_polls w = polls ->
  (clock (wait_connected polls w) == clock w + 180 * inject_Z (Z.of_nat polls))%Q /\
  slept (wait_connected polls w) = slept w ++ repeat 180%Q polls /\
  closed_polls (wait_connected polls w) = 0.
Proof.
  revert w. induction polls as [|n IH]; intros w P.
  - simpl. unfold is_closed. rewrite P. simpl.
    rewrite app_nil_r. split; [|split]; [|reflexivity|exact P].
    change (inject_Z 0) with 0%Q. lra.
  - cbn [wait_connected]. unfold is_closed. rewrite P. cbn [snd].
    set (w1 := sleep 180 _).
    destruct (IH w1 eq_refl) as (C & S & Z).
    split; [|split]; [| |exact Z].
    + rewrite C. subst w1. cbn [clock sleep].
      pose proof (Qred_correct (clock w + 180)) as R. rewrite R.
      rewrite Nat2Z.inj_succ. unfold Z.succ. rewrite inject_Z_plus.
      change (inject_Z 1) with 1%Q. lra.
    + rewrite S. subst w1. cbn [slept sleep]. now rewrite <- app_assoc.
Qed.

Lemma boundary_timer_effect (cadence : Q) (w : world) :
  (0 < cadence)%Q ->
  (clock (boundary_timer cadence w)
   == cadence * inject_Z (Qfloor (clock w / cadence) + 1)
      + 180 * inject_Z (Z.of_nat (closed_polls w)))%Q /\
  closed_polls (boundary_timer cadence w) = 0 /\
  exists d, (0 < d)%Q /\ (d <= cadence)%Q /\
            slept (boundary_timer cadence w)
              = slept w ++ d :: repeat 180%Q (closed_polls w).
Proof.
  intro C. unfold boundary_timer.
  set (d := Qred (cadence - Qmod (clock w) cadence)).
  set (w1 := sleep d w).
  assert (closed_polls w1 = closed_polls w) as P by reflexivity.
  destruct (@wait_connected_effect (closed_polls w1) w1 eq_refl) as (K & S & Z).
  pose proof (Qmod_range (clock w) C) as [M0 M1].
  assert (d == cadence - Qmod (clock w) cadence)%Q as D by apply Qred_correct.
  split; [|split]; [|exact Z|].
  - rewrite K, P. subst w1. cbn [clock sleep].
    pose proof (Qred_correct (clock w + d)) as R. rewrite R, D.
    unfold Qmod. rewrite inject_Z_plus. change (inject_Z 1) with 1%Q.
    rewrite Qmult_plus_distr_r. lra.
  - exists d. split; [lra|]. split; [lra|].
    rewrite S, P. subst w1. cbn [slept sleep]. now rewrite <- app_assoc.
Qed.

(** X10.  [boundary_timer] with a positive cadence returns at the next
    multiple of the cadence strictly after the time it was called (a call
    made on a boundary waits a whole cadence), later by 180 s for every poll
    that found the client closed: it sleeps once for a time in
    [(0, cadence]], then 180 s per closed poll, and returns with the client
    connected; it starts no callback. *)
Theorem boundary_timer_reaches_next_boundary (cadence : Q) (w : world) :
  (0 < cadence)%Q ->
  let w' := boundary_timer cadence w in
  (clock w' == cadence * inject_Z (Qfloor (clock w / cadence) + 1)
               + 180 * inject_Z (Z.of_nat (closed_polls w)))%Q /\
  (clock w < clock w')%Q /\
  closed_polls w' = 0 /\
  ticks w' = ticks w /\
  exists d, (0 < d)%Q /\ (d <= cadence)%Q /\
            slept w' = slept w ++ d :: repeat 180%Q (closed_polls w).
Proof.
  intro C. cbv zeta.
  destruct (@boundary_timer_effect cadence w C) as (K & Z & S).
  split; [exact K|]. split; [|split; [exact Z|split; [apply boundary_timer_ticks|exact S]]].
  rewrite K. pose proof (Qmod_range (clock w) C) as [_ M1]. unfold Qmod in M1.
  rewrite inject_Z_plus. change (inject_Z 1) with 1%Q.
  rewrite Qmult_plus_distr_r.
  assert (0 <= inject_Z (Z.of_nat (closed_polls w)))%Q as N.
  { change 0%Q with (inject_Z 0). rewrite <- Zle_Qle. lia. }
  lra.
Qed.

Lemma boundary_timer_reaches_next_boundary_witness :
  let w' := boundary_timer 3600 {| clock := 7200; closed_polls := 2;
                                   slept := []; ticks := 0 |} in
  (clock w' == 3600 * inject_Z (2 + 1) + 180 * inject_Z 2)%Q /\
  (7200 < clock w')%Q /\
  closed_polls w' = 0 /\
  ticks w' = 0 /\
  exists d, (0 < d)%Q /\ (d <= 3600)%Q /\ slept w' = [] ++ d :: repeat 180%Q 2.
Proof.
  apply (@boundary_timer_reaches_next_boundary 3600
           {| clock := 7200; closed_polls := 2; slept := []; ticks := 0 |}).
  reflexivity.
Defined.

Lemma floor_of_boundary (cadence x : Q) (k : Z) :
  (0 < cadence)%Q -> (x == cadence * inject_Z k)%Q -> Qfloor (x / cadence) = k.
Proof.
  intros C E.
  assert (x / cadence == inject_Z k)%Q as D.
  { rewrite E. field. lra. }
  rewrite D. apply Qfloor_Z.
Qed.

Lemma while_true_boundaries (cb : nat -> option pyexn) (cadence : Q) (n : nat) :
  (0 < cadence)%Q ->
  forall w : world,
  closed_polls w = 0 ->
  (forall i, i < S n -> cb (ticks w + i) = None) ->
  (clock (snd (while_true cb cadence (S n) w))
   == cadence * inject_Z (Qfloor (clock w / cadence) + Z.of_nat (S n)))%Q /\
  closed_polls (snd (while_true cb cadence (S n) w)) = 0.
Proof.
  intro C. induction n as [|n IH]; intros w P H.
  - assert (H0 := H 0 ltac:(lia)). rewrite Nat.add_0_r in H0.
    rewrite while_true_step, H0.
    cbn [while_true snd run_callback clock closed_polls].
    destruct (@boundary_timer_effect cadence w C) as (K & Z & _).
    rewrite P in K. split; [|exact Z]. rewrite K.
    change (inject_Z (Z.of_nat 0)) with 0%Q. change (Z.of_nat 1) with 1%Z. lra.
  - assert (H0 := H 0 ltac:(lia)). rewrite Nat.add_0_r in H0.
    rewrite while_true_step, H0.
    set (w2 := snd (run_callback cb (boundary_timer cadence w))).
    destruct (@boundary_timer_effect cadence w C) as (K & Z & _).
    rewrite P in K.
    assert (clock w2 == cadence * inject_Z (Qfloor (clock w / cadence) + 1))%Q as K2.
    { subst w2. cbn [snd run_callback clock]. rewrite K.
      change (inject_Z (Z.of_nat 0)) with 0%Q. lra. }
    assert (closed_polls w2 = 0) as P2 by exact Z.
    assert (ticks w2 = S (ticks w)) as T2 by apply run_callback_ticks.
    destruct (IH w2 P2) as (KK & ZZ).
    { intros i Hi. rewrite T2.
      replace (S (ticks w) + i) with (ticks w + S i) by lia. apply H. lia. }
    split; [|exact ZZ]. rewrite KK.
    rewrite (floor_of_boundary C K2).
    replace (Qfloor (clock w / cadence) + 1 + Z.of_nat (S n))%Z
      with (Qfloor (clock w / cadence) + Z.of_nat (S (S n)))%Z by lia.
    reflexivity.
Qed.

(** X11.  Both [update_loop]s, started with the client connected and with
    callbacks that return at once: after [n >= 1] iterations the voice loop
    has run [n] callbacks and stands at the [n]-th multiple of 3600 s after
    its start, the message loop at the [n]-th multiple of 1800 s; the loops
    are still running. *)
Theorem update_loops_run_on_boundaries (cb : nat -> option pyexn) (n : nat)
    (w : world) :
  closed_polls w = 0 ->
  (forall i, i < S n -> cb (ticks w + i) = None) ->
  let voice := VoiceChannelUpdater.update_loop cb (S n) w in
  let message := MessageTickerUpdater.update_loop cb (S n) w in
  fst voice = Looping /\ ticks (snd voice) = ticks w + S n /\
  (clock (snd voice)
   == 3600 * inject_Z (Qfloor (clock w / 3600) + Z.of_nat (S n)))%Q /\
  fst message = Looping /\ ticks (snd message) = ticks w + S n /\
  (clock (snd message)
   == 1800 * inject_Z (Qfloor (clock w / 1800) + Z.of_nat (S n)))%Q.
Proof.
  intros P H. cbv zeta.
  unfold VoiceChannelUpdater.update_loop, MessageTickerUpdater.update_loop.
  destruct (@while_true_keeps_looping cb 3600 (S n) w H) as [L1 T1].
  destruct (@while_true_keeps_looping cb 1800 (S n) w H) as [L2 T2].
  destruct (@while_true_boundaries cb 3600 n eq_refl w P H) as [K1 _].
  destruct (@while_true_boundaries cb 1800 n eq_refl w P H) as [K2 _].
  repeat split; assumption.
Qed.

Lemma update_loops_run_on_boundaries_witness :
  let voice := VoiceChannelUpdater.update_loop third_fails 2 start in
  let message := MessageTickerUpdater.update_loop third_fails 2 start in
  fst voice = Looping /\ ticks (snd voice) = 0 + 2 /\
  (clock (snd voice) == 3600 * inject_Z (Qfloor (100 / 3600) + 2))%Q /\
  fst message = Looping /\ ticks (snd message) = 0 + 2 /\
  (clock (snd message) == 1800 * inject_Z (Qfloor (100 / 1800) + 2))%Q.
Proof.
  apply (@update_loops_run_on_boundaries third_fails 1 start).
  - reflexivity.
  - intros i Hi. destruct i as [|[|i]]; [reflexivity | reflexivity | lia].
Defined.

End TimerFacts.

(* ================================================================= *)
(** ** updaters.py: what the three reconciliation paths leave behind *)

Module ChannelFacts.
Import Py Quote Discord Config VoiceChannelUpdater ReconcilerSpec Examples Market.
Import ListFacts ReconcilerFacts ConvergenceFacts.

(** *** Labels and keys *)

Lemma first_token_of_prefix (s rest : string) :
  first_token (s ++ " " ++ rest) = first_token s.
Proof.
  induction s as [|c s IH]; simpl; [reflexivity|].
  destruct (Ascii.eqb c " "); [reflexivity | f_equal; apply IH].
Qed.

Lemma first_token_whole (s : string) :
  first_token s = s <-> no_space s = true.
Proof.
  induction s as [|c s IH]; simpl; [tauto|].
  destruct (Ascii.eqb c " "); simpl.
  - split; discriminate.
  - rewrite <- IH. split; [now intros [= ->] | now intros ->].
Qed.

(** X12.  The key read back off a label that [_create_channel_name] built is
    the part of the quote's symbol before its first space; it is the symbol
    itself exactly when the symbol has no space in it. *)
Theorem label_key_round_trip (styles : Styles) (format_fixed : nat -> Q -> string)
    (q : CryptoQuote) (id : nat) :
  let created := {| ch_id := id;
                    ch_name := _create_channel_name styles format_fixed q |} in
  extracted_key created = first_token (symbol q) /\
  (extracted_key created = symbol q <-> no_space (symbol q) = true).
Proof.
  cbv zeta. unfold extracted_key, _create_channel_name. cbn [ch_name].
  rewrite first_token_of_prefix. split; [reflexivity | apply first_token_whole].
Qed.

(** *** Ranking *)

Lemma insert_by_rank (x : CryptoQuote) (l : list CryptoQuote) :
  StronglySorted (fun a b => (market_cap b <= market_cap a)%Q) l ->
  StronglySorted (fun a b => (market_cap b <= market_cap a)%Q)
    (insert (fun y x0 => Qltb (market_cap x0) (market_cap y)) x l).
Proof.
  induction l as [|y l IH]; simpl; intro S.
  - repeat constructor.
  - apply StronglySorted_inv in S. destruct S as [S Hy].
    unfold Qltb. destruct (Qle_bool (market_cap y) (market_cap x)) eqn:E; simpl.
    + apply Qle_bool_iff in E. constructor; [now constructor|].
      constructor; [exact E|].
      rewrite Forall_forall in *. intros z Hz.
      eapply Qle_trans; [now apply Hy | exact E].
    + assert (market_cap x <= market_cap y)%Q as L.
      { destruct (Qlt_le_dec (market_cap x) (market_cap y)) as [H|H];
          [now apply Qlt_le_weak|].
        apply Qle_bool_iff in H. congruence. }
      constructor; [now apply IH|].
      rewrite Forall_forall in *. intros z Hz.
      apply (Permutation_in _ (PyFacts.insert_perm _ x l)) in Hz.
      destruct Hz as [<-|Hz]; [exact L | now apply Hy].
Qed.

Lemma sort_by_market_cap_descends (quotes : list CryptoQuote) :
  StronglySorted (fun a b => (market_cap b <= market_cap a)%Q)
    (sort_by_market_cap quotes).
Proof.
  unfold sort_by_market_cap.
  induction quotes; simpl; [constructor | now apply insert_by_rank].
Qed.

(** *** Searching the channels *)

Lemma same_image_same_element {A B} (image : A -> B) (l : list A) (x y : A) :
  NoDup (map image l) -> In x l -> In y l -> image x = image y -> x = y.
Proof.
  induction l as [|a l IH]; simpl; intros ND Ix Iy E; [destruct Ix|].
  inversion ND as [|? ? N ND']; subst.
  destruct Ix as [->|Ix], Iy as [->|Iy].
  - reflexivity.
  - exfalso. apply N. rewrite E. now apply in_map.
  - exfalso. apply N. rewrite <- E. now apply in_map.
  - now apply IH.
Qed.

Lemma remove_first_no_match (ticker : string) (l : list channel) (c : category) :
  ~ In ticker (map extracted_key l) -> remove_first ticker l c = c.
Proof.
  induction l as [|ch l IH]; simpl; intro N; [reflexivity|].
  destruct (String.eqb_spec (extracted_key ch) ticker) as [E|_].
  - exfalso. apply N. now left.
  - apply IH. intro I. apply N. now right.
Qed.

Lemma remove_first_match (ticker : string) (l : list channel) (c : category) :
  In ticker (map extracted_key l) ->
  exists ch, In ch l /\ extracted_key ch = ticker /\
             remove_first ticker l c = delete (ch_id ch) c.
Proof.
  induction l as [|ch l IH]; simpl; intro I; [destruct I|].
  destruct (String.eqb_spec (extracted_key ch) ticker) as [E|N].
  - exists ch. auto.
  - destruct I as [I|I]; [congruence|].
    destruct (IH I) as (ch' & I' & E' & R). exists ch'. auto.
Qed.

Lemma remove_channel_is_key_filter (ticker : string) (chs : list channel)
    (ch : channel) :
  NoDup (map ch_id chs) ->
  NoDup (map extracted_key chs) ->
  In ch chs -> extracted_key ch = ticker ->
  remove_channel (ch_id ch) chs
  = filter (fun x => negb (String.eqb (extracted_key x) ticker)) chs.
Proof.
  intros NDi NDk I E. unfold remove_channel. apply filter_pointwise.
  intros x Ix. f_equal. unfold has_id.
  destruct (Nat.eqb_spec (ch_id x) (ch_id ch)) as [X|X].
  - rewrite (same_image_same_element ch_id chs x ch NDi Ix I X), E.
    symmetry. apply String.eqb_refl.
  - symmetry. apply String.eqb_neq. intro K. apply X. f_equal.
    apply (same_image_same_element extracted_key chs x ch NDk Ix I). congruence.
Qed.

Lemma find_ticker_symbol (ticker : string) (l : list CryptoQuote) :
  forall i q rank, find_ticker ticker i l = Some (q, rank) -> symbol q = ticker.
Proof.
  induction l as [|q0 l IH]; simpl; intros i q rank H; [discriminate|].
  destruct (String.eqb_spec (symbol q0) ticker) as [E|_].
  - injection H as <- _. exact E.
  - eapply IH; eauto.
Qed.

Lemma insert_at_perm (i : nat) (ch : channel) (chs : list channel) :
  Permutation (insert_at i ch chs) (ch :: chs).
Proof.
  unfold insert_at. rewrite <- (firstn_skipn i chs) at 3.
  apply Permutation_sym, Permutation_middle.
Qed.

Lemma remove_inserted (i : nat) (ch : channel) (chs : list channel) :
  ~ In (ch_id ch) (map ch_id chs) ->
  remove_channel (ch_id ch) (insert_at i ch chs) = chs.
Proof.
  intro N. unfold remove_channel, insert_at. rewrite filter_app. simpl.
  unfold has_id at 2. rewrite Nat.eqb_refl. simpl.
  rewrite <- filter_app, firstn_skipn. apply filter_all.
  intros x Ix. apply negb_true_iff. unfold has_id. apply Nat.eqb_neq.
  intro X. apply N. rewrite <- X. now apply in_map.
Qed.

Section Paths.
Variable styles : Styles.
Variable format_fixed : nat -> Q -> string.
Variable str_to_float : string -> option Q.
Variable upstream : nat -> list string -> response.

Local Abbreviation label := (_create_channel_name styles format_fixed).
Local Abbreviation full_pass :=
  (update_voice_channels_for_guild styles format_fixed str_to_float upstream).
Local Abbreviation add_path :=
  (add_voice_ticker styles format_fixed str_to_float upstream).
Local Abbreviation quotes_of := (fetch_fresh str_to_float upstream).

(** X13.  What a full pass leaves behind.  For a guild with an update
    category and an API key, quotes with distinct symbols free of spaces (at
    least one), and a container with distinct handles and at most one
    resource per key: when [update_voice_channels_for_guild] returns, the
    container holds exactly one resource per returned quote, in descending
    order of market cap, each labelled by [_create_channel_name] and keyed
    by its quote's symbol, and nothing else; handles stay distinct. *)
Theorem full_pass_shows_quotes_by_rank (cfg : GuildConfiguration) (now : Q)
    (chs : list channel) (fresh : nat) :
  truthy_id (update_category cfg) = true ->
  truthy_str (cmc_api_key cfg) = true ->
  quotes_of (voice_tickers cfg) now <> [] ->
  NoDup (map symbol (quotes_of (voice_tickers cfg) now)) ->
  Forall (fun q => no_space (symbol q) = true) (quotes_of (voice_tickers cfg) now) ->
  well_formed chs fresh ->
  NoDup (map extracted_key chs) ->
  let c1 := full_pass (Some cfg) now (container chs fresh) in
  exists ranked,
    Permutation ranked (quotes_of (voice_tickers cfg) now) /\
    StronglySorted (fun a b => (market_cap b <= market_cap a)%Q) ranked /\
    map ch_name (voice_channels c1) = map label ranked /\
    map extracted_key (voice_channels c1) = map symbol ranked /\
    well_formed (voice_channels c1) (next_id c1).
Proof.
  intros T1 T2 NE NDs S WF NDk. cbv zeta.
  unfold update_voice_channels_for_guild. cbn [update_category voice_tickers cmc_api_key].
  rewrite T1, T2.
  assert (truthy_list (voice_tickers cfg) = true) as T3.
  { destruct (voice_tickers cfg); [|reflexivity]. exfalso. now apply NE. }
  rewrite T3. cbn [andb].
  set (quotes := fetch_fresh str_to_float upstream (voice_tickers cfg) now) in *.
  destruct (@update_with_quotes_result styles format_fixed quotes chs fresh
              NE NDs WF NDk) as [M WF'].
  exists (sort_by_market_cap quotes).
  split; [apply PyFacts.sorted_perm|].
  split; [apply sort_by_market_cap_descends|].
  split; [exact M|]. split; [|exact WF'].
  unfold extracted_key. rewrite <- (map_map ch_name first_token), M, map_map.
  apply map_ext_in. intros q I. apply label_key.
  rewrite Forall_forall in S. apply S. now apply PyFacts.sorted_in in I.
Qed.

(** *** A failed upstream call *)

Lemma fetch_fresh_failed (symbols : list string) (now : Q) :
  (forall body, upstream 0 symbols = Status200 body ->
                Shapes.body_accepted str_to_float body = false) ->
  quotes_of symbols now = [].
Proof.
  intro H. unfold fetch_fresh, fetch.
  destruct symbols as [|s symbols]; [reflexivity|].
  set (st1 := _cleanup_cache (init 300 1000 now)).
  assert (cache st1 = []) as C1 by reflexivity.
  rewrite C1. cbn [dict_get].
  pose proof (CacheFacts.fetch_from_api_is_ok str_to_float upstream (s :: symbols) st1) as K.
  pose proof (QuoteFacts.fetch_from_api_keeps_cache str_to_float upstream (s :: symbols) st1) as C.
  destruct (_fetch_from_api str_to_float upstream (s :: symbols) st1) as [[qs|ex] st2];
    cbn [fst snd] in *.
  - exfalso. destruct (proj1 K eq_refl) as (body & U & A).
    change (requests_sent (trace st1)) with 0 in U.
    rewrite (H body U) in A. discriminate.
  - rewrite C, C1. reflexivity.
Qed.

(** X14.  When the upstream call fails (the answer to the pass's one request
    is not a status 200 with a body of the accepted shape), neither the full
    pass nor the add path touches the container: no operation is issued and
    every resource stays as it was. *)
Theorem failed_upstream_call_changes_nothing (cfg : GuildConfiguration)
    (ticker : string) (now : Q) (c : category) :
  (forall body, upstream 0 (voice_tickers cfg) = Status200 body ->
                Shapes.body_accepted str_to_float body = false) ->
  full_pass (Some cfg) now c = c /\
  add_path (Some cfg) ticker now c = c.
Proof.
  intro H. unfold update_voice_channels_for_guild, add_voice_ticker.
  rewrite (@fetch_fresh_failed (voice_tickers cfg) now H). split.
  - now destruct (_ && _).
  - now destruct (_ && _).
Qed.

(** *** The add path *)

Lemma add_path_effect (guild_config : option GuildConfiguration) (ticker : string)
    (now : Q) (chs : list channel) (fresh : nat) :
  well_formed chs fresh ->
  no_space ticker = true ->
  let c' := add_path guild_config ticker now (container chs fresh) in
  voice_channels c' = chs \/
  exists rank name,
    first_token name = ticker /\
    voice_channels c' = insert_at rank {| ch_id := fresh; ch_name := name |} chs.
Proof.
  intros WF NS. cbv zeta. unfold add_voice_ticker.
  destruct guild_config as [cfg|]; [|now left].
  destruct (_ && _); [|now left].
  pose proof (@add_with_quotes_effect styles format_fixed
                (fetch_fresh str_to_float upstream (voice_tickers cfg) now)
                ticker chs fresh WF) as E.
  cbv zeta in E.
  destruct (find_ticker ticker 0 _) as [[q rank]|] eqn:F; [|left; apply E].
  right. exists rank, (label q). split; [|apply E].
  apply find_ticker_symbol in F. rewrite <- F in *. now apply label_key.
Qed.

(** X15.  The add path keeps at most one resource per key when the ticker is
    new to the container: with distinct handles and distinct keys before,
    no resource keyed by the ticker, and a ticker free of spaces, the keys
    are distinct after [add_voice_ticker], and every resource that was
    there is still there. *)
Theorem add_path_of_new_key_keeps_keys_distinct
    (guild_config : option GuildConfiguration) (ticker : string) (now : Q)
    (chs : list channel) (fresh : nat) :
  well_formed chs fresh ->
  NoDup (map extracted_key chs) ->
  ~ In ticker (map extracted_key chs) ->
  no_space ticker = true ->
  let c' := add_path guild_config ticker now (container chs fresh) in
  NoDup (map extracted_key (voice_channels c')) /\
  (forall ch, In ch chs -> In ch (voice_channels c')).
Proof.
  intros WF NDk New NS. cbv zeta.
  destruct (@add_path_effect guild_config ticker now chs fresh WF NS)
    as [->|(rank & name & K & ->)]; [auto|].
  split.
  - eapply Permutation_NoDup;
      [apply Permutation_sym, Permutation_map, insert_at_perm|].
    simpl. constructor; [|exact NDk]. unfold extracted_key at 1. simpl.
    now rewrite K.
  - intros ch I. apply (Permutation_in _ (Permutation_sym (insert_at_perm _ _ _))).
    now right.
Qed.

(** *** The remove path *)

(** X16.  The remove path, on a container with distinct handles and at most
    one resource per key: when [remove_voice_ticker] returns for a guild
    with an update category, the container holds the resources it held in
    their order, without the one keyed by the ticker; at most one delete
    was issued, for that resource. *)
Theorem remove_path_removes_the_key (cfg : GuildConfiguration) (ticker : string)
    (chs : list channel) (fresh : nat) :
  truthy_id (update_category cfg) = true ->
  NoDup (map ch_id chs) ->
  NoDup (map extracted_key chs) ->
  let c' := remove_voice_ticker (Some cfg) ticker (container chs fresh) in
  voice_channels c'
    = filter (fun ch => negb (String.eqb (extracted_key ch) ticker)) chs /\
  (issued c' = [] /\ voice_channels c' = chs \/
   exists ch, In ch chs /\ extracted_key ch = ticker /\
              issued c' = [OpDelete (ch_id ch)]).
Proof.
  intros T NDi NDk. cbv zeta. unfold remove_voice_ticker. rewrite T.
  cbn [voice_channels container].
  destruct (in_dec string_dec ticker (map extracted_key chs)) as [I|N].
  - destruct (remove_first_match ticker chs (container chs fresh) I)
      as (ch & Ich & E & ->).
    cbn [voice_channels issued delete container app].
    split; [now apply remove_channel_is_key_filter|].
    right. exists ch. auto.
  - rewrite (remove_first_no_match ticker chs _ N). cbn [voice_channels issued container].
    split; [|now left].
    symmetry. apply filter_all. intros x Ix. apply negb_true_iff.
    apply String.eqb_neq. intro E. apply N. rewrite <- E. now apply in_map.
Qed.

(** X17.  Adding a ticker and removing it again gives the container back:
    with distinct handles, no resource keyed by the ticker and a ticker free
    of spaces, [remove_voice_ticker] after [add_voice_ticker] leaves exactly
    the resources that were there, in their order. *)
Theorem add_then_remove_restores_container
    (guild_config : option GuildConfiguration) (ticker : string) (now : Q)
    (chs : list channel) (fresh : nat) :
  well_formed chs fresh ->
  ~ In ticker (map extracted_key chs) ->
  no_space ticker = true ->
  voice_channels
    (remove_voice_ticker guild_config ticker
       (add_path guild_config ticker now (container chs fresh)))
  = chs.
Proof.
  intros WF New NS.
  pose proof (@add_path_effect guild_config ticker now chs fresh WF NS) as E.
  cbv zeta in E.
  set (c' := add_path guild_config ticker now (container chs fresh)) in *.
  unfold remove_voice_ticker.
  destruct guild_config as [cfg|];
    [|subst c'; reflexivity].
  destruct (truthy_id (update_category cfg)) eqn:T.
  - destruct E as [E|(rank & name & K & E)].
    + rewrite E at 1. rewrite (remove_first_no_match ticker chs c' New). exact E.
    + set (new := {| ch_id := fresh; ch_name := name |}) in *.
      assert (Permutation (insert_at rank new chs) (new :: chs)) as P
        by apply insert_at_perm.
      assert (In ticker (map extracted_key (voice_channels c'))) as I.
      { rewrite E.
        apply (Permutation_in _ (Permutation_sym (Permutation_map extracted_key P))).
        left. exact K. }
      destruct (remove_first_match ticker (voice_channels c') c' I)
        as (ch & Ich & Ek & ->).
      assert (ch = new) as ->.
      { rewrite E in Ich. apply (Permutation_in _ P) in Ich.
        destruct Ich as [<-|Ich]; [reflexivity|].
        exfalso. apply New. rewrite <- Ek. now apply in_map. }
      cbn [voice_channels delete]. rewrite E.
      apply (remove_inserted rank new chs). cbn [ch_id new].
      apply (well_formed_fresh WF).
  - subst c'. unfold add_voice_ticker. rewrite T. reflexivity.
Qed.

End Paths.

Lemma full_pass_shows_quotes_by_rank_witness :
  let c1 := update_voice_channels_for_guild icons fixed no_float ranked
              (guild ["ETH"; "BTC"]) 1000
              (container [chan 1 "ETH + $1.00"; chan 2 "DOGE + $1.00"] 3) in
  map ch_name (voice_channels c1) = ["BTC + $1.00"; "ETH + $1.00"] /\
  exists order,
    Permutation order [quote_of "ETH" 7 2; quote_of "BTC" 5 9] /\
    StronglySorted (fun a b => (market_cap b <= market_cap a)%Q) order /\
    map ch_name (voice_channels c1) = map (_create_channel_name icons fixed) order /\
    map extracted_key (voice_channels c1) = map symbol order /\
    well_formed (voice_channels c1) (next_id c1).
Proof.
  split; [reflexivity|].
  apply (@full_pass_shows_quotes_by_rank icons fixed no_float ranked
           {| update_category := Some 42%Z; voice_tickers := ["ETH"; "BTC"];
              cmc_api_key := Some "key" |} 1000
           [chan 1 "ETH + $1.00"; chan 2 "DOGE + $1.00"] 3).
  - reflexivity.
  - reflexivity.
  - discriminate.
  - simpl. repeat constructor; simpl; intuition discriminate.
  - repeat constructor.
  - split; simpl.
    + repeat constructor; simpl; intuition discriminate.
    + repeat constructor.
  - simpl. repeat constructor; simpl; intuition discriminate.
Defined.

Lemma failed_upstream_call_changes_nothing_witness :
  let c := container [chan 1 "BTC + $1.00"; chan 2 "General"] 3 in
  update_voice_channels_for_guild icons fixed no_float unreachable
    (guild ["BTC"]) 1000 c = c /\
  add_voice_ticker icons fixed no_float unreachable (guild ["BTC"]) "BTC" 1000 c = c.
Proof.
  apply (@failed_upstream_call_changes_nothing icons fixed no_float unreachable
           {| update_category := Some 42%Z; voice_tickers := ["BTC"];
              cmc_api_key := Some "key" |} "BTC" 1000
           (container [chan 1 "BTC + $1.00"; chan 2 "General"] 3)).
  intros body U. discriminate U.
Defined.

Lemma add_path_of_new_key_keeps_keys_distinct_witness :
  let c' := add_voice_ticker icons fixed no_float ranked (guild ["ETH"; "BTC"])
              "BTC" 1000 (container [chan 1 "ETH + $1.00"] 2) in
  voice_channels c' = [chan 2 "BTC + $1.00"; chan 1 "ETH + $1.00"] /\
  NoDup (map extracted_key (voice_channels c')) /\
  (forall ch, In ch [chan 1 "ETH + $1.00"] -> In ch (voice_channels c')).
Proof.
  split; [reflexivity|].
  apply (@add_path_of_new_key_keeps_keys_distinct icons fixed no_float ranked
           (guild ["ETH"; "BTC"]) "BTC" 1000 [chan 1 "ETH + $1.00"] 2).
  - split; simpl; repeat constructor; simpl; intuition discriminate.
  - simpl. repeat constructor; simpl; intuition discriminate.
  - simpl. intuition discriminate.
  - reflexivity.
Defined.

Lemma remove_path_removes_the_key_witness :
  let c' := remove_voice_ticker (guild ["ETH"]) "BTC"
              (container [chan 2 "BTC + $1.00"; chan 1 "ETH + $1.00"] 3) in
  voice_channels c' = [chan 1 "ETH + $1.00"] /\
  (issued c' = [] /\
   voice_channels c' = [chan 2 "BTC + $1.00"; chan 1 "ETH + $1.00"] \/
   exists ch, In ch [chan 2 "BTC + $1.00"; chan 1 "ETH + $1.00"] /\
              extracted_key ch = "BTC" /\ issued c' = [OpDelete (ch_id ch)]).
Proof.
  apply (@remove_path_removes_the_key
           {| update_category := Some 42%Z; voice_tickers := ["ETH"];
              cmc_api_key := Some "key" |} "BTC"
           [chan 2 "BTC + $1.00"; chan 1 "ETH + $1.00"] 3).
  - reflexivity.
  - simpl. repeat constructor; simpl; intuition discriminate.
  - simpl. repeat constructor; simpl; intuition discriminate.
Defined.

Lemma add_then_remove_restores_container_witness :
  voice_channels (add_voice_ticker icons fixed no_float ranked (guild ["ETH"; "BTC"])
                    "BTC" 1000 (container [chan 1 "ETH + $1.00"] 2))
    = [chan 2 "BTC + $1.00"; chan 1 "ETH + $1.00"] /\
  voice_channels
    (remove_voice_ticker (guild ["ETH"; "BTC"]) "BTC"
       (add_voice_ticker icons fixed no_float ranked (guild ["ETH"; "BTC"])
          "BTC" 1000 (container [chan 1 "ETH + $1.00"] 2)))
    = [chan 1 "ETH + $1.00"].
Proof.
  split; [reflexivity|].
  apply (@add_then_remove_restores_container icons fixed no_float ranked
           (guild ["ETH"; "BTC"]) "BTC" 1000 [chan 1 "ETH + $1.00"] 2).
  - split; simpl; repeat constructor; simpl; intuition discriminate.
  - simpl. intuition discriminate.
  - reflexivity.
Defined.

End ChannelFacts.

(* ================================================================= *)
(** ** updaters.py: the message tickers *)

Module MessageFacts.
Import Py Quote ConfigData MessageTickers Examples Market Desk.
Import MessageSpec.
Import ListFacts QuoteFacts CacheFacts.

(** *** Where the quotes of [fetch] come from *)

Lemma fetch_from_api_ok f up (symbols : list string) (st : PriceQuoteCache)
    (quotes : list CryptoQuote) :
  fst (_fetch_from_api f up symbols st) = Ok quotes ->
  exists body, up (requests_sent (trace st)) symbols = Status200 body /\
               _parse_api_response f body = Ok quotes.
Proof.
  unfold _fetch_from_api. rewrite rate_limit_requests.
  destruct (up _ symbols) as [body| | |]; cbn [fst]; try discriminate.
  intro H. exists body. auto.
Qed.

Lemma dict_set_entries {V} (k : string) (v : V) (d : dict V) (kv : string * V) :
  In kv (dict_set k v d) -> kv = (k, v) \/ In kv d.
Proof.
  induction d as [|[k' v'] d IH]; simpl.
  - intros [<-|[]]. now left.
  - destruct (String.eqb k k'); simpl.
    + intros [<-|I]; [now left | right; now right].
    + intros [<-|I]; [right; now left|].
      destruct (IH I) as [E|I']; [now left | right; now right].
Qed.

Section Provenance.
Variable f : string -> option Q.
Variable up : nat -> list string -> response.
Variable P : list CryptoQuote -> Prop.
Hypothesis P_nothing : P [].
Hypothesis P_upstream :
  forall n symbols body quotes,
    up n symbols = Status200 body -> _parse_api_response f body = Ok quotes ->
    P quotes.

Lemma fetch_provenance (symbols : list string) (current_time : Q)
    (st : PriceQuoteCache) :
  (forall kv, In kv (cache st) -> P (data (snd kv))) ->
  P (fst (fetch f up symbols current_time st)) /\
  (forall kv, In kv (cache (snd (fetch f up symbols current_time st))) ->
              P (data (snd kv))).
Proof.
  intro C. destruct symbols as [|s symbols]; [split; [exact P_nothing | exact C]|].
  unfold fetch.
  set (st1 := _cleanup_cache st).
  set (key := _generate_cache_key (s :: symbols)).
  assert (forall kv, In kv (cache st1) -> P (data (snd kv))) as C1.
  { intros kv I. apply C. destruct (cleanup_is_filter st) as (p & E & _).
    subst st1. rewrite E in I. apply filter_In in I. tauto. }
  assert (forall e, dict_get key (cache st1) = Some e -> P (data e)) as G1.
  { intros e G. apply (C1 (key, e)). now apply ReconcilerFacts.dict_get_in. }
  pose proof (fetch_from_api_ok f up (s :: symbols) st1) as K.
  pose proof (fetch_from_api_keeps_cache f up (s :: symbols) st1) as KC.
  assert (P (fst (match _fetch_from_api f up (s :: symbols) st1 with
          | (Ok quotes, st2) =>
              (quotes,
               set_cache (dict_set key {| data := quotes; timestamp := current_time |}
                            (cache st2)) st2)
          | (Raised _, st2) =>
              match dict_get key (cache st2) with
              | Some stale => (data stale, st2)
              | None => ([], st2)
              end
          end)) /\
          (forall kv, In kv (cache (snd (match _fetch_from_api f up (s :: symbols) st1 with
          | (Ok quotes, st2) =>
              (quotes,
               set_cache (dict_set key {| data := quotes; timestamp := current_time |}
                            (cache st2)) st2)
          | (Raised _, st2) =>
              match dict_get key (cache st2) with
              | Some stale => (data stale, st2)
              | None => ([], st2)
              end
          end))) -> P (data (snd kv)))) as Ask.
  { destruct (_fetch_from_api f up (s :: symbols) st1) as [[quotes|ex] st2];
      cbn [fst snd] in *.
    - destruct (K quotes eq_refl) as (body & U & Pa).
      assert (P quotes) as Pq by (eapply P_upstream; eauto).
      split; [exact Pq|]. cbn [cache set_cache]. intros kv I.
      apply dict_set_entries in I. destruct I as [->|I]; [exact Pq|].
      rewrite KC in I. now apply C1.
    - rewrite KC.
      destruct (dict_get key (cache st1)) as [stale|] eqn:G; cbn [fst snd].
      + split; [now apply G1 | rewrite KC; exact C1].
      + split; [exact P_nothing | rewrite KC; exact C1]. }
  destruct (dict_get key (cache st1)) as [e|] eqn:G; [|exact Ask].
  destruct (_is_cache_valid st1 e current_time); [|exact Ask].
  cbn [fst snd]. split; [now apply G1 | exact C1].
Qed.
End Provenance.

(** X18.  [fetch] makes up no quotes: a property that holds of the empty
    list, of the quotes of every cache entry and of the quotes parsed from
    every body the upstream may answer with holds of the list [fetch]
    returns, and again of every entry of the cache afterwards. *)
Theorem fetch_returns_cached_or_upstream_quotes (f : string -> option Q)
    (up : nat -> list string -> response) (P : list CryptoQuote -> Prop)
    (symbols : list string) (current_time : Q) (st : PriceQuoteCache) :
  P [] ->
  (forall n asked body quotes,
     up n asked = Status200 body -> _parse_api_response f body = Ok quotes ->
     P quotes) ->
  (forall kv, In kv (cache st) -> P (data (snd kv))) ->
  P (fst (fetch f up symbols current_time st)) /\
  (forall kv, In kv (cache (snd (fetch f up symbols current_time st))) ->
              P (data (snd kv))).
Proof. intros P0 PU C. now apply fetch_provenance. Qed.

Lemma fetch_returns_cached_or_upstream_quotes_witness :
  Forall (fun q => symbol q = "ETH" \/ symbol q = "BTC")
         (fst (fetch no_float ranked ["DOGE"] 1000 (init 300 1000 1000))).
Proof.
  apply (@fetch_returns_cached_or_upstream_quotes no_float ranked
           (Forall (fun q => symbol q = "ETH" \/ symbol q = "BTC"))
           ["DOGE"] 1000 (init 300 1000 1000)).
  - constructor.
  - intros n asked body quotes U Pa. injection U as <-.
    vm_compute in Pa. injection Pa as <-.
    constructor; [left; reflexivity|]. constructor; [right; reflexivity|].
    constructor.
  - intros kv [].
Defined.

(** *** Requests *)

Lemma fetch_requests f up (symbols : list string) (current_time : Q)
    (st : PriceQuoteCache) :
  requests_sent (trace st)
    <= requests_sent (trace (snd (fetch f up symbols current_time st)))
    <= S (requests_sent (trace st)).
Proof.
  destruct symbols as [|s symbols]; [simpl; lia|].
  unfold fetch.
  set (st1 := _cleanup_cache st).
  assert (requests_sent (trace st1) = requests_sent (trace st)) as T1 by reflexivity.
  pose proof (fetch_from_api_requests f up (s :: symbols) st1) as T.
  destruct (_fetch_from_api f up (s :: symbols) st1) as [[quotes|ex] st2];
    cbn [fst snd] in T;
    destruct (dict_get _ (cache st1)) as [e|];
    try destruct (_is_cache_valid st1 e current_time);
    try destruct (dict_get _ (cache st2));
    cbn [fst snd trace set_cache]; lia.
Qed.

Section Passes.
Variable format_fixed : nat -> Q -> string.
Variable str_to_float : string -> option Q.
Variable upstream : nat -> list string -> response.
Variable get_channel : Z -> bool.
Variable int_of_quotient : Q -> Q -> converted.
Variable get_guild : Z -> bool.

Local Abbreviation asks s := (requests_sent (trace (quoter s))).
Local Abbreviation fetch_now := (MessageTickers.fetch_now str_to_float upstream).
Local Abbreviation regular_loop := (MessageTickers.regular_loop format_fixed get_channel).
Local Abbreviation ratio_loop :=
  (MessageTickers.ratio_loop str_to_float upstream get_channel int_of_quotient).
Local Abbreviation regular_pass :=
  (_update_regular_tickers format_fixed str_to_float upstream get_channel).
Local Abbreviation ratio_pass :=
  (_update_ratio_tickers str_to_float upstream get_channel int_of_quotient).
Local Abbreviation message_pass :=
  (update_message_tickers_for_guild format_fixed str_to_float upstream get_channel
     int_of_quotient get_guild).

Lemma fetch_now_effect (symbols : list string) (s : pass_state) :
  sent (snd (fetch_now symbols s)) = sent s /\
  asks s <= asks (snd (fetch_now symbols s)) <= S (asks s).
Proof.
  unfold MessageTickers.fetch_now.
  pose proof (fetch_requests str_to_float upstream symbols (clock (quoter s))
                (quoter s)) as R.
  destruct (fetch _ _ _ _ _) as [quotes q]. cbn [fst snd quoter sent] in *.
  split; [reflexivity | exact R].
Qed.

(** *** The regular tickers *)

Local Abbreviation regular_messages :=
  (MessageSpec.regular_messages format_fixed get_channel).

Lemma regular_loop_effect (quotes_by_symbol : dict CryptoQuote)
    (items : list (string * Z)) (s : pass_state) :
  quoter (regular_loop quotes_by_symbol items s) = quoter s /\
  sent (regular_loop quotes_by_symbol items s)
    = sent s ++ regular_messages quotes_by_symbol items.
Proof.
  unfold MessageSpec.regular_messages.
  revert s. induction items as [|[symbol channel_id] items IH]; intro s; simpl.
  - now rewrite app_nil_r.
  - destruct (dict_get symbol quotes_by_symbol) as [quote|]; [|apply IH].
    destruct (get_channel channel_id); [|apply IH].
    destruct (IH (send channel_id (regular_message format_fixed quote symbol) s))
      as [Q S].
    split; [exact Q|]. rewrite S. cbn [sent send]. now rewrite <- app_assoc.
Qed.

Lemma by_symbol_fold (quotes : list CryptoQuote) (d : dict CryptoQuote)
    (sym : string) (q : CryptoQuote) :
  dict_get sym (fold_left (fun d quote => dict_set (symbol quote) quote d) quotes d)
    = Some q ->
  (In q quotes /\ symbol q = sym) \/ dict_get sym d = Some q.
Proof.
  revert d. induction quotes as [|q0 quotes IH]; intros d G; simpl in G.
  - now right.
  - destruct (IH _ G) as [[I E]|G'].
    + left. split; [now right | exact E].
    + destruct (String.eqb_spec sym (symbol q0)) as [->|N].
      * rewrite ConvergenceFacts.dict_get_set_same in G'. injection G' as <-.
        left. split; [now left | reflexivity].
      * rewrite ConvergenceFacts.dict_get_set_other in G' by congruence.
        now right.
Qed.

Lemma by_symbol_sound (quotes : list CryptoQuote) (sym : string) (q : CryptoQuote) :
  dict_get sym (by_symbol quotes) = Some q -> In q quotes /\ symbol q = sym.
Proof.
  intro G. destruct (by_symbol_fold quotes [] sym G) as [H|H];
    [exact H | discriminate].
Qed.

Lemma regular_messages_bound (quotes_by_symbol : dict CryptoQuote)
    (items : list (string * Z)) :
  List.length (regular_messages quotes_by_symbol items) <= List.length items /\
  Forall (fun m => get_channel (fst m) = true) (regular_messages quotes_by_symbol items).
Proof.
  unfold MessageSpec.regular_messages.
  induction items as [|[symbol channel_id] items [L K]]; simpl; [split; [lia|constructor]|].
  destruct (dict_get symbol quotes_by_symbol) as [quote|];
    [|simpl; split; [lia | exact K]].
  destruct (get_channel channel_id) eqn:G; simpl; [|split; [lia | exact K]].
  split; [lia | constructor; [exact G | exact K]].
Qed.

Lemma regular_pass_extends_outbox
    (guild_config : GuildConfiguration) (s : pass_state) :
  exists new,
    sent (regular_pass guild_config s) = sent s ++ new /\
    List.length new <= List.length (message_tickers guild_config) /\
    Forall (fun m => get_channel (fst m) = true) new /\
    asks s <= asks (regular_pass guild_config s) <= S (asks s).
Proof.
  unfold _update_regular_tickers.
  destruct (message_tickers guild_config) as [|kv items] eqn:M.
  - exists []. rewrite app_nil_r. repeat split; [simpl; lia | constructor | lia | lia].
  - pose proof (fetch_now_effect (map fst (kv :: items)) s) as [S R].
    destruct (fetch_now (map fst (kv :: items)) s) as [quotes s1].
    cbn [fst snd] in *.
    destruct (regular_loop_effect (by_symbol quotes) (kv :: items) s1) as [Q E].
    destruct (regular_messages_bound (by_symbol quotes) (kv :: items)) as [L K].
    exists (regular_messages (by_symbol quotes) (kv :: items)).
    rewrite E, Q, S. repeat split; [exact L | exact K | lia | lia].
Qed.

(** X19.  The regular tickers of a guild: [_update_regular_tickers] asks for
    the quotes of all configured tickers in one [fetch] (at most one
    request) and sends, in configuration order, one message for every
    ticker that has a quote in the answer and a channel the collaborator
    knows, to that ticker's channel; the quote used for a ticker is a
    returned quote with that symbol; the deliveries made before stay as they
    are, and with no ticker configured nothing happens at all. *)
Theorem regular_tickers_send_one_message_per_quoted_ticker
    (guild_config : GuildConfiguration) (s : pass_state) :
  let quotes := fst (fetch_now (map fst (message_tickers guild_config)) s) in
  sent (regular_pass guild_config s)
    = sent s ++ regular_messages (by_symbol quotes) (message_tickers guild_config) /\
  (forall sym q, dict_get sym (by_symbol quotes) = Some q ->
                 In q quotes /\ symbol q = sym) /\
  asks s <= asks (regular_pass guild_config s) <= S (asks s) /\
  (message_tickers guild_config = [] -> regular_pass guild_config s = s).
Proof.
  cbv zeta. unfold _update_regular_tickers.
  split; [|split; [|split]].
  - destruct (message_tickers guild_config) as [|kv items] eqn:M.
    + simpl. now rewrite app_nil_r.
    + pose proof (fetch_now_effect (map fst (kv :: items)) s) as [S _].
      destruct (fetch_now (map fst (kv :: items)) s) as [quotes s1].
      cbn [fst snd] in *.
      destruct (regular_loop_effect (by_symbol quotes) (kv :: items) s1) as [_ E].
      rewrite E, S. reflexivity.
  - intros sym q. apply by_symbol_sound.
  - destruct (message_tickers guild_config) as [|kv items] eqn:M; [lia|].
    pose proof (fetch_now_effect (map fst (kv :: items)) s) as [_ R].
    destruct (fetch_now (map fst (kv :: items)) s) as [quotes s1].
    cbn [fst snd] in *.
    destruct (regular_loop_effect (by_symbol quotes) (kv :: items) s1) as [E _].
    rewrite E. exact R.
  - intros ->. reflexivity.
Qed.

(** *** The ratio tickers *)

Lemma ratio_loop_app (l1 l2 : list (string * Z)) (s : pass_state) :
  ratio_loop (l1 ++ l2) s
  = match ratio_loop l1 s with
    | (None, s1) => ratio_loop l2 s1
    | (Some e, s1) => (Some e, s1)
    end.
Proof.
  revert s. induction l1 as [|[pair_key channel_id] l1 IH]; intro s.
  - simpl. now destruct (ratio_loop l2 s).
  - cbn [app MessageTickers.ratio_loop].
    destruct (PyText.split pair_key) as [|t1 [|t2 [|t3 ts]]]; try reflexivity.
    destruct (fetch_now [t1; t2] s) as [quotes s1].
    destruct (dict_get t1 (by_symbol quotes)) as [a|]; [|apply IH].
    destruct (dict_get t2 (by_symbol quotes)) as [b|]; [|apply IH].
    destruct (get_channel channel_id); [|apply IH].
    destruct (Qeq_bool (price_usd a) 0); [reflexivity|].
    destruct (int_of_quotient (price_usd b) (price_usd a));
      [apply IH | reflexivity | reflexivity].
Qed.

Lemma ratio_loop_effect (items : list (string * Z)) (s : pass_state) :
  exists new,
    sent (snd (ratio_loop items s)) = sent s ++ new /\
    List.length new <= List.length items /\
    Forall (fun m => get_channel (fst m) = true) new /\
    asks s <= asks (snd (ratio_loop items s)) <= asks s + List.length items.
Proof.
  revert s. induction items as [|[pair_key channel_id] items IH]; intro s.
  - exists []. simpl. rewrite app_nil_r. repeat split; [lia | constructor | lia | lia].
  - cbn [MessageTickers.ratio_loop].
    assert (exists new,
              sent s = sent s ++ new /\
              List.length new <= List.length ((pair_key, channel_id) :: items) /\
              Forall (fun m => get_channel (fst m) = true) new /\
              asks s <= asks s <= asks s + List.length ((pair_key, channel_id) :: items))
      as Stop.
    { exists []. rewrite app_nil_r. simpl. repeat split; [lia | constructor | lia | lia]. }
    destruct (PyText.split pair_key) as [|t1 [|t2 [|t3 ts]]]; try exact Stop.
    pose proof (fetch_now_effect [t1; t2] s) as [S R].
    destruct (fetch_now [t1; t2] s) as [quotes s1]. cbn [fst snd] in S, R.
    assert (exists new,
              sent (snd (ratio_loop items s1)) = sent s ++ new /\
              List.length new <= List.length ((pair_key, channel_id) :: items) /\
              Forall (fun m => get_channel (fst m) = true) new /\
              asks s <= asks (snd (ratio_loop items s1))
                <= asks s + List.length ((pair_key, channel_id) :: items)) as Skip.
    { destruct (IH s1) as (new & E & L & K & A). exists new.
      rewrite E, S. simpl. repeat split; [lia | exact K | lia | lia]. }
    destruct (dict_get t1 (by_symbol quotes)) as [a|]; [|exact Skip].
    destruct (dict_get t2 (by_symbol quotes)) as [b|]; [|exact Skip].
    destruct (get_channel channel_id) eqn:G; [|exact Skip].
    assert (exists new,
              sent s1 = sent s ++ new /\
              List.length new <= List.length ((pair_key, channel_id) :: items) /\
              Forall (fun m => get_channel (fst m) = true) new /\
              asks s <= asks s1
                <= asks s + List.length ((pair_key, channel_id) :: items)) as Raise.
    { exists []. rewrite app_nil_r. simpl.
      repeat split; [exact S | lia | constructor | lia | lia]. }
    destruct (Qeq_bool (price_usd a) 0); [exact Raise|].
    destruct (int_of_quotient (price_usd b) (price_usd a)) as [ratio| |];
      [|exact Raise | exact Raise].
    set (text := ratio_message t1 t2 ratio a).
    destruct (IH (send channel_id text s1)) as (new & E & L & K & A).
    exists ((channel_id, text) :: new).
    rewrite E. cbn [sent send quoter] in *. rewrite S, <- app_assoc. simpl.
    repeat split; [lia | constructor; [exact G | exact K] | lia | lia].
Qed.



(** X20.  A pair key that does not split at [":"] into exactly two tickers
    stops the ratio tickers: [_update_ratio_tickers] handles the pairs
    configured before it, raises [ValueError] at the unpacking without
    asking for a quote, and the pairs configured after it get no message. *)
Theorem malformed_pair_stops_ratio_tickers (guild_config : GuildConfiguration)
    (before after : list (string * Z)) (pair_key : string) (channel_id : Z)
    (s : pass_state) :
  ratio_tickers guild_config = before ++ (pair_key, channel_id) :: after ->
  unpacks pair_key = false ->
  fst (ratio_loop before s) = None ->
  ratio_pass guild_config s
  = (Some UnpackValueError, snd (ratio_loop before s)).
Proof.
  intros R U B. unfold _update_ratio_tickers. rewrite R.
  assert (ratio_loop (before ++ (pair_key, channel_id) :: after) s
          = (Some UnpackValueError, snd (ratio_loop before s))) as E.
  { rewrite ratio_loop_app. destruct (ratio_loop before s) as [[e|] s1];
      cbn [fst snd] in *; [discriminate|].
    cbn [MessageTickers.ratio_loop]. unfold unpacks in U.
    destruct (PyText.split pair_key) as [|t1 [|t2 [|t3 ts]]];
      try reflexivity; discriminate. }
  rewrite <- E. now destruct before.
Qed.

(** X21.  The whole pass for a guild.  Without an API key, and for a guild
    the collaborator does not know, [update_message_tickers_for_guild]
    sends nothing and asks nothing.  Otherwise it only adds deliveries to
    those made before, at most one per configured ticker and pair, each to a
    channel the collaborator knows, and asks the upstream at most once for
    the regular tickers and once per pair, also when an exception ends it. *)
Theorem message_pass_is_bounded (config : Configuration) (guild_id : Z)
    (do_regulars do_ratios : bool) (now : Q) (outbox : list (Z * string)) :
  let guild_config := guilds_get guild_id (guilds config) in
  let r := message_pass config guild_id do_regulars do_ratios now outbox in
  let tickers := match guild_config with
                 | Some cfg => List.length (message_tickers cfg)
                 | None => 0
                 end in
  let pairs := match guild_config with
               | Some cfg => List.length (ratio_tickers cfg)
               | None => 0
               end in
  (match guild_config with
   | Some cfg => Config.truthy_str (cmc_api_key cfg) = false
   | None => True
   end -> sent (snd r) = outbox /\ asks (snd r) = 0) /\
  (get_guild guild_id = false -> sent (snd r) = outbox /\ asks (snd r) = 0) /\
  exists new,
    sent (snd r) = outbox ++ new /\
    List.length new <= (if do_regulars then tickers else 0)
                       + (if do_ratios then pairs else 0) /\
    Forall (fun m => get_channel (fst m) = true) new /\
    asks (snd r) <= (if do_regulars then 1 else 0) + (if do_ratios then pairs else 0).
Proof.
  cbv zeta. unfold update_message_tickers_for_guild.
  set (s := {| quoter := init 300 1000 now; sent := outbox |}).
  assert (sent s = outbox) as S0 by reflexivity.
  assert (asks s = 0) as A0 by reflexivity.
  assert (exists new, sent s = outbox ++ new /\ List.length new <= 0 /\
                      Forall (fun m => get_channel (fst m) = true) new /\
                      asks s <= 0) as Idle.
  { exists []. rewrite app_nil_r. repeat split; [simpl; lia | constructor | lia]. }
  destruct (guilds_get guild_id (guilds config)) as [cfg|].
  2:{ split; [auto|]. split; [auto|].
      destruct Idle as (new & E & L & K & A). exists new.
      cbn [snd]. repeat split; [exact E | lia | exact K | lia]. }
  destruct (Config.truthy_str (cmc_api_key cfg)) eqn:T.
  2:{ split; [auto|]. split; [auto|].
      destruct Idle as (new & E & L & K & A). exists new.
      cbn [snd]. repeat split; [exact E | lia | exact K | lia]. }
  split; [discriminate|].
  destruct (get_guild guild_id) eqn:G.
  2:{ split; [auto|]. destruct Idle as (new & E & L & K & A). exists new.
      cbn [snd]. repeat split; [exact E | lia | exact K | lia]. }
  split; [discriminate|].
  set (s1 := if do_regulars then regular_pass cfg s else s).
  assert (exists new1, sent s1 = outbox ++ new1 /\
                       List.length new1
                         <= (if do_regulars then List.length (message_tickers cfg) else 0) /\
                       Forall (fun m => get_channel (fst m) = true) new1 /\
                       asks s1 <= (if do_regulars then 1 else 0)) as (new1 & E1 & L1 & K1 & A1).
  { subst s1. destruct do_regulars.
    - destruct (regular_pass_extends_outbox cfg s)
        as (new & E & L & K & A).
      exists new. split; [rewrite E, S0; reflexivity|]. split; [exact L|].
      split; [exact K | lia].
    - destruct Idle as (new & E & L & K & A). exists new. auto. }
  destruct do_ratios.
  - unfold _update_ratio_tickers.
    assert (exists new,
              sent (snd (ratio_loop (ratio_tickers cfg) s1)) = outbox ++ new /\
              List.length new
                <= (if do_regulars then List.length (message_tickers cfg) else 0)
                   + List.length (ratio_tickers cfg) /\
              Forall (fun m => get_channel (fst m) = true) new /\
              asks (snd (ratio_loop (ratio_tickers cfg) s1))
                <= (if do_regulars then 1 else 0) + List.length (ratio_tickers cfg))
      as Run.
    { destruct (ratio_loop_effect (ratio_tickers cfg) s1) as (new2 & E2 & L2 & K2 & A2).
      exists (new1 ++ new2). rewrite E2, E1, <- app_assoc, length_app.
      repeat split; [lia | now apply Forall_app | lia]. }
    destruct (ratio_tickers cfg) as [|kv items] eqn:R; [|exact Run].
    exists new1. cbn [snd]. simpl. repeat split; [exact E1 | lia | exact K1 | lia].
  - exists new1. cbn [snd]. repeat split; [exact E1 | lia | exact K1 | lia].
Qed.


End Passes.

Lemma malformed_pair_stops_ratio_tickers_witness :
  let s := {| quoter := init 300 1000 1000; sent := [] |} in
  let r := _update_ratio_tickers no_float ranked known exactly desk s in
  r = (Some UnpackValueError,
       snd (MessageTickers.ratio_loop no_float ranked known exactly
              [("ETH:BTC", 11%Z)] s)) /\
  map fst (sent (snd r)) = [11%Z] /\
  requests_sent (trace (quoter (snd r))) = 1.
Proof.
  cbv zeta. split; [|split; reflexivity].
  apply (@malformed_pair_stops_ratio_tickers no_float ranked known exactly desk
           [("ETH:BTC", 11%Z)] [("BTC:ETH", 12%Z)] "ETHBTC" 11%Z
           {| quoter := init 300 1000 1000; sent := [] |}).
  - reflexivity.
  - reflexivity.
  - reflexivity.
Defined.


End MessageFacts.

(* ================================================================= *)
(** ** commands.py: the validators *)

Module ValidatorFacts.
Import Py Quote Validators Examples Market.
Import QuoteFacts CacheFacts.

Section Validation.
Variable str_to_float : string -> option Q.
Variable upstream : nat -> list string -> response.

Local Abbreviation validate_key := (_validate_api_key str_to_float upstream).
Local Abbreviation validate_ticker := (_validate_ticker str_to_float upstream).

(** What a quoter made for one check returns for one symbol. *)
Lemma first_call (ticker : string) (now : Q) :
  fst (fetch_no_cache str_to_float upstream [ticker] (init 300 1000 now))
  = match upstream 0 [ticker] with
    | Status200 body => _parse_api_response str_to_float body
    | Status429 => Raised RateLimitExceeded
    | StatusOther status => Raised (ApiRequestFailed status)
    | ClientError => Raised NetworkError
    end.
Proof.
  unfold fetch_no_cache, _fetch_from_api. rewrite rate_limit_requests.
  change (requests_sent (trace (init 300 1000 now))) with 0.
  now destruct (upstream 0 [ticker]).
Qed.

(** X24.  The two validators.  [_validate_api_key] never raises: it returns
    [True] exactly when the upstream answers the request for BTC with
    status 200 and a body that parses to at least one quote, and [False]
    otherwise.  [_validate_ticker] returns a value exactly when the
    upstream answers with status 200 and a body that parses, [True] when at
    least one quote came back (the quote's symbol is not compared with the
    ticker), and lets the exception through when the call fails; for BTC
    the key validator is the ticker validator with every exception turned
    into [False]. *)
Theorem validators_accept_any_returned_quote (now : Q) :
  (validate_key now = true <->
   exists body q qs, upstream 0 ["BTC"] = Status200 body /\
                     _parse_api_response str_to_float body = Ok (q :: qs)) /\
  (forall ticker b,
     validate_ticker ticker now = Ok b <->
     exists body qs, upstream 0 [ticker] = Status200 body /\
                     _parse_api_response str_to_float body = Ok qs /\
                     b = truthy qs) /\
  (forall b, validate_ticker "BTC" now = Ok b -> validate_key now = b) /\
  (forall e, validate_ticker "BTC" now = Raised e -> validate_key now = false).
Proof.
  unfold _validate_api_key, _validate_ticker.
  split; [|split; [|split]].
  - rewrite first_call. split.
    + destruct (upstream 0 ["BTC"]) as [body| | |]; try discriminate.
      destruct (_parse_api_response str_to_float body) as [[|q qs]|ex] eqn:Pa;
        try discriminate.
      intros _. exists body, q, qs. auto.
    + intros (body & q & qs & -> & ->). reflexivity.
  - intros ticker b. rewrite first_call. split.
    + destruct (upstream 0 [ticker]) as [body| | |]; try discriminate.
      destruct (_parse_api_response str_to_float body) as [qs|ex] eqn:Pa;
        try discriminate.
      simpl. intros [= <-]. exists body, qs. auto.
    + intros (body & qs & -> & -> & ->). reflexivity.
  - intro b. rewrite first_call.
    destruct (upstream 0 ["BTC"]) as [body| | |]; try discriminate.
    destruct (_parse_api_response str_to_float body) as [qs|ex]; try discriminate.
    simpl. now intros [= <-].
  - intro e. rewrite first_call.
    destruct (upstream 0 ["BTC"]) as [body| | |]; try reflexivity.
    destruct (_parse_api_response str_to_float body) as [qs|ex]; [discriminate|].
    reflexivity.
Qed.

End Validation.

End ValidatorFacts.

(* ================================================================= *)
(** ** utils.py and config.py: saving and loading the configuration *)

Module ConfigFacts.
Import Py Quote ConfigData Desk.
Import ListFacts.

Lemma decimal_str (n : Z) : decimal (PyText.str n) = Some n.
Proof.
  unfold decimal, PyText.str.
  rewrite DecimalString.NilZero.isi.
  - simpl. now rewrite DecimalZ.of_to.
  - intro E. pose proof (f_equal Z.of_int E) as E'. rewrite DecimalZ.of_to in E'.
    simpl in E'. subst n. vm_compute in E. discriminate E.
  - intro E. pose proof (f_equal Z.of_int E) as E'. rewrite DecimalZ.of_to in E'.
    simpl in E'. subst n. vm_compute in E. discriminate E.
Qed.

Lemma dict_set_fresh {V} (k : string) (v : V) (d : dict V) :
  ~ In k (map fst d) -> dict_set k v d = d ++ [(k, v)].
Proof.
  induction d as [|[k' v'] d IH]; simpl; intro N; [reflexivity|].
  destruct (String.eqb_spec k k') as [->|_]; [exfalso; apply N; now left|].
  f_equal. apply IH. intro I. apply N. now right.
Qed.

Lemma guilds_set_fresh (k : Z) (g : GuildConfiguration)
    (d : list (Z * GuildConfiguration)) :
  ~ In k (map fst d) -> guilds_set k g d = d ++ [(k, g)].
Proof.
  induction d as [|[k' g'] d IH]; simpl; intro N; [reflexivity|].
  destruct (Z.eqb_spec k k') as [->|_]; [exfalso; apply N; now left|].
  f_equal. apply IH. intro I. apply N. now right.
Qed.

Lemma guilds_set_keys (k : Z) (g : GuildConfiguration)
    (d : list (Z * GuildConfiguration)) :
  map fst (guilds_set k g d)
  = if existsb (Z.eqb k) (map fst d) then map fst d else map fst d ++ [k].
Proof.
  induction d as [|[k' g'] d IH]; simpl; [reflexivity|].
  destruct (Z.eqb_spec k k') as [->|N]; simpl; [reflexivity|].
  rewrite IH. now destruct (existsb _ _).
Qed.

Lemma guilds_set_entries (k : Z) (g : GuildConfiguration)
    (d : list (Z * GuildConfiguration)) (kv : Z * GuildConfiguration) :
  In kv (guilds_set k g d) -> kv = (k, g) \/ In kv d.
Proof.
  induction d as [|[k' g'] d IH]; simpl.
  - intros [<-|[]]. now left.
  - destruct (Z.eqb k k'); simpl.
    + intros [<-|I]; [now left | right; now right].
    + intros [<-|I]; [right; now left|].
      destruct (IH I) as [E|I']; [now left | right; now right].
Qed.

Lemma guilds_get_set (k : Z) (g : GuildConfiguration)
    (d : list (Z * GuildConfiguration)) :
  guilds_get k (guilds_set k g d) = Some g.
Proof.
  induction d as [|[k' g'] d IH]; simpl.
  - now rewrite Z.eqb_refl.
  - destruct (Z.eqb k k') eqn:E; simpl; [now rewrite Z.eqb_refl|].
    now rewrite E.
Qed.

Lemma guilds_get_in (k : Z) (g : GuildConfiguration)
    (d : list (Z * GuildConfiguration)) :
  guilds_get k d = Some g -> In (k, g) d.
Proof.
  induction d as [|[k' g'] d IH]; simpl; [discriminate|].
  destruct (Z.eqb_spec k k') as [->|_].
  - intros [= ->]. now left.
  - intro G. right. now apply IH.
Qed.

(** Storing a guild under its own id keeps a configuration keyed by id. *)
Lemma guilds_set_keyed (g : GuildConfiguration) (d : list (Z * GuildConfiguration)) :
  keyed_by_id {| guilds := d |} ->
  keyed_by_id {| guilds := guilds_set (id g) g d |}.
Proof.
  intros [K ND]. cbn [guilds] in *. split; cbn [guilds].
  - rewrite Forall_forall in *. intros kv I.
    apply guilds_set_entries in I. destruct I as [->|I]; [reflexivity | now apply K].
  - rewrite guilds_set_keys. destruct (existsb (Z.eqb (id g)) (map fst d)) eqn:E;
      [exact ND|].
    apply NoDup_app; [exact ND | repeat constructor; intros [] |].
    intros a I [X|[]]. subst a.
    assert (existsb (Z.eqb (id g)) (map fst d) = true); [|congruence].
    apply existsb_exists. exists (id g). split; [exact I | apply Z.eqb_refl].
Qed.

Section Loading.
Variable int_of_str : string -> option Z.

Local Abbreviation int := (ConfigData.int int_of_str).
Local Abbreviation to_all_ints := (ConfigData.to_all_ints int_of_str).
Local Abbreviation load_guild := (ConfigData.load_guild int_of_str).
Local Abbreviation load_guilds := (ConfigData.load_guilds int_of_str).
Local Abbreviation config_from_dict := (ConfigData.config_from_dict int_of_str).

Lemma load_guild_keyed (d : list (Z * GuildConfiguration)) (item : string * json)
    (d' : list (Z * GuildConfiguration)) :
  keyed_by_id {| guilds := d |} ->
  load_guild d item = Ok d' ->
  keyed_by_id {| guilds := d' |}.
Proof.
  intros K H. destruct item as [guild_id_s guild_data_j].
  unfold ConfigData.load_guild in H.
  destruct (int (JStr guild_id_s)) as [guild_id|]; simpl in H; [|discriminate].
  destruct (as_dict guild_data_j) as [guild_data|]; simpl in H; [|discriminate].
  destruct (optional_int int_of_str "update_category" guild_data) as [uc|];
    simpl in H; [|discriminate].
  destruct (optional_int int_of_str "management_role_id" guild_data) as [mr|];
    simpl in H; [|discriminate].
  destruct (to_all_ints (get "ratio_tickers" (JObj []) guild_data)) as [rt|];
    simpl in H; [|discriminate].
  destruct (to_all_ints (get "message_tickers" (JObj []) guild_data)) as [mt|];
    simpl in H; [|discriminate].
  injection H as <-.
  match goal with
  | |- keyed_by_id {| guilds := guilds_set _ ?g d |} =>
      apply (guilds_set_keyed g K)
  end.
Qed.

Lemma load_guilds_keyed (items : list (string * json)) :
  forall d d', keyed_by_id {| guilds := d |} ->
               load_guilds items d = Ok d' ->
               keyed_by_id {| guilds := d' |}.
Proof.
  induction items as [|item items IH]; intros d d' K H; simpl in H.
  - now injection H as <-.
  - destruct (load_guild d item) as [d1|] eqn:L; simpl in H; [|discriminate].
    eapply IH; [|exact H]. eapply load_guild_keyed; eauto.
Qed.

(** X27.  Whatever document it is given, a configuration that
    [config_from_dict] returns stores every guild under the guild's own id
    and no id twice (two keys that read as the same integer fill one entry,
    the later one winning). *)
Theorem loaded_configuration_is_keyed_by_id (d : json) (c : Configuration) :
  config_from_dict d = Ok c -> keyed_by_id c.
Proof.
  unfold ConfigData.config_from_dict. intro H.
  destruct (as_dict d) as [items|]; simpl in H; [|discriminate].
  destruct (load_guilds items []) as [gs|] eqn:L; simpl in H; [|discriminate].
  injection H as <-.
  apply (@load_guilds_keyed items [] gs); [|exact L].
  split; simpl; constructor.
Qed.

(** X28.  [_get_or_create_guild] keeps a configuration keyed by id: the
    guild it returns has the id asked for and is the one stored under that
    id afterwards, and a guild that was there is returned as it is, with
    the configuration unchanged. *)
Theorem get_or_create_guild_keeps_configuration_keyed (guild_id : Z)
    (c : Configuration) :
  keyed_by_id c ->
  let guild := fst (_get_or_create_guild guild_id c) in
  let c' := snd (_get_or_create_guild guild_id c) in
  keyed_by_id c' /\
  id guild = guild_id /\
  guilds_get guild_id (guilds c') = Some guild /\
  (forall g, guilds_get guild_id (guilds c) = Some g -> guild = g /\ c' = c).
Proof.
  intros K. cbv zeta. unfold _get_or_create_guild.
  destruct (guilds_get guild_id (guilds c)) as [g|] eqn:G; cbn [fst snd].
  - split; [exact K|]. split; [|split; [exact G|]].
    + destruct K as [K _]. rewrite Forall_forall in K.
      symmetry. apply (K (guild_id, g)). now apply guilds_get_in.
    + intros g' [= <-]. auto.
  - split; [|split; [reflexivity | split; [apply guilds_get_set | discriminate]]].
    destruct c as [d]. cbn [guilds] in *.
    apply (guilds_set_keyed (plain guild_id) K).
Qed.

(** *** The round trip *)

Hypothesis int_of_str_of_int : forall n, int_of_str (PyText.str n) = Some n.

Lemma str_injective (a b : Z) : PyText.str a = PyText.str b -> a = b.
Proof.
  intro E. apply (f_equal int_of_str) in E.
  rewrite !int_of_str_of_int in E. congruence.
Qed.

Lemma printed_ids_distinct (ids : list Z) :
  NoDup ids -> NoDup (map PyText.str ids).
Proof.
  induction ids as [|n ids IH]; simpl; intro ND; [constructor|].
  inversion ND as [|? ? N ND']; subst. constructor; [|now apply IH].
  intro I. apply in_map_iff in I. destruct I as (m & E & I).
  apply str_injective in E. now subst m.
Qed.

Lemma to_all_ints_of_strings (d : dict Z) :
  to_all_ints (JObj (to_all_strings d)) = Ok d.
Proof.
  unfold ConfigData.to_all_ints, to_all_strings. simpl.
  induction d as [|[k n] d IH]; simpl; [reflexivity|].
  rewrite int_of_str_of_int. simpl. rewrite IH. reflexivity.
Qed.

Lemma texts_of_texts (l : list string) : texts_of (JArr (map JStr l)) = l.
Proof. simpl. rewrite map_map. simpl. apply map_id. Qed.

Lemma load_saved_guild (g : GuildConfiguration) (d : list (Z * GuildConfiguration)) :
  load_guild d (PyText.str (id g), JObj (guild_data_of g))
  = Ok (guilds_set (id g) g d).
Proof.
  unfold ConfigData.load_guild. cbn [ConfigData.int].
  rewrite int_of_str_of_int. cbn [bind as_dict].
  pose proof (to_all_ints_of_strings (ratio_tickers g)) as R.
  pose proof (to_all_ints_of_strings (message_tickers g)) as M.
  pose proof (texts_of_texts (voice_tickers g)) as V.
  destruct g as [gid uc vt rt mt mr key]. cbn [id update_category voice_tickers
    ratio_tickers message_tickers management_role_id cmc_api_key] in *.
  unfold guild_data_of, optional_int.
  cbn [id update_category voice_tickers ratio_tickers message_tickers
       management_role_id cmc_api_key].
  destruct uc as [uc|], mr as [mr|], key as [key|];
    cbn [dict_set get dict_get String.eqb Ascii.eqb Bool.eqb ConfigData.int bind
         optional_text];
    rewrite ?int_of_str_of_int; cbn [bind]; rewrite R, M; cbn [bind];
    rewrite V; reflexivity.
Qed.

Lemma save_guilds (gs : list GuildConfiguration) (acc : list (string * json)) :
  NoDup (map fst acc ++ map (fun g => PyText.str (id g)) gs) ->
  fold_left (fun d guild =>
               dict_set (PyText.str (id guild)) (JObj (guild_data_of guild)) d)
            gs acc
  = acc ++ map (fun g => (PyText.str (id g), JObj (guild_data_of g))) gs.
Proof.
  revert acc. induction gs as [|g gs IH]; intros acc ND; simpl.
  - now rewrite app_nil_r.
  - assert (~ In (PyText.str (id g)) (map fst acc)) as N.
    { intro I. apply (NoDup_app_disjoint _ _ ND (PyText.str (id g)) I). now left. }
    rewrite (@dict_set_fresh _ (PyText.str (id g)) (JObj (guild_data_of g)) acc N), IH.
    + now rewrite <- app_assoc.
    + rewrite map_app, <- app_assoc. exact ND.
Qed.

Lemma load_saved_guilds (gs : list GuildConfiguration)
    (acc : list (Z * GuildConfiguration)) :
  NoDup (map fst acc ++ map id gs) ->
  load_guilds (map (fun g => (PyText.str (id g), JObj (guild_data_of g))) gs) acc
  = Ok (acc ++ map (fun g => (id g, g)) gs).
Proof.
  revert acc. induction gs as [|g gs IH]; intros acc ND;
    cbn [map ConfigData.load_guilds].
  - now rewrite app_nil_r.
  - rewrite load_saved_guild. cbn [bind].
    assert (~ In (id g) (map fst acc)) as N.
    { intro I. apply (NoDup_app_disjoint _ _ ND (id g) I). now left. }
    rewrite (@guilds_set_fresh (id g) g acc N), IH.
    + now rewrite <- app_assoc.
    + rewrite map_app, <- app_assoc. exact ND.
Qed.

Lemma keyed_guilds (c : Configuration) :
  keyed_by_id c ->
  guilds c = map (fun g => (id g, g)) (map snd (guilds c)) /\
  NoDup (map id (map snd (guilds c))).
Proof.
  intros [K ND]. rewrite Forall_forall in K.
  assert (guilds c = map (fun g => (id g, g)) (map snd (guilds c))) as E.
  { rewrite map_map. rewrite <- (map_id (guilds c)) at 1.
    apply map_ext_in. intros [k g] I. pose proof (K _ I) as Kk.
    simpl in Kk. simpl. now rewrite Kk. }
  split; [exact E|].
  rewrite E in ND at 1. rewrite map_map in ND. exact ND.
Qed.

(** X29.  Saving and loading give the configuration back:
    [config_from_dict] of the dictionary that [dict_from_config] builds is
    the configuration itself, for a configuration that stores every guild
    under its own id and no id twice, given that [int] reads back what [str]
    prints. *)
Theorem saved_configuration_loads_back (c : Configuration) :
  keyed_by_id c ->
  config_from_dict (JObj (dict_from_config c)) = Ok c.
Proof.
  intro K. destruct (keyed_guilds K) as [E ND].
  unfold ConfigData.config_from_dict, dict_from_config. cbn [as_dict bind].
  rewrite save_guilds.
  - cbn [app]. rewrite load_saved_guilds by exact ND.
    cbn [app bind]. rewrite <- E. now destruct c.
  - cbn [map app]. rewrite <- (map_map id PyText.str).
    apply printed_ids_distinct. exact ND.
Qed.

(** X30.  utils.py: [to_all_ints] undoes [to_all_strings]: the ids of a
    ticker map, printed by the one and read by the other, come back under
    the same keys and in the same order, given that [int] reads back what
    [str] prints. *)
Theorem to_all_ints_undoes_to_all_strings (d : dict Z) :
  to_all_ints (JObj (to_all_strings d)) = Ok d /\
  map fst (to_all_strings d) = map fst d.
Proof.
  split; [apply to_all_ints_of_strings|].
  unfold to_all_strings. rewrite map_map. reflexivity.
Qed.

End Loading.

Lemma loaded_configuration_is_keyed_by_id_witness :
  config_from_dict decimal
    (JObj [("7", JObj [("update_category", JStr "42")]);
           ("07", JObj [("voice_tickers", JArr [JStr "BTC"])])])
  = Ok {| guilds := [(7%Z, {| id := 7; update_category := None;
                              voice_tickers := ["BTC"]; ratio_tickers := [];
                              message_tickers := []; management_role_id := None;
                              cmc_api_key := None |})] |} /\
  keyed_by_id {| guilds := [(7%Z, {| id := 7; update_category := None;
                                     voice_tickers := ["BTC"]; ratio_tickers := [];
                                     message_tickers := []; management_role_id := None;
                                     cmc_api_key := None |})] |}.
Proof.
  split; [reflexivity|].
  apply (@loaded_configuration_is_keyed_by_id decimal
           (JObj [("7", JObj [("update_category", JStr "42")]);
                  ("07", JObj [("voice_tickers", JArr [JStr "BTC"])])])).
  reflexivity.
Defined.

Lemma get_or_create_guild_keeps_configuration_keyed_witness :
  let c := {| guilds := [(7%Z, desk)] |} in
  let guild := fst (_get_or_create_guild 8 c) in
  let c' := snd (_get_or_create_guild 8 c) in
  keyed_by_id c' /\
  id guild = 8%Z /\
  guilds_get 8 (guilds c') = Some guild /\
  (forall g, guilds_get 8 (guilds c) = Some g -> guild = g /\ c' = c).
Proof.
  apply (@get_or_create_guild_keeps_configuration_keyed 8 {| guilds := [(7%Z, desk)] |}).
  split; simpl.
  - repeat constructor.
  - repeat constructor. intros [].
Defined.

Lemma saved_configuration_loads_back_witness :
  config_from_dict decimal
    (JObj (dict_from_config {| guilds := [(7%Z, desk); (8%Z, plain 8)] |}))
  = Ok {| guilds := [(7%Z, desk); (8%Z, plain 8)] |}.
Proof.
  apply (@saved_configuration_loads_back decimal decimal_str
           {| guilds := [(7%Z, desk); (8%Z, plain 8)] |}).
  split; simpl.
  - repeat constructor.
  - repeat constructor; simpl; intuition discriminate.
Defined.

Lemma to_all_ints_undoes_to_all_strings_witness :
  to_all_ints decimal (JObj (to_all_strings [("BTC", 11%Z); ("ETH", (-3)%Z)]))
    = Ok [("BTC", 11%Z); ("ETH", (-3)%Z)] /\
  map fst (to_all_strings [("BTC", 11%Z); ("ETH", (-3)%Z)]) = ["BTC"; "ETH"].
Proof.
  apply (@to_all_ints_undoes_to_all_strings decimal decimal_str
           [("BTC", 11%Z); ("ETH", (-3)%Z)]).
Defined.

End ConfigFacts.

(* ================================================================= *)
(** ** updaters.py: the message tickers of all guilds *)

Module RoundFacts.
Import Py Quote ConfigData MessageTickers MessageSpec Examples Market Desk.
Import ListFacts MessageFacts ConfigFacts.


Section Rounds.
Variable format_fixed : nat -> Q -> string.
Variable str_to_float : string -> option Q.
Variable upstream : nat -> list string -> response.
Variable get_channel : Z -> bool.
Variable int_of_quotient : Q -> Q -> converted.
Variable get_guild : Z -> bool.

Local Abbreviation ratio_loop :=
  (MessageTickers.ratio_loop str_to_float upstream get_channel int_of_quotient).
Local Abbreviation message_pass :=
  (update_message_tickers_for_guild format_fixed str_to_float upstream get_channel
     int_of_quotient get_guild).
Local Abbreviation all_guilds_loop :=
  (MessageTickers.all_guilds_loop format_fixed str_to_float upstream get_channel
     int_of_quotient get_guild).
Local Abbreviation update_all :=
  (update_all_message_tickers format_fixed str_to_float upstream get_channel
     int_of_quotient get_guild).






End Rounds.


End RoundFacts.

(* ================================================================= *)
(** ** commands.py: the voice ticker commands *)

Module CommandFacts.
Import Py Quote Discord ConfigData Commands Examples Market Desk.
Import ListFacts ConfigFacts.

Lemma guilds_get_set_other (k k' : Z) (g : GuildConfiguration)
    (d : list (Z * GuildConfiguration)) :
  k <> k' -> guilds_get k (guilds_set k' g d) = guilds_get k d.
Proof.
  intro D. induction d as [|[k0 g0] d IH]; simpl.
  - destruct (Z.eqb_spec k k'); [contradiction | reflexivity].
  - destruct (Z.eqb_spec k' k0) as [->|D0]; simpl.
    + destruct (Z.eqb_spec k k0); [contradiction|].
      destruct (Z.eqb_spec k k0); [contradiction | reflexivity].
    + destruct (Z.eqb k k0); [reflexivity | exact IH].
Qed.

Lemma tracked_iff (ticker : string) (l : list string) :
  existsb (String.eqb ticker) l = true <-> In ticker l.
Proof.
  rewrite existsb_exists. split.
  - intros (x & I & E). apply String.eqb_eq in E. now subst.
  - intro I. exists ticker. split; [exact I | apply String.eqb_refl].
Qed.

Lemma list_remove_in (x y : string) (l : list string) :
  In y (list_remove x l) -> In y l.
Proof.
  induction l as [|z l IH]; simpl; [tauto|].
  destruct (String.eqb z x); simpl; [tauto|]. intros [E|I]; [now left | right; auto].
Qed.

Lemma list_remove_other (x y : string) (l : list string) :
  y <> x -> In y l -> In y (list_remove x l).
Proof.
  intro D. induction l as [|z l IH]; simpl; [tauto|].
  destruct (String.eqb_spec z x) as [->|N]; simpl.
  - intros [E|I]; [congruence | exact I].
  - intros [E|I]; [now left | right; auto].
Qed.

Lemma list_remove_distinct (x : string) (l : list string) :
  NoDup l -> NoDup (list_remove x l) /\ ~ In x (list_remove x l).
Proof.
  induction l as [|z l IH]; simpl; intro ND; [split; [constructor | tauto]|].
  inversion ND as [|? ? N ND']; subst.
  destruct (String.eqb_spec z x) as [->|D]; [split; assumption|].
  destruct (IH ND') as [ND1 N1]. split.
  - constructor; [|exact ND1]. intro I. apply N. eapply list_remove_in; eauto.
  - simpl. intros [E|I]; [congruence | contradiction].
Qed.

Section Handlers.
Variable styles : VoiceChannelUpdater.Styles.
Variable format_fixed : nat -> Q -> string.
Variable str_to_float : string -> option Q.
Variable upstream : nat -> list string -> response.
Variable upper : string -> string.

Local Abbreviation add_command :=
  (Commands.add_voice_ticker styles format_fixed str_to_float upstream upper).
Local Abbreviation remove_command := (Commands.remove_voice_ticker upper).

(** The ways [/add_voice_ticker] ends. *)
Lemma add_command_cases (interaction : Interaction) (ticker : string) (now : Q)
    (config : Configuration) (c : category) (out : handled) :
  add_command interaction ticker now config c = Ok out ->
  (config_after out = config /\ category_after out = c) \/
  (has_bot_management_permission interaction config = true /\
   exists guild,
     guilds_get (guild_id interaction) (guilds config) = Some guild /\
     ~ In (upper ticker) (voice_tickers guild) /\
     Validators._validate_ticker str_to_float upstream (upper ticker) now = Ok true /\
     config_after out
       = {| guilds := guilds_set (guild_id interaction)
                        (set_voice_tickers (voice_tickers guild ++ [upper ticker]) guild)
                        (guilds config) |}).
Proof.
  unfold Commands.add_voice_ticker, _check_permissions_and_api.
  destruct (has_bot_management_permission interaction config) eqn:P; cbn [negb].
  2:{ simpl. intros [= <-]. left. split; reflexivity. }
  destruct (guilds_get (guild_id interaction) (guilds config)) as [guild|] eqn:G.
  2:{ simpl. intros [= <-]. left. split; reflexivity. }
  destruct (Config.truthy_str (cmc_api_key guild)).
  2:{ simpl. intros [= <-]. left. split; reflexivity. }
  cbn [String.eqb Ascii.eqb Bool.eqb andb].
  destruct (Config.truthy_id (update_category guild)); cbn [negb].
  2:{ intros [= <-]. left. split; reflexivity. }
  destruct (Validators._validate_ticker str_to_float upstream (upper ticker) now)
    as [[|]|ex] eqn:V; cbn [bind negb]; try discriminate.
  2:{ intros [= <-]. left. split; reflexivity. }
  destruct (existsb (String.eqb (upper ticker)) (voice_tickers guild)) eqn:E;
    cbn [negb].
  { intros [= <-]. left. split; reflexivity. }
  intros [= <-]. right. split; [reflexivity|]. exists guild.
  split; [reflexivity|]. split; [|split; reflexivity].
  intro I. apply tracked_iff in I. congruence.
Qed.

(** X25.  The [/add_voice_ticker] command tracks every ticker once.  When it
    returns: a user without the bot-management permission has changed
    nothing; the configuration of every other guild is as it was; a guild
    whose tracked tickers were distinct has them distinct still, keeps every
    ticker it had, and gains at most the upper-cased ticker; and when that
    ticker was tracked already, the channels are as they were. *)
Theorem add_command_tracks_every_ticker_once (interaction : Interaction)
    (ticker : string) (now : Q) (config : Configuration) (c : category)
    (out : handled) :
  add_command interaction ticker now config c = Ok out ->
  (has_bot_management_permission interaction config = false ->
   config_after out = config /\ category_after out = c) /\
  (forall k, k <> guild_id interaction ->
             guilds_get k (guilds (config_after out)) = guilds_get k (guilds config)) /\
  (forall guild,
     guilds_get (guild_id interaction) (guilds config) = Some guild ->
     exists guild',
       guilds_get (guild_id interaction) (guilds (config_after out)) = Some guild' /\
       (NoDup (voice_tickers guild) -> NoDup (voice_tickers guild')) /\
       (forall t, In t (voice_tickers guild) -> In t (voice_tickers guild')) /\
       (forall t, In t (voice_tickers guild') ->
                  In t (voice_tickers guild) \/ t = upper ticker) /\
       (In (upper ticker) (voice_tickers guild) ->
        guild' = guild /\ category_after out = c)).
Proof.
  intro H. pose proof (add_command_cases _ _ _ _ _ H) as Cases.
  split; [|split].
  - intro P. destruct Cases as [U|[P' _]]; [exact U | congruence].
  - intros k D. destruct Cases as [[-> _]|(_ & guild & _ & _ & _ & ->)];
      [reflexivity|].
    cbn [guilds]. now apply guilds_get_set_other.
  - intros guild G. destruct Cases as [[-> ->]|(_ & guild0 & G0 & New & _ & ->)].
    + exists guild. split; [exact G|]. repeat split; auto.
    + rewrite G in G0. injection G0 as <-.
      exists (set_voice_tickers (voice_tickers guild ++ [upper ticker]) guild).
      cbn [guilds]. split; [apply guilds_get_set|].
      cbn [voice_tickers set_voice_tickers]. split; [|split; [|split]].
      * intro ND. apply NoDup_app; [exact ND | repeat constructor; intros [] |].
        intros t I [<-|[]]. contradiction.
      * intros t I. apply in_app_iff. now left.
      * intros t I. apply in_app_iff in I. destruct I as [I|[<-|[]]]; auto.
      * intro I. contradiction.
Qed.

(** X26.  The [/remove_voice_ticker] command.  A user without the
    bot-management permission changes nothing; the configuration of every
    other guild stays as it was; in the guild of the command the first
    occurrence of the upper-cased ticker leaves the tracked tickers, so
    that tickers that were distinct no longer hold it, and every other
    ticker stays; and when the ticker was not tracked, neither the
    configuration nor the channels change. *)
Theorem remove_command_untracks_the_ticker (interaction : Interaction)
    (ticker : string) (config : Configuration) (c : category) :
  let out := remove_command interaction ticker config c in
  (has_bot_management_permission interaction config = false ->
   config_after out = config /\ category_after out = c) /\
  (forall k, k <> guild_id interaction ->
             guilds_get k (guilds (config_after out)) = guilds_get k (guilds config)) /\
  (forall guild,
     guilds_get (guild_id interaction) (guilds config) = Some guild ->
     has_bot_management_permission interaction config = true ->
     exists guild',
       guilds_get (guild_id interaction) (guilds (config_after out)) = Some guild' /\
       voice_tickers guild' = list_remove (upper ticker) (voice_tickers guild) /\
       (NoDup (voice_tickers guild) ->
        NoDup (voice_tickers guild') /\ ~ In (upper ticker) (voice_tickers guild')) /\
       (forall t, t <> upper ticker -> In t (voice_tickers guild) ->
                  In t (voice_tickers guild')) /\
       (~ In (upper ticker) (voice_tickers guild) ->
        config_after out = config /\ category_after out = c)).
Proof.
  cbv zeta. unfold Commands.remove_voice_ticker.
  destruct (has_bot_management_permission interaction config) eqn:P; cbn [negb].
  2:{ cbn [config_after category_after]. split; [auto|]. split; [auto|].
      intros guild _ X. discriminate X. }
  split; [discriminate|].
  destruct (guilds_get (guild_id interaction) (guilds config)) as [guild|] eqn:G.
  2:{ cbn [config_after category_after]. split; [auto|]. intros g X. discriminate X. }
  destruct (existsb (String.eqb (upper ticker)) (voice_tickers guild)) eqn:E;
    cbn [config_after category_after guilds].
  - split; [intros k D; now apply guilds_get_set_other|].
    intros g [= <-] _.
    exists (set_voice_tickers (list_remove (upper ticker) (voice_tickers guild)) guild).
    split; [apply guilds_get_set|]. cbn [voice_tickers set_voice_tickers].
    split; [reflexivity|]. split; [apply list_remove_distinct|].
    split; [intros t D I; now apply list_remove_other|].
    intro N. exfalso. apply N. now apply tracked_iff.
  - split; [auto|]. intros g [= <-] _. exists guild. split; [exact G|].
    assert (~ In (upper ticker) (voice_tickers guild)) as N
      by (intro I; apply tracked_iff in I; congruence).
    assert (list_remove (upper ticker) (voice_tickers guild) = voice_tickers guild)
      as R.
    { clear -N. induction (voice_tickers guild) as [|z l IH]; [reflexivity|].
      simpl. destruct (String.eqb_spec z (upper ticker)) as [->|D].
      - exfalso. apply N. now left.
      - f_equal. apply IH. intro I. apply N. now right. }
    rewrite R. split; [reflexivity|]. split; [auto|]. split; [auto|]. auto.
Qed.

End Handlers.

Lemma add_command_tracks_every_ticker_once_witness :
  let config := {| guilds := [(7%Z, desk); (8%Z, annex)] |} in
  let c := container [chan 1 "ETH + $1.00"] 2 in
  let out :=
    {| reply := "Added DOGE to voice updates.";
       config_after :=
         {| guilds := [(7%Z, set_voice_tickers ["BTC"; "ETH"; "DOGE"] desk);
                       (8%Z, annex)] |};
       category_after := c |} in
  Commands.add_voice_ticker icons fixed no_float ranked shout manager "doge"
    1000 config c = Ok out /\
  (has_bot_management_permission manager config = false ->
   config_after out = config /\ category_after out = c) /\
  (forall k, k <> 7%Z ->
             guilds_get k (guilds (config_after out)) = guilds_get k (guilds config)) /\
  (forall guild,
     guilds_get 7 (guilds config) = Some guild ->
     exists guild',
       guilds_get 7 (guilds (config_after out)) = Some guild' /\
       (NoDup (voice_tickers guild) -> NoDup (voice_tickers guild')) /\
       (forall t, In t (voice_tickers guild) -> In t (voice_tickers guild')) /\
       (forall t, In t (voice_tickers guild') ->
                  In t (voice_tickers guild) \/ t = shout "doge") /\
       (In (shout "doge") (voice_tickers guild) ->
        guild' = guild /\ category_after out = c)).
Proof.
  cbv zeta. split; [reflexivity|].
  apply (@add_command_tracks_every_ticker_once icons fixed no_float ranked shout
           manager "doge" 1000 {| guilds := [(7%Z, desk); (8%Z, annex)] |}
           (container [chan 1 "ETH + $1.00"] 2)).
  reflexivity.
Defined.

End CommandFacts.
